(** * jcdump: the ZIP reader and the WASI bridge of the demo

    A shallow embedding of [demo/src/lib/zip.ts] (the [Reader] cursor, the
    three record decoders and [unzip]) and of the [wasip1] import object
    ([fd_read], [fd_write]) with the callbacks [parse] binds to it, with
    the properties the specification states about them.

    JavaScript numbers are modelled by [Z]: every number the code computes
    is an integer far below 2^53, so the arithmetic is exact.  An
    [ArrayBuffer] is a [list byte].  A thrown exception is the [Throw]
    outcome of an explicit state-and-exception monad; the state survives
    the throw, as the fields of a JavaScript object do. *)

From Stdlib Require Import ZArith List Lia Bool.
From Stdlib Require Import Init.Byte.
From stdpp Require Import base gmap list strings.

Local Open Scope Z_scope.

(** ** Outcomes *)

(** The exceptions of the two files, one constructor per [throw] site
    (sites that share a message share a constructor), and [RangeError] for
    what the platform raises when a [DataView] or typed array is addressed
    outside its buffer. *)
Inductive Error : Type :=
| SeekNegative (pos : Z)            (* `${pos} < 0` *)
| SeekPastEnd (pos : Z)             (* `${pos} > this.len` *)
| ReadPastEnd (pos size len : Z)    (* `${pos} + ${size} > ${len}` *)
| NotImplemented                    (* `Not implemented` *)
| SignatureMismatch                 (* `Central directory signature mismatch` *)
| NotSupported (method : Z)         (* `Not supported: ${method}` *)
| MemoryNotSet                      (* "Memory not set." *)
| NotSet (channel : string)         (* "Not set: stdin" and the like *)
| ProviderError                     (* whatever a bound callback throws *)
| RangeError.                       (* raised by the platform *)

Inductive Result (A : Type) : Type :=
| Ok (a : A)
| Throw (e : Error).
Arguments Ok {A} a.
Arguments Throw {A} e.

(** Computations over a mutable state [S] that may throw. *)
Definition M (S A : Type) : Type := S -> Result A * S.

Definition ret {S A} (a : A) : M S A := fun s => (Ok a, s).
Definition throw {S A} (e : Error) : M S A := fun s => (Throw e, s).
Definition bind {S A B} (m : M S A) (k : A -> M S B) : M S B :=
  fun s => match m s with
           | (Ok a, s') => k a s'
           | (Throw e, s') => (Throw e, s')
           end.

Declare Scope js_scope.
Delimit Scope js_scope with js.
Notation "'let*' x ':=' m 'in' k" := (bind m (fun x => k))
  (at level 10, x name, m at level 100, k at level 200) : js_scope.
Notation "m ';;;' k" := (bind m (fun _ => k))
  (at level 100, right associativity) : js_scope.
Local Open Scope js_scope.

(** ** Bytes, [DataView] and typed arrays *)

Definition u8 (b : byte) : Z := Z.of_N (Byte.to_N b).

Definition byte_of_Z (z : Z) : byte :=
  match Byte.of_N (Z.to_N (z mod 256)) with
  | Some b => b
  | None => x00
  end.

Definition byteLength (data : list byte) : Z := Z.of_nat (length data).

(** The byte at an index known to be inside the buffer. *)
Definition at_index (data : list byte) (i : Z) : Z :=
  u8 (nth (Z.to_nat i) data x00).

Definition in_bounds (data : list byte) (off size : Z) : bool :=
  (0 <=? off) && (0 <=? size) && (off + size <=? byteLength data).

(** [view.getUint16(off, true)] and [view.getUint32(off, true)]:
    little-endian, [RangeError] outside the buffer. *)
Definition uint16_at (data : list byte) (off : Z) : Z :=
  at_index data off + 256 * at_index data (off + 1).

Definition uint32_at (data : list byte) (off : Z) : Z :=
  at_index data off + 256 * at_index data (off + 1)
  + 65536 * at_index data (off + 2) + 16777216 * at_index data (off + 3).

Definition getUint16 (data : list byte) (off : Z) : Result Z :=
  if in_bounds data off 2 then Ok (uint16_at data off) else Throw RangeError.

Definition getUint32 (data : list byte) (off : Z) : Result Z :=
  if in_bounds data off 4 then Ok (uint32_at data off) else Throw RangeError.

(** [new Uint8Array(buffer, off, n)]: the [n] bytes from [off], and
    [RangeError] when the window is not inside the buffer. *)
Definition subarray (data : list byte) (off n : Z) : Result (list byte) :=
  if in_bounds data off n
  then Ok (take (Z.to_nat n) (drop (Z.to_nat off) data))
  else Throw RangeError.

(** ** The cursor: [class Reader] *)

Module Reader.

Record t : Type := mk { view : list byte; pos : Z }.

(** [new Reader(data)] *)
Definition new (data : list byte) : t := {| view := data; pos := 0 |}.

Definition len (r : t) : Z := byteLength (view r).

Definition set_pos (r : t) (p : Z) : t := {| view := view r; pos := p |}.

Definition seek (p : Z) : M t unit := fun r =>
  let p := if p <? 0 then len r + p else p in
  if p <? 0 then (Throw (SeekNegative p), r)
  else if p >? len r then (Throw (SeekPastEnd p), r)
  else (Ok tt, set_pos r p).

Definition readU4 : M t Z := fun r =>
  if pos r + 4 >? len r then (Throw (ReadPastEnd (pos r) 4 (len r)), r)
  else match getUint32 (view r) (pos r) with
       | Ok val => (Ok val, set_pos r (pos r + 4))
       | Throw e => (Throw e, r)
       end.

Definition readU2 : M t Z := fun r =>
  if pos r + 2 >? len r then (Throw (ReadPastEnd (pos r) 2 (len r)), r)
  else match getUint16 (view r) (pos r) with
       | Ok val => (Ok val, set_pos r (pos r + 2))
       | Throw e => (Throw e, r)
       end.

Definition readBytes (n : Z) : M t (list byte) := fun r =>
  if pos r + n >? len r then (Throw (ReadPastEnd (pos r) n (len r)), r)
  else match subarray (view r) (pos r) n with
       | Ok val => (Ok val, set_pos r (pos r + n))
       | Throw e => (Throw e, r)
       end.

End Reader.

(** ** The records of the ZIP format and their decoders *)

Record EndOfCentralDirectoryRecord : Type := {
  numberOfThisDisk : Z;
  numberOfTheDiskWithTheStartOfTheCentralDirectory : Z;
  totalNumberOfEntriesInTheCentralDirectoryOnThisDisk : Z;
  totalNumberOfEntriesInTheCentralDirectory : Z;
  sizeOfTheCentralDirectory : Z;
  offsetOfStartOfCentralDirectoryWithRespectToTheStartingDiskNumber : Z;
  dotZipFileCommentLength : Z
}.

Record CentralDirectoryEntry : Type := {
  versionMadeBy : Z;
  versionNeededToExtract : Z;
  generalPurposeBitFlag : Z;
  compressionMethod : Z;
  lastModFileTime : Z;
  lastModFileDate : Z;
  crc32 : Z;
  compressedSize : Z;
  uncompressedSize : Z;
  diskNumberStart : Z;
  internalFileAttributes : Z;
  externalFileAttributes : Z;
  relativeOffsetOfLocalHeader : Z;
  fileName : string;
  extraField : list byte;
  fileComment : list byte
}.

Record LocalFileHeader : Type := {
  lfh_versionNeededToExtract : Z;
  lfh_generalPurposeBitFlag : Z;
  lfh_compressionMethod : Z;
  lfh_lastModFileTime : Z;
  lfh_lastModFileDate : Z;
  lfh_crc32 : Z;
  lfh_compressedSize : Z;
  lfh_uncompressedSize : Z;
  lfh_fileName : string;
  lfh_extraField : list byte
}.

(** What [open] returns: the stream of a [Blob] holding a copy of the
    entry's bytes, as it is or piped through the platform's
    [DecompressionStream("deflate-raw")]. *)
Inductive Stream : Type :=
| RawStream (bytes : list byte)
| DeflateRawStream (bytes : list byte).

(** [ZipEntry]: the name and the [open] closure, which captures the
    directory entry it was made from (and the reader, which is the state
    of the monad). *)
Record ZipEntry : Type := { name : string; captured : CentralDirectoryEntry }.

(** [const records: Record<string, ZipEntry> = {}], an object used as a
    map.  An assignment [records[k] = v] creates or replaces the own
    property [k], except for the key [__proto__]: there it runs the setter
    inherited from [Object.prototype] and [v] becomes the prototype of
    [records]; reading [records["__proto__"]] gives that prototype back.
    [own] is the properties the object has of its own, which
    [Object.keys], [Object.values] and [hasOwnProperty] go by.  [get] is
    what [records[k]] evaluates to at a key that was assigned.  At a key
    that never was, the read falls through to the prototypes (the members
    of [Object.prototype] such as [toString] and [constructor], and
    [name] and [open] of an entry that became the prototype) and is not
    [undefined]; such a member is not an entry, and [None] there says no
    more than that.  The statements use [get] at assigned keys and [own]
    for what the object lacks. *)
Record Records : Type := { own : gmap string ZipEntry; proto : option ZipEntry }.

Definition empty_object : Records := {| own := ∅; proto := None |}.

Definition is_proto_key (k : string) : bool := String.eqb k "__proto__".

Definition assign (records : Records) (k : string) (v : ZipEntry) : Records :=
  if is_proto_key k
  then {| own := own records; proto := Some v |}
  else {| own := <[k := v]> (own records); proto := proto records |}.

Definition get (records : Records) (k : string) : option ZipEntry :=
  if is_proto_key k then proto records else own records !! k.

Section Zip.

(** [new TextDecoder().decode(bytes)], the platform's UTF-8 decoder. *)
Variable decode : list byte -> string.

Definition readString (n : Z) : M Reader.t string :=
  let* bytes := Reader.readBytes n in
  ret (decode bytes).

Definition readEndOfCentralDirectoryRecord
  : M Reader.t EndOfCentralDirectoryRecord :=
  let* sig := Reader.readU4 in
  if negb (sig =? 0x06054b50) then throw NotImplemented else
  let* numberOfThisDisk := Reader.readU2 in
  let* numberOfTheDiskWithTheStartOfTheCentralDirectory := Reader.readU2 in
  let* totalNumberOfEntriesInTheCentralDirectoryOnThisDisk := Reader.readU2 in
  let* totalNumberOfEntriesInTheCentralDirectory := Reader.readU2 in
  let* sizeOfTheCentralDirectory := Reader.readU4 in
  let* offsetOfStartOfCentralDirectoryWithRespectToTheStartingDiskNumber :=
    Reader.readU4 in
  let* dotZipFileCommentLength := Reader.readU2 in
  if negb (dotZipFileCommentLength =? 0) then throw NotImplemented else
  ret {| numberOfThisDisk := numberOfThisDisk;
         numberOfTheDiskWithTheStartOfTheCentralDirectory :=
           numberOfTheDiskWithTheStartOfTheCentralDirectory;
         totalNumberOfEntriesInTheCentralDirectoryOnThisDisk :=
           totalNumberOfEntriesInTheCentralDirectoryOnThisDisk;
         totalNumberOfEntriesInTheCentralDirectory :=
           totalNumberOfEntriesInTheCentralDirectory;
         sizeOfTheCentralDirectory := sizeOfTheCentralDirectory;
         offsetOfStartOfCentralDirectoryWithRespectToTheStartingDiskNumber :=
           offsetOfStartOfCentralDirectoryWithRespectToTheStartingDiskNumber;
         dotZipFileCommentLength := dotZipFileCommentLength |}.

Definition readCentralDirectoryEntry : M Reader.t CentralDirectoryEntry :=
  let* sig := Reader.readU4 in
  if negb (sig =? 0x02014b50) then throw SignatureMismatch else
  let* versionMadeBy := Reader.readU2 in
  let* versionNeededToExtract := Reader.readU2 in
  let* generalPurposeBitFlag := Reader.readU2 in
  let* compressionMethod := Reader.readU2 in
  let* lastModFileTime := Reader.readU2 in
  let* lastModFileDate := Reader.readU2 in
  let* crc32 := Reader.readU4 in
  let* compressedSize := Reader.readU4 in
  let* uncompressedSize := Reader.readU4 in
  let* fileNameLength := Reader.readU2 in
  let* extraFieldLength := Reader.readU2 in
  let* fileCommentLength := Reader.readU2 in
  let* diskNumberStart := Reader.readU2 in
  let* internalFileAttributes := Reader.readU2 in
  let* externalFileAttributes := Reader.readU4 in
  let* relativeOffsetOfLocalHeader := Reader.readU4 in
  let* fileName := readString fileNameLength in
  let* extraField := Reader.readBytes extraFieldLength in
  let* fileComment := Reader.readBytes fileCommentLength in
  ret {| versionMadeBy := versionMadeBy;
         versionNeededToExtract := versionNeededToExtract;
         generalPurposeBitFlag := generalPurposeBitFlag;
         compressionMethod := compressionMethod;
         lastModFileTime := lastModFileTime;
         lastModFileDate := lastModFileDate;
         crc32 := crc32;
         compressedSize := compressedSize;
         uncompressedSize := uncompressedSize;
         diskNumberStart := diskNumberStart;
         internalFileAttributes := internalFileAttributes;
         externalFileAttributes := externalFileAttributes;
         relativeOffsetOfLocalHeader := relativeOffsetOfLocalHeader;
         fileName := fileName;
         extraField := extraField;
         fileComment := fileComment |}.

Definition readLocalFileHeader : M Reader.t LocalFileHeader :=
  let* sig := Reader.readU4 in
  if negb (sig =? 0x04034b50) then throw SignatureMismatch else
  let* versionNeededToExtract := Reader.readU2 in
  let* generalPurposeBitFlag := Reader.readU2 in
  let* compressionMethod := Reader.readU2 in
  let* lastModFileTime := Reader.readU2 in
  let* lastModFileDate := Reader.readU2 in
  let* crc32 := Reader.readU4 in
  let* compressedSize := Reader.readU4 in
  let* uncompressedSize := Reader.readU4 in
  let* fileNameLength := Reader.readU2 in
  let* extraFieldLength := Reader.readU2 in
  let* fileName := readString fileNameLength in
  let* extraField := Reader.readBytes extraFieldLength in
  ret {| lfh_versionNeededToExtract := versionNeededToExtract;
         lfh_generalPurposeBitFlag := generalPurposeBitFlag;
         lfh_compressionMethod := compressionMethod;
         lfh_lastModFileTime := lastModFileTime;
         lfh_lastModFileDate := lastModFileDate;
         lfh_crc32 := crc32;
         lfh_compressedSize := compressedSize;
         lfh_uncompressedSize := uncompressedSize;
         lfh_fileName := fileName;
         lfh_extraField := extraField |}.

(** The [open] closure of the entry made from [cde]. *)
Definition open (cde : CentralDirectoryEntry) : M Reader.t Stream :=
  Reader.seek (relativeOffsetOfLocalHeader cde) ;;;
  readLocalFileHeader ;;;
  let* bytes := Reader.readBytes (compressedSize cde) in
  let rawStream := RawStream bytes in
  if compressionMethod cde =? 0 then ret rawStream
  else if compressionMethod cde =? 8 then ret (DeflateRawStream bytes)
  else throw (NotSupported (compressionMethod cde)).

Definition entry_of (cde : CentralDirectoryEntry) : ZipEntry :=
  {| name := fileName cde; captured := cde |}.

(** The [for] loop of [unzip], by the number of iterations left. *)
Fixpoint unzip_loop (n : nat) (records : Records) : M Reader.t Records :=
  match n with
  | O => ret records
  | S n' =>
      let* cde := readCentralDirectoryEntry in
      unzip_loop n' (assign records (fileName cde) (entry_of cde))
  end.

(** [unzip], from the bytes of the blob: the catalog (or the exception)
    and the reader the catalog's closures share. *)
Definition unzip (buf : list byte) : Result Records * Reader.t :=
  (Reader.seek (-22) ;;;
   let* eocd := readEndOfCentralDirectoryRecord in
   let records := empty_object in
   Reader.seek
     (offsetOfStartOfCentralDirectoryWithRespectToTheStartingDiskNumber eocd) ;;;
   unzip_loop
     (Z.to_nat (totalNumberOfEntriesInTheCentralDirectoryOnThisDisk eocd))
     records)
    (Reader.new buf).

End Zip.

(** ** The class files of a jar: [unjar] *)

(** [s.endsWith(search)] and [s.slice(start, end)] of a string, by its
    units: a negative index of [slice] counts from the end, and both
    indices are clamped to the string. *)
Definition endsWith (s search : string) : bool :=
  let start := Z.of_nat (String.length s) - Z.of_nat (String.length search) in
  if start <? 0 then false
  else String.eqb
         (String.substring (Z.to_nat start) (String.length search) s) search.

Definition string_slice (s : string) (start end_ : Z) : string :=
  let len := Z.of_nat (String.length s) in
  let from := if start <? 0 then Z.max (len + start) 0 else Z.min start len in
  let to := if end_ <? 0 then Z.max (len + end_) 0 else Z.min end_ len in
  String.substring (Z.to_nat from) (Z.to_nat (Z.max (to - from) 0)) s.

(** [JarEntry]: the logical name and the [parse] closure, which captures
    the zip entry it opens. *)
Record JarEntry : Type := { jar_name : string; opens : ZipEntry }.

(** [const result: Record<string, JarEntry> = {}], an object used as a
    map like [records] of [unzip], with the same treatment of the key
    [__proto__]: [jar_own] is the properties it has of its own, and
    [jar_get] is what [result[k]] evaluates to at a key that was
    assigned. *)
Record Jar : Type := { jar_own : gmap string JarEntry; jar_proto : option JarEntry }.

Definition empty_jar : Jar := {| jar_own := ∅; jar_proto := None |}.

Definition jar_assign (result : Jar) (k : string) (v : JarEntry) : Jar :=
  if is_proto_key k
  then {| jar_own := jar_own result; jar_proto := Some v |}
  else {| jar_own := <[k := v]> (jar_own result); jar_proto := jar_proto result |}.

Definition jar_get (result : Jar) (k : string) : option JarEntry :=
  if is_proto_key k then jar_proto result else jar_own result !! k.

(** One iteration of the [for] loop of [unjar]. *)
Definition unjar_step (result : Jar) (entry : ZipEntry) : Jar :=
  if negb (endsWith (name entry) ".class") then result
  else
    let name := string_slice (name entry) 0 (- Z.of_nat (String.length ".class")) in
    jar_assign result name {| jar_name := name; opens := entry |}.

Section Jar.

Variable decode : list byte -> string.

(** [Object.values(zip)], the platform's listing of the values of the
    own properties of an object; about its order nothing is assumed. *)
Variable Object_values : Records -> list ZipEntry.

Definition unjar (buf : list byte) : Result Jar * Reader.t :=
  match unzip decode buf with
  | (Ok zip, r) => (Ok (fold_left unjar_step (Object_values zip) empty_jar), r)
  | (Throw e, r) => (Throw e, r)
  end.

End Jar.

(** ** The WASI import object: [wasip1] *)

(** The buffer with [bytes] written over it from [off]. *)
Definition store (data : list byte) (off : Z) (bytes : list byte) : list byte :=
  take (Z.to_nat off) data ++ bytes
    ++ drop (Z.to_nat off + length bytes)%nat data.

Definition le32 (v : Z) : list byte :=
  let v := v mod 4294967296 in
  [byte_of_Z v; byte_of_Z (v / 256); byte_of_Z (v / 65536);
   byte_of_Z (v / 16777216)].

(** [view.setUint32(off, v, true)]: the value modulo 2^32, little-endian;
    [RangeError] outside the buffer. *)
Definition setUint32 (data : list byte) (off v : Z) : Result (list byte) :=
  if in_bounds data off 4 then Ok (store data off (le32 v))
  else Throw RangeError.

(** [b.slice(n)] of a [Uint8Array]: a copy from the relative index [n],
    counted from the end when negative, clamped to the array. *)
Definition slice (b : list byte) (n : Z) : list byte :=
  let len := byteLength b in
  let from := if n <? 0 then Z.max (len + n) 0 else Z.min n len in
  drop (Z.to_nat from) b.

(** A typed array stores inside its window only: [b[i] = x] with [i]
    outside is ignored, which is what the list update does. *)
Definition apply_stores (b : list byte) (stores : list (nat * byte)) : list byte :=
  fold_left (fun acc s => <[fst s := snd s]> acc) stores b.

(** One invocation of a bound callback, kept in a log the code does not
    read: the descriptor it serves, the bytes offered and the count
    returned. *)
Record Call : Type := { channel : Z; offered : list byte; returned : Z }.

Definition accepted (c : Call) : list byte :=
  take (Z.to_nat (returned c)) (offered c).

Section Bridge.

(** The state the bound callbacks close over. *)
Variable Env : Type.

(** [type Read] and [type Write], [(buf: Uint8Array) => number].  A
    provider is given the bytes of the window and answers with a count
    and the stores it made into the window; a consumer reads the bytes
    offered and answers with a count (the consumers [parse] binds only
    read what they are offered).  Either may throw. *)
Definition Read : Type := list byte -> M Env (Z * list (nat * byte)).
Definition Write : Type := list byte -> M Env Z.

(** The variables [wasip1] closes over, the environment of the
    callbacks and the log of their invocations. *)
Record Wasi : Type := {
  memory : option (list byte);
  stdin : Read;
  stdout : Write;
  stderr : Write;
  env : Env;
  calls : list Call
}.

(** The closure state [wasip1()] starts from. *)
Definition wasip1 (e : Env) : Wasi :=
  {| memory := None;
     stdin := fun _ => throw (NotSet "stdin");
     stdout := fun _ => throw (NotSet "stdout");
     stderr := fun _ => throw (NotSet "stderr");
     env := e;
     calls := [] |}.

(** [ctrl.initialize] and [ctrl.setup]. *)
Definition initialize (_memory : list byte) (w : Wasi) : Wasi :=
  {| memory := Some _memory; stdin := stdin w; stdout := stdout w;
     stderr := stderr w; env := env w; calls := calls w |}.

Definition setup (_stdin : Read) (_stdout _stderr : Write) (w : Wasi) : Wasi :=
  {| memory := memory w; stdin := _stdin; stdout := _stdout;
     stderr := _stderr; env := env w; calls := calls w |}.

Definition set_memory (w : Wasi) (m : list byte) : Wasi :=
  {| memory := Some m; stdin := stdin w; stdout := stdout w;
     stderr := stderr w; env := env w; calls := calls w |}.

Definition after_call (w : Wasi) (e : Env) (c : Call) : Wasi :=
  {| memory := memory w; stdin := stdin w; stdout := stdout w;
     stderr := stderr w; env := e; calls := calls w ++ [c] |}.

Definition assertsItIsMemory : M Wasi (list byte) := fun w =>
  match memory w with
  | Some m => (Ok m, w)
  | None => (Throw MemoryNotSet, w)
  end.

(** Reads and writes through [new DataView(memory.buffer)] and
    [new Uint8Array(memory.buffer, buf, len)]; they see the memory as it
    is when they run. *)
Definition lift {A} (f : list byte -> Result A) : M Wasi A := fun w =>
  match memory w with
  | Some m => (f m, w)
  | None => (Throw MemoryNotSet, w)
  end.

Definition view_getUint32 (off : Z) : M Wasi Z :=
  lift (fun m => getUint32 m off).

Definition new_Uint8Array (buf len : Z) : M Wasi (list byte) :=
  lift (fun m => subarray m buf len).

Definition view_setUint32 (off v : Z) : M Wasi unit := fun w =>
  match memory w with
  | Some m =>
      match setUint32 m off v with
      | Ok m' => (Ok tt, set_memory w m')
      | Throw e => (Throw e, w)
      end
  | None => (Throw MemoryNotSet, w)
  end.

(** [stdin(b)] with [b] the window of [len] bytes at [buf]: the stores
    of the provider land in the memory under the window. *)
Definition call_stdin (buf : Z) (b : list byte) : M Wasi Z := fun w =>
  match stdin w b (env w) with
  | (Ok (n, stores), e') =>
      let w' := after_call w e' {| channel := 0; offered := b; returned := n |} in
      match memory w with
      | Some m => (Ok n, set_memory w' (store m buf (apply_stores b stores)))
      | None => (Ok n, w')
      end
  | (Throw err, e') =>
      (Throw err,
       {| memory := memory w; stdin := stdin w; stdout := stdout w;
          stderr := stderr w; env := e'; calls := calls w |})
  end.

(** [w(b)] for the consumer bound to descriptor [fd]. *)
Definition call_write (fd : Z) (wr : Write) (b : list byte) : M Wasi Z := fun w =>
  match wr b (env w) with
  | (Ok n, e') =>
      (Ok n, after_call w e' {| channel := fd; offered := b; returned := n |})
  | (Throw err, e') =>
      (Throw err,
       {| memory := memory w; stdin := stdin w; stdout := stdout w;
          stderr := stderr w; env := e'; calls := calls w |})
  end.

Definition fd_read (fd iovsptr iovslen readptr : Z) : M Wasi Z :=
  assertsItIsMemory ;;;
  if negb (fd =? 0) then ret 8 else
  let nread := 0 in
  let i := 0 in
  let* nread :=
    (if i <? iovslen then
       let* buf := view_getUint32 (iovsptr + (i * 8) + 0) in
       let* len := view_getUint32 (iovsptr + (i * 8) + 4) in
       let* b := new_Uint8Array buf len in
       let* n := call_stdin buf b in
       ret (nread + n)
     else ret nread) in
  view_setUint32 readptr nread ;;;
  ret 0.

(** The [while (b.length > 0)] loop of [fd_write].  Nothing in the code
    bounds its iterations, so the model counts them down from [fuel];
    [None] says the loop is still running when the fuel is spent. *)
Fixpoint write_all (fuel : nat) (fd : Z) (wr : Write) (b : list byte)
    (written : Z) (w : Wasi) : option (Result Z * Wasi) :=
  match fuel with
  | O => None
  | S fuel' =>
      if byteLength b >? 0 then
        match call_write fd wr b w with
        | (Ok n, w') => write_all fuel' fd wr (slice b n) (written + n) w'
        | (Throw e, w') => Some (Throw e, w')
        end
      else Some (Ok written, w)
  end.

(** The [for] loop of [fd_write], by the number of vectors left. *)
Fixpoint write_vectors (fuel : nat) (fd : Z) (wr : Write) (ciovsptr : Z)
    (left : nat) (i : Z) (written : Z) (w : Wasi)
    : option (Result Z * Wasi) :=
  match left with
  | O => Some (Ok written, w)
  | S left' =>
      match (let* buf := view_getUint32 (ciovsptr + (i * 8) + 0) in
             let* len := view_getUint32 (ciovsptr + (i * 8) + 4) in
             new_Uint8Array buf len) w with
      | (Ok b, w1) =>
          match write_all fuel fd wr b written w1 with
          | Some (Ok written', w2) =>
              write_vectors fuel fd wr ciovsptr left' (i + 1) written' w2
          | other => other
          end
      | (Throw e, w1) => Some (Throw e, w1)
      end
  end.

Definition fd_write (fuel : nat) (fd ciovsptr ciovslen writtenptr : Z)
    (w : Wasi) : option (Result Z * Wasi) :=
  match assertsItIsMemory w with
  | (Throw e, w0) => Some (Throw e, w0)
  | (Ok _, w0) =>
      match (if fd =? 1 then Some (stdout w0)
             else if fd =? 2 then Some (stderr w0)
             else None) with
      | None => Some (Ok 8, w0)
      | Some wr =>
          match write_vectors fuel fd wr ciovsptr (Z.to_nat ciovslen) 0 0 w0 with
          | Some (Ok written, w1) =>
              Some ((view_setUint32 writtenptr written ;;; ret 0) w1)
          | other => other
          end
      end
  end.

End Bridge.

Arguments memory {Env} _.
Arguments stdin {Env} _.
Arguments stdout {Env} _.
Arguments stderr {Env} _.
Arguments env {Env} _.
Arguments calls {Env} _.
Arguments wasip1 {Env} e.
Arguments initialize {Env} _memory w.
Arguments setup {Env} _stdin _stdout _stderr w.
Arguments fd_read {Env} fd iovsptr iovslen readptr _.
Arguments fd_write {Env} fuel fd ciovsptr ciovslen writtenptr w.
Arguments write_all {Env} fuel fd wr b written w.
Arguments write_vectors {Env} fuel fd wr ciovsptr left i written w.

(** The other three imports.  [environ_get] and [proc_exit] (which logs
    its arguments) do not look at the memory. *)
Definition environ_get {Env} : M (Wasi Env) Z := ret 52.

Definition environ_sizes_get {Env} (environcptr environbufptr : Z)
  : M (Wasi Env) Z :=
  assertsItIsMemory Env ;;;
  view_setUint32 Env environcptr 0 ;;;
  view_setUint32 Env environbufptr 0 ;;;
  ret 0.

Definition proc_exit {Env} : M (Wasi Env) Z := ret 0.

(** ** The callbacks [parse] binds *)

(** What the callbacks of [parse] close over: the input not yet supplied
    and the chunks written to the output so far. *)
Record ParseEnv : Type := { input : list byte; output : list (list byte) }.

Definition indexed (bytes : list byte) : list (nat * byte) :=
  combine (seq 0 (length bytes)) bytes.

(** [stdin]: copy as much of the input as the window takes. *)
Definition parse_stdin : Read ParseEnv := fun buf e =>
  let n := Z.min (byteLength buf) (byteLength (input e)) in
  (Ok (n, indexed (take (Z.to_nat n) (input e))),
   {| input := slice (input e) n; output := output e |}).

(** [stdout]: keep a copy of the chunk, accept all of it. *)
Definition parse_stdout : Write ParseEnv := fun buf e =>
  (Ok (byteLength buf), {| input := input e; output := output e ++ [buf] |}).

(** [stderr]: log the chunk, accept all of it. *)
Definition parse_stderr : Write ParseEnv := fun buf e =>
  (Ok (byteLength buf), e).

(** ** Sample archives and memories *)

Module Sample.

Definition le16 (v : Z) : list byte := [byte_of_Z v; byte_of_Z (v / 256)].

(** A decoder that agrees with UTF-8 on the ASCII names used here. *)
Definition ascii_decode (bytes : list byte) : string :=
  String.string_of_list_byte bytes.

Definition ascii (s : string) : list byte := String.list_byte_of_string s.

(** A local file header followed by the entry's bytes. *)
Definition local_file (method : Z) (nm : string) (data : list byte) : list byte :=
  le32 0x04034b50 ++ le16 20 ++ le16 0 ++ le16 method ++ le16 0 ++ le16 0
    ++ le32 0 ++ le32 (byteLength data) ++ le32 (byteLength data)
    ++ le16 (byteLength (ascii nm)) ++ le16 0 ++ ascii nm ++ data.

Definition central_entry (method : Z) (nm : string) (size offset : Z) : list byte :=
  le32 0x02014b50 ++ le16 20 ++ le16 20 ++ le16 0 ++ le16 method
    ++ le16 0 ++ le16 0 ++ le32 0 ++ le32 size ++ le32 size
    ++ le16 (byteLength (ascii nm)) ++ le16 0 ++ le16 0 ++ le16 0 ++ le16 0
    ++ le32 0 ++ le32 offset ++ ascii nm.

Definition trailer (count size offset : Z) : list byte :=
  le32 0x06054b50 ++ le16 0 ++ le16 0 ++ le16 count ++ le16 count
    ++ le32 size ++ le32 offset ++ le16 0.

(** Three entries: [a] stored, [b] with the unsupported method 99, and
    a second [a], deflated. *)
Definition file1 : list byte := local_file 0 "a" (ascii "hi").
Definition file2 : list byte := local_file 99 "b" (ascii "x").
Definition file3 : list byte := local_file 8 "a" (ascii "zz").
Definition directory : list byte :=
  central_entry 0 "a" 2 0
    ++ central_entry 99 "b" 1 (byteLength file1)
    ++ central_entry 8 "a" 2 (byteLength (file1 ++ file2)).
Definition archive : list byte :=
  file1 ++ file2 ++ file3 ++ directory
    ++ trailer 3 (byteLength directory) (byteLength (file1 ++ file2 ++ file3)).

(** The same archive cut short: the directory no longer fits. *)
Definition truncated : list byte :=
  file1 ++ trailer 3 (byteLength directory) (byteLength file1).

(** The first entry alone, in an archive whose trailer states a
    directory of 4000000 bytes; the whole archive has 102. *)
Definition overstated : list byte :=
  file1 ++ central_entry 0 "a" 2 0 ++ trailer 1 4000000 (byteLength file1).

(** The directory entries of [archive], as [unzip] decodes them. *)
Definition entry (method : Z) (nm : string) (size offset : Z)
  : CentralDirectoryEntry :=
  {| versionMadeBy := 20; versionNeededToExtract := 20;
     generalPurposeBitFlag := 0; compressionMethod := method;
     lastModFileTime := 0; lastModFileDate := 0; crc32 := 0;
     compressedSize := size; uncompressedSize := size;
     diskNumberStart := 0; internalFileAttributes := 0;
     externalFileAttributes := 0; relativeOffsetOfLocalHeader := offset;
     fileName := nm; extraField := []; fileComment := [] |}.

Definition stored_entry : CentralDirectoryEntry := entry 0 "a" 2 0.
Definition unsupported_entry : CentralDirectoryEntry := entry 99 "b" 1 33.
Definition deflated_entry : CentralDirectoryEntry := entry 8 "a" 2 65.

(** What [unzip] gives for [archive]. *)
Definition catalog : Records :=
  match fst (unzip ascii_decode archive) with
  | Ok records => records
  | Throw _ => empty_object
  end.

Definition reader : Reader.t := snd (unzip ascii_decode archive).

(** A memory of 32 bytes: two vectors at address 0, the windows of four
    bytes at 16 and at 20; the result location is the last four bytes. *)
Definition memory32 : list byte :=
  le32 16 ++ le32 4 ++ le32 20 ++ le32 4 ++ ascii "wxyzWXYZ" ++ repeat x00 8.

(** The callbacks of [parse] bound to that memory, with six bytes of
    input left. *)
Definition session : Wasi ParseEnv :=
  setup parse_stdin parse_stdout parse_stderr
    (initialize memory32 (wasip1 {| input := ascii "abcdef"; output := [] |})).

(** A consumer that never takes a byte, bound to both outputs. *)
Definition refuse : Write ParseEnv := fun _ e => (Ok 0, e).

Definition stuck : Wasi ParseEnv := setup parse_stdin refuse refuse session.

(** A trailer alone, as the last 22 bytes, that announces a comment of
    one byte. *)
Definition commented : list byte :=
  le32 0x06054b50 ++ le16 0 ++ le16 0 ++ le16 0 ++ le16 0
    ++ le32 0 ++ le32 0 ++ le16 1.

(** The sample session after [fd_write] of its two vectors to
    descriptor 1. *)
Definition written : Wasi ParseEnv :=
  match fd_write 100 1 0 2 28 session with
  | Some (_, w') => w'
  | None => session
  end.

(** The sample session after [fd_write] of its two vectors with a result
    location outside the memory. *)
Definition unwritten : Wasi ParseEnv :=
  match fd_write 100 1 0 2 40 session with
  | Some (_, w') => w'
  | None => session
  end.

(** An archive without entries: the trailer alone. *)
Definition empty_archive : list byte := trailer 0 0 0.

(** A jar of three entries: a class file, a manifest, and a second
    class file. *)
Definition class1 : list byte := local_file 0 "A.class" (ascii "one").
Definition manifest : list byte := local_file 0 "MANIFEST.MF" (ascii "m").
Definition class2 : list byte := local_file 8 "p/B.class" (ascii "two").
Definition jar_directory : list byte :=
  central_entry 0 "A.class" 3 0
    ++ central_entry 0 "MANIFEST.MF" 1 (byteLength class1)
    ++ central_entry 8 "p/B.class" 3 (byteLength (class1 ++ manifest)).
Definition jar : list byte :=
  class1 ++ manifest ++ class2 ++ jar_directory
    ++ trailer 3 (byteLength jar_directory)
         (byteLength (class1 ++ manifest ++ class2)).

(** A listing of the values of the own properties. *)
Definition values (records : Records) : list ZipEntry :=
  (map_to_list (own records)).*2.

End Sample.


(** ** Notions the statements use *)

(** The exceptions of the cursor and of the record decoders: the ones
    opening an archive can end in. *)
Definition parse_error (e : Error) : Prop :=
  match e with
  | SeekNegative _ | SeekPastEnd _ | ReadPastEnd _ _ _
  | NotImplemented | SignatureMismatch => True
  | _ => False
  end.

(** The invariant of a [Reader]: the position is inside the buffer or at
    its end.  [new Reader] establishes it and every method keeps it. *)
Definition wf (r : Reader.t) : Prop := 0 <= Reader.pos r <= Reader.len r.

(** [safe m Q]: from a well-formed reader, [m] keeps the buffer and the
    invariant, throws nothing but a [parse_error] (so it never addresses
    the buffer outside its bounds), and when it returns, its value
    satisfies [Q]. *)
Definition safe {A} (m : M Reader.t A) (Q : A -> Prop) : Prop :=
  forall r, wf r ->
    match m r with
    | (Ok a, r') => Q a /\ wf r' /\ Reader.view r' = Reader.view r
    | (Throw e, r') => parse_error e /\ wf r' /\ Reader.view r' = Reader.view r
    end.

(** [advances c m Q]: [safe m Q], and when [m] returns, the position has
    moved forward by [c] or more. *)
Definition advances {A} (c : Z) (m : M Reader.t A) (Q : A -> Prop) : Prop :=
  forall r, wf r ->
    match m r with
    | (Ok a, r') =>
        Q a /\ Reader.pos r + c <= Reader.pos r' /\ wf r'
        /\ Reader.view r' = Reader.view r
    | (Throw e, r') =>
        parse_error e /\ wf r' /\ Reader.view r' = Reader.view r
    end.

Definition u16 (v : Z) : Prop := 0 <= v < 65536.
Definition u32 (v : Z) : Prop := 0 <= v < 4294967296.

(** The numbers of a directory entry are the unsigned values that were
    read. *)
Definition cde_ranges (cde : CentralDirectoryEntry) : Prop :=
  u16 (compressionMethod cde) /\ u32 (compressedSize cde)
  /\ u32 (relativeOffsetOfLocalHeader cde).

(** [iterates decode r es r']: from [r], decoding one central-directory
    entry after the other gives the entries [es], each behind its own
    signature, and leaves the reader at [r']. *)
Inductive iterates (decode : list byte -> string)
  : Reader.t -> list CentralDirectoryEntry -> Reader.t -> Prop :=
| iterates_nil r : iterates decode r [] r
| iterates_cons r cde r1 es r2 :
    getUint32 (Reader.view r) (Reader.pos r) = Ok 0x02014b50 ->
    readCentralDirectoryEntry decode r = (Ok cde, r1) ->
    iterates decode r1 es r2 ->
    iterates decode r (cde :: es) r2.

(** The catalog after assigning the entries of [es] in order. *)
Definition assign_all (records : Records) (es : list CentralDirectoryEntry) : Records :=
  fold_left (fun acc cde => assign acc (fileName cde) (entry_of cde)) es records.

(** [central_directory decode buf eocd es r]: the trailer of [buf] is the
    22 bytes at its end and decodes to [eocd]; from the offset it gives,
    which is inside the buffer, the entries [es] decode one after the
    other up to the reader [r], and they are as many as the trailer's
    this-disk count. *)
Definition central_directory (decode : list byte -> string) (buf : list byte)
    (eocd : EndOfCentralDirectoryRecord) (es : list CentralDirectoryEntry)
    (r : Reader.t) : Prop :=
  let r0 := Reader.new buf in
  let n := byteLength buf in
  22 <= n
  /\ readEndOfCentralDirectoryRecord (Reader.set_pos r0 (n - 22))
     = (Ok eocd, Reader.set_pos r0 n)
  /\ offsetOfStartOfCentralDirectoryWithRespectToTheStartingDiskNumber eocd <= n
  /\ iterates decode
       (Reader.set_pos r0
          (offsetOfStartOfCentralDirectoryWithRespectToTheStartingDiskNumber eocd))
       es r
  /\ Z.of_nat (length es)
     = totalNumberOfEntriesInTheCentralDirectoryOnThisDisk eocd.

(** The reader after the entries of [cdes] were opened one after the
    other, whatever each [open] gave. *)
Definition after_opens (decode : list byte -> string)
    (cdes : list CentralDirectoryEntry) (r : Reader.t) : Reader.t :=
  fold_left (fun r cde => snd (open decode cde r)) cdes r.

(** [keeps_view m]: [m] leaves the buffer of the reader as it is, from
    any reader and whatever it gives. *)
Definition keeps_view {A} (m : M Reader.t A) : Prop :=
  forall r, Reader.view (snd (m r)) = Reader.view r.

(** The bytes of an entry: the [size] bytes behind the local file header
    at [off] whose name and extra field are [nlen] and [xlen] bytes long. *)
Definition payload (buf : list byte) (off nlen xlen size : Z) : list byte :=
  take (Z.to_nat size) (drop (Z.to_nat (off + 30 + nlen + xlen)) buf).

(** [local_file_at buf cde nlen xlen]: the buffer has, at the offset the
    directory entry gives, the signature of a local file header with a
    name of [nlen] and an extra field of [xlen] bytes, and the header and
    the entry's compressed size fit in the buffer. *)
Definition local_file_at (buf : list byte) (cde : CentralDirectoryEntry)
    (nlen xlen : Z) : Prop :=
  let off := relativeOffsetOfLocalHeader cde in
  getUint32 buf off = Ok 0x04034b50
  /\ getUint16 buf (off + 26) = Ok nlen
  /\ getUint16 buf (off + 28) = Ok xlen
  /\ 0 <= compressedSize cde
  /\ off + 30 + nlen + xlen + compressedSize cde <= byteLength buf.

(** The vectors a call passes: [n] descriptors of eight bytes from
    [ptr], the [i]-th first, each the address and the length of a window
    of the memory. *)
Definition iovec (mem : list byte) (ptr : Z) (i : nat) : Z * Z :=
  (uint32_at mem (ptr + Z.of_nat i * 8 + 0),
   uint32_at mem (ptr + Z.of_nat i * 8 + 4)).

Definition iovecs (mem : list byte) (ptr : Z) (i n : nat) : list (Z * Z) :=
  map (iovec mem ptr) (seq i n).

Definition window (mem : list byte) (v : Z * Z) : list byte :=
  take (Z.to_nat (snd v)) (drop (Z.to_nat (fst v)) mem).

Definition total_length (vs : list (Z * Z)) : Z :=
  fold_right (fun v acc => snd v + acc) 0 vs.

(** A consumer that takes at least one and at most all of the bytes it
    is offered, and does not throw. *)
Definition takes_some {Env} (wr : Write Env) : Prop :=
  forall b e, b <> [] ->
    exists n e', wr b e = (Ok n, e') /\ 1 <= n <= byteLength b.

(** A state reached from [w] by invocations of the consumer bound to
    [fd]: the memory and the bindings are those of [w], and the log has
    grown by the calls [cs]. *)
Definition reached {Env} (fd : Z) (w : Wasi Env) (cs : list Call)
    (w' : Wasi Env) : Prop :=
  memory w' = memory w /\ stdin w' = stdin w /\ stdout w' = stdout w
  /\ stderr w' = stderr w /\ calls w' = calls w ++ cs
  /\ Forall (fun c => channel c = fd) cs.

(** *** The layout of the three records *)

(** The [n] bytes of the buffer from [off]. *)
Definition bytes_at (buf : list byte) (off n : Z) : list byte :=
  take (Z.to_nat n) (drop (Z.to_nat off) buf).

(** The end-of-central-directory record laid out at [p]. *)
Definition trailer_at (buf : list byte) (p : Z) : EndOfCentralDirectoryRecord :=
  {| numberOfThisDisk := uint16_at buf (p + 4);
     numberOfTheDiskWithTheStartOfTheCentralDirectory := uint16_at buf (p + 6);
     totalNumberOfEntriesInTheCentralDirectoryOnThisDisk := uint16_at buf (p + 8);
     totalNumberOfEntriesInTheCentralDirectory := uint16_at buf (p + 10);
     sizeOfTheCentralDirectory := uint32_at buf (p + 12);
     offsetOfStartOfCentralDirectoryWithRespectToTheStartingDiskNumber :=
       uint32_at buf (p + 16);
     dotZipFileCommentLength := uint16_at buf (p + 20) |}.

(** The central-directory entry laid out at [p], and its size. *)
Definition central_entry_at (decode : list byte -> string) (buf : list byte)
    (p : Z) : CentralDirectoryEntry :=
  let nlen := uint16_at buf (p + 28) in
  let xlen := uint16_at buf (p + 30) in
  let clen := uint16_at buf (p + 32) in
  {| versionMadeBy := uint16_at buf (p + 4);
     versionNeededToExtract := uint16_at buf (p + 6);
     generalPurposeBitFlag := uint16_at buf (p + 8);
     compressionMethod := uint16_at buf (p + 10);
     lastModFileTime := uint16_at buf (p + 12);
     lastModFileDate := uint16_at buf (p + 14);
     crc32 := uint32_at buf (p + 16);
     compressedSize := uint32_at buf (p + 20);
     uncompressedSize := uint32_at buf (p + 24);
     diskNumberStart := uint16_at buf (p + 34);
     internalFileAttributes := uint16_at buf (p + 36);
     externalFileAttributes := uint32_at buf (p + 38);
     relativeOffsetOfLocalHeader := uint32_at buf (p + 42);
     fileName := decode (bytes_at buf (p + 46) nlen);
     extraField := bytes_at buf (p + 46 + nlen) xlen;
     fileComment := bytes_at buf (p + 46 + nlen + xlen) clen |}.

Definition central_entry_size (buf : list byte) (p : Z) : Z :=
  46 + uint16_at buf (p + 28) + uint16_at buf (p + 30) + uint16_at buf (p + 32).

(** The local file header laid out at [p], and its size. *)
Definition local_header_at (decode : list byte -> string) (buf : list byte)
    (p : Z) : LocalFileHeader :=
  let nlen := uint16_at buf (p + 26) in
  let xlen := uint16_at buf (p + 28) in
  {| lfh_versionNeededToExtract := uint16_at buf (p + 4);
     lfh_generalPurposeBitFlag := uint16_at buf (p + 6);
     lfh_compressionMethod := uint16_at buf (p + 8);
     lfh_lastModFileTime := uint16_at buf (p + 10);
     lfh_lastModFileDate := uint16_at buf (p + 12);
     lfh_crc32 := uint32_at buf (p + 14);
     lfh_compressedSize := uint32_at buf (p + 18);
     lfh_uncompressedSize := uint32_at buf (p + 22);
     lfh_fileName := decode (bytes_at buf (p + 30) nlen);
     lfh_extraField := bytes_at buf (p + 30 + nlen) xlen |}.

Definition local_header_size (buf : list byte) (p : Z) : Z :=
  30 + uint16_at buf (p + 26) + uint16_at buf (p + 28).

(** The central directory laid out from [p]: its [n] entries one behind
    the other, the position behind the last of them, and what it takes
    for them to be there: each has the signature and fits. *)
Fixpoint directory_at (decode : list byte -> string) (buf : list byte)
    (p : Z) (n : nat) : list CentralDirectoryEntry :=
  match n with
  | O => []
  | S n' =>
      central_entry_at decode buf p
        :: directory_at decode buf (p + central_entry_size buf p) n'
  end.

Fixpoint directory_end (buf : list byte) (p : Z) (n : nat) : Z :=
  match n with
  | O => p
  | S n' => directory_end buf (p + central_entry_size buf p) n'
  end.

Fixpoint directory_fits (buf : list byte) (p : Z) (n : nat) : Prop :=
  match n with
  | O => True
  | S n' =>
      getUint32 buf p = Ok 0x02014b50
      /\ p + central_entry_size buf p <= byteLength buf
      /\ directory_fits buf (p + central_entry_size buf p) n'
  end.

(** The sum of the counts the consumer returned over the calls [cs]. *)
Definition sum_returned (cs : list Call) : Z :=
  fold_right (fun c acc => returned c + acc) 0 cs.

(** The chunks [stdout] of [parse] keeps for the windows [bs]: the ones
    that are not empty. *)
Definition chunks (bs : list (list byte)) : list (list byte) :=
  List.filter (fun b => negb (byteLength b =? 0)) bs.

(** The environment after a consumer that takes everything was offered
    the windows [bs]: [step] is what one invocation does to it. *)
Definition offered_all (step : list byte -> ParseEnv -> ParseEnv)
    (bs : list (list byte)) (e : ParseEnv) : ParseEnv :=
  fold_left (fun e b => step b e) (chunks bs) e.

(** [Object.values] lists the value of every own property once. *)
Definition lists_own_values (Object_values : Records -> list ZipEntry) : Prop :=
  forall records, Object_values records ≡ₚ (map_to_list (own records)).*2.

(** The name of the class file of the logical name [n]. *)
Definition class_file (n : string) : string := String.append n ".class".

(** ** The cursor *)

Lemma u8_range b : 0 <= u8 b < 256.
Proof.
  unfold u8. pose proof (Byte.to_N_bounded b). lia.
Qed.

Lemma at_index_range data i : 0 <= at_index data i < 256.
Proof. apply u8_range. Qed.

Lemma getUint16_ok data off :
  in_bounds data off 2 = true ->
  exists v, getUint16 data off = Ok v /\ u16 v.
Proof.
  intros Hb. unfold getUint16. rewrite Hb. eexists; split; [reflexivity|].
  pose proof (at_index_range data off).
  pose proof (at_index_range data (off + 1)).
  unfold u16, uint16_at. lia.
Qed.

Lemma getUint32_ok data off :
  in_bounds data off 4 = true ->
  exists v, getUint32 data off = Ok v /\ u32 v.
Proof.
  intros Hb. unfold getUint32. rewrite Hb. eexists; split; [reflexivity|].
  pose proof (at_index_range data off).
  pose proof (at_index_range data (off + 1)).
  pose proof (at_index_range data (off + 2)).
  pose proof (at_index_range data (off + 3)).
  unfold u32, uint32_at. lia.
Qed.

Lemma in_bounds_iff data off size :
  in_bounds data off size = true <->
  0 <= off /\ 0 <= size /\ off + size <= byteLength data.
Proof. unfold in_bounds. rewrite !andb_true_iff, !Z.leb_le. tauto. Qed.

Lemma byteLength_nonneg data : 0 <= byteLength data.
Proof. unfold byteLength. lia. Qed.

Lemma seek_spec p r :
  let q := if p <? 0 then Reader.len r + p else p in
  (q < 0 -> Reader.seek p r = (Throw (SeekNegative q), r))
  /\ (Reader.len r < q -> Reader.seek p r = (Throw (SeekPastEnd q), r))
  /\ (0 <= q <= Reader.len r -> Reader.seek p r = (Ok tt, Reader.set_pos r q)).
Proof.
  intros q. unfold Reader.seek. fold q.
  pose proof (byteLength_nonneg (Reader.view r)) as Hl. fold (Reader.len r) in Hl.
  repeat split; intros H.
  - destruct (Z.ltb_spec q 0); [reflexivity | lia].
  - destruct (Z.ltb_spec q 0); [lia|].
    destruct (Z.gtb_spec q (Reader.len r)); [reflexivity | lia].
  - destruct (Z.ltb_spec q 0); [lia|].
    destruct (Z.gtb_spec q (Reader.len r)); [lia | reflexivity].
Qed.

Lemma readU4_spec r :
  (Reader.len r < Reader.pos r + 4 ->
   Reader.readU4 r = (Throw (ReadPastEnd (Reader.pos r) 4 (Reader.len r)), r))
  /\ (0 <= Reader.pos r -> Reader.pos r + 4 <= Reader.len r ->
      exists v, getUint32 (Reader.view r) (Reader.pos r) = Ok v /\ u32 v
                /\ Reader.readU4 r = (Ok v, Reader.set_pos r (Reader.pos r + 4))).
Proof.
  unfold Reader.readU4. split.
  - intros H. destruct (Z.gtb_spec (Reader.pos r + 4) (Reader.len r)); [reflexivity | lia].
  - intros H0 H. destruct (Z.gtb_spec (Reader.pos r + 4) (Reader.len r)); [lia|].
    destruct (getUint32_ok (Reader.view r) (Reader.pos r)) as (v & Hv & Hr).
    { apply in_bounds_iff. unfold Reader.len in *. lia. }
    exists v. rewrite Hv. auto.
Qed.

Lemma readU2_spec r :
  (Reader.len r < Reader.pos r + 2 ->
   Reader.readU2 r = (Throw (ReadPastEnd (Reader.pos r) 2 (Reader.len r)), r))
  /\ (0 <= Reader.pos r -> Reader.pos r + 2 <= Reader.len r ->
      exists v, getUint16 (Reader.view r) (Reader.pos r) = Ok v /\ u16 v
                /\ Reader.readU2 r = (Ok v, Reader.set_pos r (Reader.pos r + 2))).
Proof.
  unfold Reader.readU2. split.
  - intros H. destruct (Z.gtb_spec (Reader.pos r + 2) (Reader.len r)); [reflexivity | lia].
  - intros H0 H. destruct (Z.gtb_spec (Reader.pos r + 2) (Reader.len r)); [lia|].
    destruct (getUint16_ok (Reader.view r) (Reader.pos r)) as (v & Hv & Hr).
    { apply in_bounds_iff. unfold Reader.len in *. lia. }
    exists v. rewrite Hv. auto.
Qed.

Lemma readBytes_spec n r :
  (Reader.len r < Reader.pos r + n ->
   Reader.readBytes n r = (Throw (ReadPastEnd (Reader.pos r) n (Reader.len r)), r))
  /\ (0 <= Reader.pos r -> 0 <= n -> Reader.pos r + n <= Reader.len r ->
      Reader.readBytes n r
      = (Ok (take (Z.to_nat n) (drop (Z.to_nat (Reader.pos r)) (Reader.view r))),
         Reader.set_pos r (Reader.pos r + n))).
Proof.
  unfold Reader.readBytes. split.
  - intros H. destruct (Z.gtb_spec (Reader.pos r + n) (Reader.len r)); [reflexivity | lia].
  - intros H0 Hn H. destruct (Z.gtb_spec (Reader.pos r + n) (Reader.len r)); [lia|].
    unfold subarray.
    replace (in_bounds (Reader.view r) (Reader.pos r) n) with true; [reflexivity|].
    symmetry. apply in_bounds_iff. unfold Reader.len in *. lia.
Qed.

Lemma wf_new data : wf (Reader.new data).
Proof. unfold wf, Reader.new, Reader.len; simpl. pose proof (byteLength_nonneg data). lia. Qed.

Lemma advances_ret {A} c (a : A) (Q : A -> Prop) :
  c <= 0 -> Q a -> advances c (ret a) Q.
Proof. intros Hc Ha r Hr. simpl. repeat split; auto; try apply Hr. lia. Qed.

Lemma advances_throw {A} c e (Q : A -> Prop) :
  parse_error e -> advances c (throw e) Q.
Proof. intros He r Hr. simpl. auto. Qed.

Lemma advances_bind {A B} a c (m : M Reader.t A) (k : A -> M Reader.t B) Q1 Q2 :
  advances a m Q1 ->
  (forall x, Q1 x -> advances (c - a) (k x) Q2) ->
  advances c (bind m k) Q2.
Proof.
  intros Hm Hk r Hr. unfold bind. specialize (Hm r Hr).
  destruct (m r) as [[x|e] r1].
  - destruct Hm as (Hx & Hp & Hw & Hv). specialize (Hk x Hx r1 Hw).
    destruct (k x r1) as [[y|e] r2].
    + destruct Hk as (Hy & Hp2 & Hw2 & Hv2). repeat split; auto; try apply Hw2.
      * lia.
      * congruence.
    + destruct Hk as (He & Hw2 & Hv2). repeat split; auto; try apply Hw2. congruence.
  - exact Hm.
Qed.

Lemma advances_readU4 : advances 4 Reader.readU4 u32.
Proof.
  intros r Hr. destruct (readU4_spec r) as [Hfail Hok].
  destruct (Z.lt_ge_cases (Reader.len r) (Reader.pos r + 4)) as [H|H].
  - rewrite (Hfail H). repeat split; try apply Hr.
  - destruct Hok as (v & _ & Hv & ->); [apply Hr | lia |].
    unfold wf, Reader.len in *; simpl. repeat split; auto; try apply Hv; lia.
Qed.

Lemma advances_readU2 : advances 2 Reader.readU2 u16.
Proof.
  intros r Hr. destruct (readU2_spec r) as [Hfail Hok].
  destruct (Z.lt_ge_cases (Reader.len r) (Reader.pos r + 2)) as [H|H].
  - rewrite (Hfail H). repeat split; try apply Hr.
  - destruct Hok as (v & _ & Hv & ->); [apply Hr | lia |].
    unfold wf, Reader.len in *; simpl. repeat split; auto; try apply Hv; lia.
Qed.

Lemma advances_readBytes n :
  0 <= n -> advances n (Reader.readBytes n) (fun b => byteLength b = n).
Proof.
  intros Hn r Hr. destruct (readBytes_spec n r) as [Hfail Hok].
  destruct (Z.lt_ge_cases (Reader.len r) (Reader.pos r + n)) as [H|H].
  - rewrite (Hfail H). repeat split; try apply Hr.
  - rewrite Hok; [| apply Hr | lia | lia].
    unfold wf, Reader.len, byteLength in *; simpl. repeat split; auto; try lia.
    rewrite length_take, length_drop. lia.
Qed.

Lemma advances_readString decode n :
  0 <= n -> advances n (readString decode n) (fun _ => True).
Proof.
  intros Hn. unfold readString.
  eapply advances_bind; [apply (advances_readBytes n Hn)|].
  intros b _. apply advances_ret; [lia | exact I].
Qed.

Lemma advances_weaken {A} c c' (m : M Reader.t A) (Q Q' : A -> Prop) :
  c' <= c -> (forall a, Q a -> Q' a) -> advances c m Q -> advances c' m Q'.
Proof.
  intros Hc HQ Hm r Hr. specialize (Hm r Hr).
  destruct (m r) as [[x|e] r1]; [|exact Hm].
  destruct Hm as (Hx & Hp & Hw). repeat split; auto; try apply Hw. lia.
Qed.

(** One step of a decoder: a fixed-width read, or a variable-length read
    whose length was read before. *)
Ltac advance :=
  first
    [ eapply advances_bind; [apply advances_readU4 | intros ? ?]
    | eapply advances_bind; [apply advances_readU2 | intros ? ?]
    | eapply advances_bind;
      [apply advances_readString;
       match goal with H : u16 _ |- _ => apply H end | intros ? ?]
    | eapply advances_bind;
      [apply advances_readBytes;
       match goal with H : u16 ?x |- 0 <= ?x => apply H end | intros ? ?]
    | match goal with
      | |- advances _ (if ?b then _ else _) _ =>
          destruct b; [apply advances_throw; exact I|]
      end ].

Section ZipFacts.

Variable decode : list byte -> string.

Lemma advances_readEndOfCentralDirectoryRecord :
  advances 22 readEndOfCentralDirectoryRecord
    (fun eocd =>
       u16 (totalNumberOfEntriesInTheCentralDirectoryOnThisDisk eocd)
       /\ u32 (offsetOfStartOfCentralDirectoryWithRespectToTheStartingDiskNumber eocd)).
Proof.
  unfold readEndOfCentralDirectoryRecord.
  repeat advance.
  apply advances_ret; [unfold u16, u32 in *; lia | simpl; auto].
Qed.

Lemma advances_readCentralDirectoryEntry :
  advances 46 (readCentralDirectoryEntry decode) cde_ranges.
Proof.
  unfold readCentralDirectoryEntry.
  repeat advance.
  apply advances_ret; [unfold u16, u32 in *; lia | unfold cde_ranges; simpl; auto].
Qed.

Lemma advances_readLocalFileHeader :
  advances 30 (readLocalFileHeader decode) (fun _ => True).
Proof.
  unfold readLocalFileHeader.
  repeat advance.
  apply advances_ret; [unfold u16, u32 in *; lia | exact I].
Qed.

End ZipFacts.

(** ** Inversion of successful runs *)

Lemma bind_ok {S A B} (m : M S A) (k : A -> M S B) s b s' :
  bind m k s = (Ok b, s') ->
  exists a s1, m s = (Ok a, s1) /\ k a s1 = (Ok b, s').
Proof.
  unfold bind. destruct (m s) as [[a|e] s1]; [eauto | discriminate].
Qed.

Lemma bind_then {S A B} (m : M S A) (k : A -> M S B) s a s1 :
  m s = (Ok a, s1) -> bind m k s = k a s1.
Proof. unfold bind. intros ->. reflexivity. Qed.

Lemma bind_throw {S A B} (m : M S A) (k : A -> M S B) s e s1 :
  m s = (Throw e, s1) -> bind m k s = (Throw e, s1).
Proof. unfold bind. intros ->. reflexivity. Qed.

Lemma reader_eq r r' :
  Reader.view r = Reader.view r' -> Reader.pos r = Reader.pos r' -> r = r'.
Proof. destruct r, r'; simpl; intros; subst; reflexivity. Qed.

Lemma seek_ok p r r' :
  Reader.seek p r = (Ok tt, r') ->
  let q := if p <? 0 then Reader.len r + p else p in
  0 <= q <= Reader.len r /\ r' = Reader.set_pos r q.
Proof.
  intros H q. destruct (seek_spec p r) as (Hneg & Hbig & Hok). fold q in Hneg, Hbig, Hok.
  destruct (Z.lt_ge_cases q 0) as [Hq|Hq]; [rewrite (Hneg Hq) in H; discriminate|].
  destruct (Z.lt_ge_cases (Reader.len r) q) as [Hq'|Hq']; [rewrite (Hbig Hq') in H; discriminate|].
  rewrite Hok in H by lia. split; [lia | congruence].
Qed.

Lemma readU4_ok r v r' :
  Reader.readU4 r = (Ok v, r') ->
  getUint32 (Reader.view r) (Reader.pos r) = Ok v
  /\ r' = Reader.set_pos r (Reader.pos r + 4).
Proof.
  unfold Reader.readU4.
  destruct (_ >? _); [discriminate|].
  destruct (getUint32 _ _); [|discriminate].
  intros [= -> <-]. auto.
Qed.

Section Directory.

Variable decode : list byte -> string.

Lemma readCentralDirectoryEntry_signature r cde r' :
  readCentralDirectoryEntry decode r = (Ok cde, r') ->
  getUint32 (Reader.view r) (Reader.pos r) = Ok 0x02014b50.
Proof.
  unfold readCentralDirectoryEntry. intros H.
  apply bind_ok in H as (sig & r1 & Hsig & H).
  apply readU4_ok in Hsig as [Hsig _].
  destruct (Z.eqb_spec sig 0x02014b50) as [->|]; [exact Hsig | discriminate].
Qed.

(** The loop of [unzip] returns exactly when it has decoded [n] entries
    one after the other, and then the catalog is what assigning them in
    order gives. *)
Lemma unzip_loop_iterates n : forall records r c r',
  unzip_loop decode n records r = (Ok c, r') <->
  exists es, iterates decode r es r' /\ length es = n
             /\ c = assign_all records es.
Proof.
  induction n as [|n IH]; intros records r c r'; simpl.
  - split.
    + intros [= <- <-]. exists []. repeat split. constructor.
    + intros (es & Hit & Hlen & ->). destruct es; [|discriminate].
      inversion Hit; subst. reflexivity.
  - split.
    + intros H. apply bind_ok in H as (cde & r1 & Hcde & H).
      apply IH in H as (es & Hit & Hlen & ->).
      exists (cde :: es). repeat split.
      * econstructor; eauto using readCentralDirectoryEntry_signature.
      * simpl. congruence.
    + intros (es & Hit & Hlen & ->). destruct es as [|cde es]; [discriminate|].
      inversion Hit; subst.
      erewrite bind_then by eassumption.
      apply IH. exists es. repeat split; auto.
Qed.

Lemma iterates_advances r es r' :
  wf r -> iterates decode r es r' ->
  wf r' /\ Reader.view r' = Reader.view r
  /\ Reader.pos r + 46 * Z.of_nat (length es) <= Reader.pos r'
  /\ Forall cde_ranges es.
Proof.
  intros Hr Hit. induction Hit as [r | r cde r1 es r2 Hsig Hcde Hit IH].
  - simpl. repeat split; auto; try apply Hr. lia.
  - pose proof (advances_readCentralDirectoryEntry decode r Hr) as Hadv.
    rewrite Hcde in Hadv. destruct Hadv as (Hq & Hp & Hw & Hv).
    destruct (IH Hw) as (Hw2 & Hv2 & Hp2 & Hall).
    repeat split; auto; try apply Hw2.
    + congruence.
    + simpl length. lia.
Qed.

End Directory.

(** ** Opening an archive *)

Lemma readEndOfCentralDirectoryRecord_signature r eocd r' :
  readEndOfCentralDirectoryRecord r = (Ok eocd, r') ->
  getUint32 (Reader.view r) (Reader.pos r) = Ok 0x06054b50.
Proof.
  unfold readEndOfCentralDirectoryRecord. intros H.
  apply bind_ok in H as (sig & r1 & Hsig & H).
  apply readU4_ok in Hsig as [Hsig _].
  destruct (Z.eqb_spec sig 0x06054b50) as [->|]; [exact Hsig | discriminate].
Qed.

Lemma readEndOfCentralDirectoryRecord_wrong_signature r :
  0 <= Reader.pos r -> Reader.pos r + 4 <= Reader.len r ->
  getUint32 (Reader.view r) (Reader.pos r) <> Ok 0x06054b50 ->
  readEndOfCentralDirectoryRecord r
  = (Throw NotImplemented, Reader.set_pos r (Reader.pos r + 4)).
Proof.
  intros H0 H4 Hsig. unfold readEndOfCentralDirectoryRecord.
  destruct (readU4_spec r) as [_ Hok].
  destruct (Hok H0 H4) as (v & Hv & _ & Hrd).
  rewrite (bind_then _ _ _ _ _ Hrd).
  destruct (Z.eqb_spec v 0x06054b50) as [->|]; [contradiction | reflexivity].
Qed.

Section Unzip.

Variable decode : list byte -> string.

Lemma unzip_short buf :
  byteLength buf < 22 ->
  unzip decode buf
  = (Throw (SeekNegative (byteLength buf - 22)), Reader.new buf).
Proof.
  intros Hn. unfold unzip. apply bind_throw.
  destruct (seek_spec (-22) (Reader.new buf)) as (Hneg & _).
  apply Hneg. unfold Reader.len; simpl. lia.
Qed.

Lemma seek_trailer buf :
  22 <= byteLength buf ->
  Reader.seek (-22) (Reader.new buf)
  = (Ok tt, Reader.set_pos (Reader.new buf) (byteLength buf - 22)).
Proof.
  intros Hn. destruct (seek_spec (-22) (Reader.new buf)) as (_ & _ & Hok).
  apply Hok. unfold Reader.len; simpl. lia.
Qed.

Lemma unzip_wrong_magic buf :
  22 <= byteLength buf ->
  getUint32 buf (byteLength buf - 22) <> Ok 0x06054b50 ->
  unzip decode buf
  = (Throw NotImplemented, Reader.set_pos (Reader.new buf) (byteLength buf - 18)).
Proof.
  intros Hn Hsig. unfold unzip.
  rewrite (bind_then _ _ _ _ _ (seek_trailer buf Hn)).
  apply bind_throw.
  rewrite readEndOfCentralDirectoryRecord_wrong_signature; simpl; auto; try lia.
  - do 2 f_equal. lia.
  - unfold Reader.len; simpl. lia.
Qed.

Lemma wf_at_trailer buf :
  22 <= byteLength buf ->
  wf (Reader.set_pos (Reader.new buf) (byteLength buf - 22)).
Proof. intros Hn. unfold wf, Reader.len; simpl. lia. Qed.

(** [unzip] returns exactly when the buffer has a central directory, and
    then with the catalog that assigning its entries in order gives. *)
Lemma unzip_ok_iff buf records r :
  unzip decode buf = (Ok records, r) <->
  exists eocd es,
    central_directory decode buf eocd es r
    /\ records = assign_all empty_object es.
Proof.
  set (r0 := Reader.new buf). set (n := byteLength buf).
  assert (Hlen : Reader.len r0 = n) by reflexivity.
  split.
  - intros H. unfold unzip in H. fold r0 in H.
    apply bind_ok in H as ([] & r1 & Hs & H).
    apply seek_ok in Hs as [Hq ->]. simpl in Hq. rewrite Hlen in Hq.
    simpl in H. rewrite Hlen in H.
    replace (n + -22) with (n - 22) in H by lia.
    apply bind_ok in H as (eocd & r2 & He & H).
    assert (Hn : 22 <= n) by lia.
    pose proof (advances_readEndOfCentralDirectoryRecord _ (wf_at_trailer buf Hn)) as Hadv.
    fold r0 n in Hadv.
    rewrite He in Hadv. destruct Hadv as ((Hcount & Hoff) & Hp & Hw2 & Hv2).
    assert (Hr2 : r2 = Reader.set_pos r0 n).
    { apply reader_eq; [exact Hv2|].
      unfold wf, Reader.len in Hw2. rewrite Hv2 in Hw2. simpl in *. fold n in Hw2. lia. }
    subst r2.
    apply bind_ok in H as ([] & r3 & Hs & H).
    apply seek_ok in Hs as [Hq3 ->].
    destruct (Z.ltb_spec
                (offsetOfStartOfCentralDirectoryWithRespectToTheStartingDiskNumber eocd) 0)
      as [Hneg|_]; [unfold u32 in Hoff; lia|].
    apply unzip_loop_iterates in H as (es & Hit & Hes & ->).
    exists eocd, es. split; [|reflexivity].
    unfold central_directory. fold r0 n. repeat split; auto; try lia.
    + apply Hq3.
    + rewrite Hes. unfold u16 in Hcount. lia.
  - intros (eocd & es & (Hn & He & Hoff & Hit & Hes) & ->).
    fold r0 n in Hn, He, Hoff, Hit, Hes.
    unfold unzip. fold r0.
    rewrite (bind_then _ _ _ _ _ (seek_trailer buf Hn)). fold r0 n.
    rewrite (bind_then _ _ _ _ _ He).
    pose proof (advances_readEndOfCentralDirectoryRecord _ (wf_at_trailer buf Hn)) as Hadv.
    fold r0 n in Hadv.
    rewrite He in Hadv. destruct Hadv as ((Hcount & Hoff') & _).
    destruct (seek_spec
                (offsetOfStartOfCentralDirectoryWithRespectToTheStartingDiskNumber eocd)
                (Reader.set_pos r0 n)) as (_ & _ & Hok).
    destruct (Z.ltb_spec
                (offsetOfStartOfCentralDirectoryWithRespectToTheStartingDiskNumber eocd) 0)
      as [Hneg|_]; [unfold u32 in Hoff'; lia|].
    rewrite (bind_then _ _ _ _ _
               (Hok ltac:(unfold Reader.len; simpl; fold n; unfold u32 in Hoff'; lia))).
    apply unzip_loop_iterates. exists es. repeat split; auto. lia.
Qed.

(** C1: for every archive buffer, [unzip] seeks to [length - 22]
    (failing when the buffer is shorter), fails when the four bytes
    there are not the end-of-directory magic, and when it returns, it
    has decoded the trailer there, moved to the directory offset the
    trailer gives and decoded, one after the other and each behind its
    own signature, as many central-directory entries as the trailer's
    this-disk count; conversely it returns whenever the trailer and
    that many entries decode. *)
Theorem unzip_trailer_then_counted_entries (buf : list byte) :
  let r0 := Reader.new buf in
  let n := byteLength buf in
  (n < 22 -> unzip decode buf = (Throw (SeekNegative (n - 22)), r0))
  /\ (22 <= n -> getUint32 buf (n - 22) <> Ok 0x06054b50 ->
      unzip decode buf = (Throw NotImplemented, Reader.set_pos r0 (n - 18)))
  /\ (forall records r,
        unzip decode buf = (Ok records, r) ->
        exists eocd es,
          22 <= n
          /\ getUint32 buf (n - 22) = Ok 0x06054b50
          /\ readEndOfCentralDirectoryRecord (Reader.set_pos r0 (n - 22))
             = (Ok eocd, Reader.set_pos r0 n)
          /\ iterates decode
               (Reader.set_pos r0
                  (offsetOfStartOfCentralDirectoryWithRespectToTheStartingDiskNumber eocd))
               es r
          /\ Z.of_nat (length es)
             = totalNumberOfEntriesInTheCentralDirectoryOnThisDisk eocd
          /\ records = assign_all empty_object es)
  /\ (forall eocd es r,
        22 <= n ->
        readEndOfCentralDirectoryRecord (Reader.set_pos r0 (n - 22))
        = (Ok eocd, Reader.set_pos r0 n) ->
        offsetOfStartOfCentralDirectoryWithRespectToTheStartingDiskNumber eocd <= n ->
        iterates decode
          (Reader.set_pos r0
             (offsetOfStartOfCentralDirectoryWithRespectToTheStartingDiskNumber eocd))
          es r ->
        Z.of_nat (length es)
        = totalNumberOfEntriesInTheCentralDirectoryOnThisDisk eocd ->
        unzip decode buf = (Ok (assign_all empty_object es), r)).
Proof.
  intros r0 n. repeat split.
  - apply unzip_short.
  - apply unzip_wrong_magic.
  - intros records r H.
    apply unzip_ok_iff in H as (eocd & es & (Hn & He & Hoff & Hit & Hes) & ->).
    exists eocd, es. repeat split; auto.
    apply readEndOfCentralDirectoryRecord_signature in He. exact He.
  - intros eocd es r Hn He Hoff Hit Hes.
    apply unzip_ok_iff. exists eocd, es. split; [|reflexivity].
    repeat split; auto.
Qed.

End Unzip.

(** ** Decoding a record whose bytes are there *)

Lemma step_U4 {B} buf p (k : Z -> M Reader.t B) :
  0 <= p -> p + 4 <= byteLength buf ->
  exists v, getUint32 buf p = Ok v /\ u32 v
            /\ bind Reader.readU4 k (Reader.mk buf p) = k v (Reader.mk buf (p + 4)).
Proof.
  intros H0 H4. destruct (readU4_spec (Reader.mk buf p)) as [_ Hok].
  destruct (Hok H0 H4) as (v & Hv & Hu & Hrd).
  exists v. repeat split; try apply Hu; auto. apply (bind_then _ _ _ _ _ Hrd).
Qed.

Lemma step_U2 {B} buf p (k : Z -> M Reader.t B) :
  0 <= p -> p + 2 <= byteLength buf ->
  exists v, getUint16 buf p = Ok v /\ u16 v
            /\ bind Reader.readU2 k (Reader.mk buf p) = k v (Reader.mk buf (p + 2)).
Proof.
  intros H0 H2. destruct (readU2_spec (Reader.mk buf p)) as [_ Hok].
  destruct (Hok H0 H2) as (v & Hv & Hu & Hrd).
  exists v. repeat split; try apply Hu; auto. apply (bind_then _ _ _ _ _ Hrd).
Qed.

Lemma step_bytes {B} buf p n (k : list byte -> M Reader.t B) :
  0 <= p -> 0 <= n -> p + n <= byteLength buf ->
  bind (Reader.readBytes n) k (Reader.mk buf p)
  = k (take (Z.to_nat n) (drop (Z.to_nat p) buf)) (Reader.mk buf (p + n)).
Proof.
  intros H0 Hn Hb. destruct (readBytes_spec n (Reader.mk buf p)) as [_ Hok].
  apply (bind_then _ _ _ _ _ (Hok H0 Hn Hb)).
Qed.

Lemma step_string {B} decode buf p n (k : string -> M Reader.t B) :
  0 <= p -> 0 <= n -> p + n <= byteLength buf ->
  bind (readString decode n) k (Reader.mk buf p)
  = k (decode (take (Z.to_nat n) (drop (Z.to_nat p) buf))) (Reader.mk buf (p + n)).
Proof.
  intros H0 Hn Hb. unfold readString.
  destruct (readBytes_spec n (Reader.mk buf p)) as [_ Hok].
  unfold bind at 1. unfold bind at 1. rewrite (Hok H0 Hn Hb). reflexivity.
Qed.

Lemma getUint16_bounds data off v :
  getUint16 data off = Ok v -> 0 <= off /\ off + 2 <= byteLength data /\ u16 v.
Proof.
  intros H. unfold getUint16 in H.
  destruct (in_bounds data off 2) eqn:Hb; [|discriminate].
  destruct (getUint16_ok _ _ Hb) as (v' & Hv' & Hu).
  unfold getUint16 in Hv'. rewrite Hb in Hv'.
  apply in_bounds_iff in Hb. replace v with v' by congruence. intuition lia.
Qed.

Lemma getUint32_bounds data off v :
  getUint32 data off = Ok v -> 0 <= off /\ off + 4 <= byteLength data /\ u32 v.
Proof.
  intros H. unfold getUint32 in H.
  destruct (in_bounds data off 4) eqn:Hb; [|discriminate].
  destruct (getUint32_ok _ _ Hb) as (v' & Hv' & Hu).
  unfold getUint32 in Hv'. rewrite Hb in Hv'.
  apply in_bounds_iff in Hb. replace v with v' by congruence. intuition lia.
Qed.

(** Sum the literal offsets of a position, [p + 4 + 2] to [p + 6]. *)
Ltac tidy_position :=
  repeat match goal with
    | |- context [?x + Zpos ?a + Zpos ?s] =>
        let c := eval compute in (Zpos a + Zpos s) in
        replace (x + Zpos a + Zpos s) with (x + c) by lia
    end.

(** Run the next read of a decoder whose bytes are known to be there. *)
Ltac read_next :=
  lazymatch goal with
  | |- context [bind Reader.readU4 ?k (Reader.mk ?buf ?p)] =>
      let v := fresh "v" in
      let Hv := fresh "Hv" in
      let Hu := fresh "Hu" in
      let Heq := fresh "Heq" in
      destruct (step_U4 buf p k) as (v & Hv & Hu & Heq);
      [unfold u16, u32 in *; lia | unfold u16, u32 in *; lia |];
      rewrite Heq; clear Heq; tidy_position
  | |- context [bind Reader.readU2 ?k (Reader.mk ?buf ?p)] =>
      let v := fresh "v" in
      let Hv := fresh "Hv" in
      let Hu := fresh "Hu" in
      let Heq := fresh "Heq" in
      destruct (step_U2 buf p k) as (v & Hv & Hu & Heq);
      [unfold u16, u32 in *; lia | unfold u16, u32 in *; lia |];
      rewrite Heq; clear Heq; tidy_position
  | |- context [bind (readString ?d ?n) ?k (Reader.mk ?buf ?p)] =>
      rewrite (step_string d buf p n k) by (unfold u16, u32 in *; lia)
  | |- context [bind (Reader.readBytes ?n) ?k (Reader.mk ?buf ?p)] =>
      rewrite (step_bytes buf p n k) by (unfold u16, u32 in *; lia)
  end.

Section Decoding.

Variable decode : list byte -> string.

(** A local file header decodes whenever its signature is at the
    position and its fixed part, name and extra field fit in the buffer;
    the reader ends right behind it. *)
Lemma readLocalFileHeader_at buf p nlen xlen :
  getUint32 buf p = Ok 0x04034b50 ->
  getUint16 buf (p + 26) = Ok nlen ->
  getUint16 buf (p + 28) = Ok xlen ->
  p + 30 + nlen + xlen <= byteLength buf ->
  exists hdr,
    readLocalFileHeader decode (Reader.mk buf p)
    = (Ok hdr, Reader.mk buf (p + 30 + nlen + xlen)).
Proof.
  intros Hsig Hn Hx Hfit.
  destruct (getUint32_bounds _ _ _ Hsig) as (Hp & _ & _).
  destruct (getUint16_bounds _ _ _ Hn) as (_ & _ & Hnu).
  destruct (getUint16_bounds _ _ _ Hx) as (_ & _ & Hxu).
  unfold readLocalFileHeader.
  read_next. replace v with 0x04034b50 by congruence.
  rewrite Z.eqb_refl. cbn [negb].
  do 10 read_next.
  replace v8 with nlen in * by congruence.
  replace v9 with xlen in * by congruence.
  do 2 read_next.
  eexists. reflexivity.
Qed.

End Decoding.

(** ** What opening an archive can throw *)

Lemma advances_safe {A} c (m : M Reader.t A) Q : advances c m Q -> safe m Q.
Proof.
  intros Hm r Hr. specialize (Hm r Hr).
  destruct (m r) as [[a|e] r']; [|exact Hm]. tauto.
Qed.

Lemma safe_bind {A B} (m : M Reader.t A) (k : A -> M Reader.t B) Q1 Q2 :
  safe m Q1 -> (forall x, Q1 x -> safe (k x) Q2) -> safe (bind m k) Q2.
Proof.
  intros Hm Hk r Hr. unfold bind. specialize (Hm r Hr).
  destruct (m r) as [[x|e] r1]; [|exact Hm].
  destruct Hm as (Hx & Hw & Hv). specialize (Hk x Hx r1 Hw).
  destruct (k x r1) as [[y|e] r2].
  - destruct Hk as (Hy & Hw2 & Hv2). repeat split; auto; try apply Hw2. congruence.
  - destruct Hk as (He & Hw2 & Hv2). repeat split; auto; try apply Hw2. congruence.
Qed.

Lemma safe_seek p : safe (Reader.seek p) (fun _ => True).
Proof.
  intros r Hr. destruct (seek_spec p r) as (Hneg & Hbig & Hok).
  set (q := if p <? 0 then Reader.len r + p else p) in *.
  destruct (Z.lt_ge_cases q 0) as [Hq|Hq].
  { rewrite (Hneg Hq). repeat split; try apply Hr. }
  destruct (Z.lt_ge_cases (Reader.len r) q) as [Hq'|Hq'].
  { rewrite (Hbig Hq'). repeat split; try apply Hr. }
  rewrite Hok by lia. unfold wf, Reader.len; simpl. repeat split; auto.
Qed.

Section Failures.

Variable decode : list byte -> string.

Lemma safe_unzip_loop n : forall records,
  safe (unzip_loop decode n records) (fun _ => True).
Proof.
  induction n as [|n IH]; intros records; simpl.
  - intros r Hr. simpl. repeat split; try apply Hr.
  - eapply safe_bind.
    + apply (advances_safe _ _ _ (advances_readCentralDirectoryEntry decode)).
    + intros cde _. apply IH.
Qed.

(** Whatever the buffer, a failing [unzip] ends in one of the exceptions
    the cursor and the decoders raise themselves, with the reader inside
    the buffer. *)
Lemma unzip_failures buf e r :
  unzip decode buf = (Throw e, r) ->
  parse_error e /\ wf r /\ Reader.view r = buf.
Proof.
  intros H.
  assert (Hs : safe (Reader.seek (-22) ;;;
                     let* eocd := readEndOfCentralDirectoryRecord in
                     Reader.seek
                       (offsetOfStartOfCentralDirectoryWithRespectToTheStartingDiskNumber eocd) ;;;
                     unzip_loop decode
                       (Z.to_nat (totalNumberOfEntriesInTheCentralDirectoryOnThisDisk eocd))
                       empty_object)
                    (fun _ => True)).
  { eapply safe_bind; [apply safe_seek|]. intros _ _.
    eapply safe_bind;
      [apply (advances_safe _ _ _ advances_readEndOfCentralDirectoryRecord)|].
    intros eocd _.
    eapply safe_bind; [apply safe_seek|]. intros _ _.
    apply safe_unzip_loop. }
  specialize (Hs (Reader.new buf) (wf_new buf)).
  unfold unzip in H. rewrite H in Hs. exact Hs.
Qed.

(** A trailer that announces more entries than the bytes behind the
    directory offset can hold makes [unzip] fail. *)
Lemma unzip_truncated buf eocd :
  22 <= byteLength buf ->
  readEndOfCentralDirectoryRecord
    (Reader.set_pos (Reader.new buf) (byteLength buf - 22))
  = (Ok eocd, Reader.set_pos (Reader.new buf) (byteLength buf)) ->
  byteLength buf
  < offsetOfStartOfCentralDirectoryWithRespectToTheStartingDiskNumber eocd
    + 46 * totalNumberOfEntriesInTheCentralDirectoryOnThisDisk eocd ->
  exists e r, unzip decode buf = (Throw e, r) /\ parse_error e.
Proof.
  intros Hn He Hbig.
  destruct (unzip decode buf) as [[records|e] r] eqn:Hu.
  - exfalso.
    apply unzip_ok_iff in Hu as (eocd' & es & (_ & He' & Hoff & Hit & Hes) & _).
    assert (eocd' = eocd) by congruence. subst eocd'.
    pose proof (advances_readEndOfCentralDirectoryRecord _ (wf_at_trailer buf Hn)) as Hadv.
    rewrite He in Hadv. destruct Hadv as ((_ & Hoff') & _).
    apply iterates_advances in Hit as (Hw & Hv & Hp & _).
    + unfold wf, Reader.len in Hw. rewrite Hv in Hw. simpl in Hw, Hp. lia.
    + unfold wf, Reader.len; simpl. unfold u32 in Hoff'. lia.
  - exists e, r. split; [reflexivity|].
    apply (unzip_failures _ _ _ Hu).
Qed.

End Failures.

(** C9: the cursor is bounds-checked.  [seek] resolves a negative
    position from the end and fails when the resolved position is
    negative or beyond the length; [readU4], [readU2] and [readBytes]
    fail whenever position + size exceeds the length and otherwise return
    and move the position by the size; so [unzip], on any buffer, either
    returns or throws one of the cursor's and decoders' own exceptions
    (never the platform's out-of-bounds error), and it throws when the
    trailer announces more entries than fit between the directory offset
    and the end of the buffer, at 46 bytes or more each.  The size of the
    directory that the trailer states is read and not compared with
    anything. *)
Theorem cursor_is_bounds_checked :
  (forall p r,
      let q := if p <? 0 then Reader.len r + p else p in
      (q < 0 -> Reader.seek p r = (Throw (SeekNegative q), r))
      /\ (Reader.len r < q -> Reader.seek p r = (Throw (SeekPastEnd q), r))
      /\ (0 <= q <= Reader.len r -> Reader.seek p r = (Ok tt, Reader.set_pos r q)))
  /\ (forall r,
        (Reader.len r < Reader.pos r + 4 ->
         Reader.readU4 r = (Throw (ReadPastEnd (Reader.pos r) 4 (Reader.len r)), r))
        /\ (wf r -> Reader.pos r + 4 <= Reader.len r ->
            exists v, u32 v
                      /\ Reader.readU4 r = (Ok v, Reader.set_pos r (Reader.pos r + 4))))
  /\ (forall r,
        (Reader.len r < Reader.pos r + 2 ->
         Reader.readU2 r = (Throw (ReadPastEnd (Reader.pos r) 2 (Reader.len r)), r))
        /\ (wf r -> Reader.pos r + 2 <= Reader.len r ->
            exists v, u16 v
                      /\ Reader.readU2 r = (Ok v, Reader.set_pos r (Reader.pos r + 2))))
  /\ (forall n r,
        (Reader.len r < Reader.pos r + n ->
         Reader.readBytes n r = (Throw (ReadPastEnd (Reader.pos r) n (Reader.len r)), r))
        /\ (wf r -> 0 <= n -> Reader.pos r + n <= Reader.len r ->
            exists bytes, byteLength bytes = n
                          /\ Reader.readBytes n r
                             = (Ok bytes, Reader.set_pos r (Reader.pos r + n))))
  /\ (forall decode buf e r,
        unzip decode buf = (Throw e, r) ->
        parse_error e /\ e <> RangeError /\ wf r /\ Reader.view r = buf)
  /\ (forall decode buf eocd,
        22 <= byteLength buf ->
        readEndOfCentralDirectoryRecord
          (Reader.set_pos (Reader.new buf) (byteLength buf - 22))
        = (Ok eocd, Reader.set_pos (Reader.new buf) (byteLength buf)) ->
        byteLength buf
        < offsetOfStartOfCentralDirectoryWithRespectToTheStartingDiskNumber eocd
          + 46 * totalNumberOfEntriesInTheCentralDirectoryOnThisDisk eocd ->
        exists e r, unzip decode buf = (Throw e, r) /\ parse_error e).
Proof.
  split; [exact seek_spec|].
  split.
  { intros r. destruct (readU4_spec r) as [Hf Hok]. split; [exact Hf|].
    intros Hw Hb. destruct (Hok (proj1 Hw) Hb) as (v & _ & Hu & Hrd). eauto. }
  split.
  { intros r. destruct (readU2_spec r) as [Hf Hok]. split; [exact Hf|].
    intros Hw Hb. destruct (Hok (proj1 Hw) Hb) as (v & _ & Hu & Hrd). eauto. }
  split.
  { intros n r. destruct (readBytes_spec n r) as [Hf Hok]. split; [exact Hf|].
    intros Hw Hn Hb. rewrite (Hok (proj1 Hw) Hn Hb). eexists; split; [|reflexivity].
    unfold byteLength, wf, Reader.len, byteLength in *.
    rewrite length_take, length_drop. lia. }
  split.
  { intros decode buf e r H. destruct (unzip_failures _ _ _ _ H) as (He & Hw & Hv).
    repeat split; auto; try apply Hw. intros ->. exact He. }
  intros decode buf eocd. apply unzip_truncated.
Qed.

(** ** The catalog *)

Lemma get_assign_eq records k v : get (assign records k v) k = Some v.
Proof.
  unfold get, assign. destruct (is_proto_key k) eqn:Hk; simpl.
  - reflexivity.
  - apply lookup_insert_eq.
Qed.

Lemma get_assign_ne records k k' v :
  k <> k' -> get (assign records k v) k' = get records k'.
Proof.
  intros Hne. unfold get, assign, is_proto_key.
  destruct (String.eqb_spec k "__proto__") as [Hk|Hk];
    destruct (String.eqb_spec k' "__proto__") as [Hk'|Hk']; simpl; try reflexivity.
  - congruence.
  - apply lookup_insert_ne. exact Hne.
Qed.

Lemma get_assign_all_other es : forall records k,
  Forall (fun e => fileName e <> k) es ->
  get (assign_all records es) k = get records k.
Proof.
  induction es as [|e es IH]; intros records k Hall; [reflexivity|].
  inversion Hall as [|? ? Hne Hrest]; subst.
  change (assign_all records (e :: es))
    with (assign_all (assign records (fileName e) (entry_of e)) es).
  rewrite IH by assumption.
  apply get_assign_ne. exact Hne.
Qed.

Lemma assign_all_app records es es' :
  assign_all records (es ++ es') = assign_all (assign_all records es) es'.
Proof. apply fold_left_app. Qed.

Lemma get_assign_all_last records pre cde post :
  Forall (fun e => fileName e <> fileName cde) post ->
  get (assign_all records (pre ++ cde :: post)) (fileName cde)
  = Some (entry_of cde).
Proof.
  intros Hpost. rewrite assign_all_app.
  change (assign_all (assign_all records pre) (cde :: post))
    with (assign_all
            (assign (assign_all records pre) (fileName cde) (entry_of cde)) post).
  rewrite get_assign_all_other by assumption.
  apply get_assign_eq.
Qed.

(** Among the entries of a name, one is the last. *)
Lemma last_of_name (es : list CentralDirectoryEntry) k :
  Exists (fun e => fileName e = k) es ->
  exists pre cde post,
    es = pre ++ cde :: post /\ fileName cde = k
    /\ Forall (fun e => fileName e <> k) post.
Proof.
  induction es as [|e es IH]; intros Hex; [inversion Hex|].
  assert (Hdec : forall x : CentralDirectoryEntry,
             {fileName x = k} + {fileName x <> k})
    by (intros x; apply String.string_dec).
  destruct (List.Exists_dec (fun e => fileName e = k) es Hdec) as [Hlater|Hnone].
  - destruct (IH Hlater) as (pre & cde & post & -> & Hk & Hpost).
    exists (e :: pre), cde, post. auto.
  - inversion Hex as [? ? Hhere|? ? Hthere]; subst; [|contradiction].
    exists [], e, es. repeat split.
    apply Forall_Exists_neg. exact Hnone.
Qed.

(** The key [__proto__] does not become an own property, and reads
    back all the same. *)
Example assign_proto_key e :
  own (assign empty_object "__proto__" e) = ∅
  /\ get (assign empty_object "__proto__" e) "__proto__" = Some e.
Proof. split; reflexivity. Qed.

Section Catalog.

Variable decode : list byte -> string.

(** C4: when the central directory holds several entries of one name,
    the catalog [unzip] returns maps the name to the last of them in
    directory order: every entry that no later entry shares its name
    with is the catalog's entry for that name. *)
Theorem catalog_keeps_last_of_a_name buf records r :
  unzip decode buf = (Ok records, r) ->
  exists eocd es,
    central_directory decode buf eocd es r
    /\ forall pre cde post,
         es = pre ++ cde :: post ->
         Forall (fun e => fileName e <> fileName cde) post ->
         get records (fileName cde) = Some (entry_of cde).
Proof.
  intros H. apply unzip_ok_iff in H as (eocd & es & Hdir & ->).
  exists eocd, es. split; [exact Hdir|].
  intros pre cde post -> Hpost. apply get_assign_all_last. exact Hpost.
Qed.

End Catalog.

(** ** Opening an entry *)

Lemma keeps_view_ret {A} (a : A) : keeps_view (ret a).
Proof. intros r. reflexivity. Qed.

Lemma keeps_view_throw {A} e : keeps_view (@throw Reader.t A e).
Proof. intros r. reflexivity. Qed.

Lemma keeps_view_bind {A B} (m : M Reader.t A) (k : A -> M Reader.t B) :
  keeps_view m -> (forall a, keeps_view (k a)) -> keeps_view (bind m k).
Proof.
  intros Hm Hk r. unfold bind. specialize (Hm r).
  destruct (m r) as [[a|e] r1]; simpl in *; [|exact Hm].
  rewrite Hk. exact Hm.
Qed.

Lemma keeps_view_seek p : keeps_view (Reader.seek p).
Proof.
  intros r. unfold Reader.seek.
  repeat match goal with |- context [if ?b then _ else _] => destruct b end;
    reflexivity.
Qed.

Lemma keeps_view_readU4 : keeps_view Reader.readU4.
Proof.
  intros r. unfold Reader.readU4.
  destruct (_ >? _); [reflexivity|]. destruct (getUint32 _ _); reflexivity.
Qed.

Lemma keeps_view_readU2 : keeps_view Reader.readU2.
Proof.
  intros r. unfold Reader.readU2.
  destruct (_ >? _); [reflexivity|]. destruct (getUint16 _ _); reflexivity.
Qed.

Lemma keeps_view_readBytes n : keeps_view (Reader.readBytes n).
Proof.
  intros r. unfold Reader.readBytes.
  destruct (_ >? _); [reflexivity|]. destruct (subarray _ _ _); reflexivity.
Qed.

Lemma keeps_view_readString decode n : keeps_view (readString decode n).
Proof.
  unfold readString. apply keeps_view_bind; [apply keeps_view_readBytes|].
  intros a. apply keeps_view_ret.
Qed.

Ltac keeps :=
  repeat first
    [ apply keeps_view_ret
    | apply keeps_view_throw
    | apply keeps_view_seek
    | apply keeps_view_readU4
    | apply keeps_view_readU2
    | apply keeps_view_readBytes
    | apply keeps_view_readString
    | apply keeps_view_bind; [|intros ?]
    | match goal with
      | |- keeps_view (if ?b then _ else _) => destruct b
      end ].

Section Open.

Variable decode : list byte -> string.

Lemma keeps_view_open cde : keeps_view (open decode cde).
Proof. unfold open, readLocalFileHeader. keeps. Qed.

(** The outcome of [open] does not depend on where the shared reader
    stands: [open] seeks first. *)
Lemma open_from_any_position cde r1 r2 :
  Reader.view r1 = Reader.view r2 ->
  fst (open decode cde r1) = fst (open decode cde r2).
Proof.
  intros Hv. unfold open.
  set (p := relativeOffsetOfLocalHeader cde).
  destruct (seek_spec p r1) as (Hneg1 & Hbig1 & Hok1).
  destruct (seek_spec p r2) as (Hneg2 & Hbig2 & Hok2).
  assert (Hlen : Reader.len r1 = Reader.len r2) by (unfold Reader.len; congruence).
  rewrite <- Hlen in Hneg2, Hbig2, Hok2.
  set (q := if p <? 0 then Reader.len r1 + p else p) in *.
  destruct (Z.lt_ge_cases q 0) as [Hq|Hq].
  { rewrite (bind_throw _ _ _ _ _ (Hneg1 Hq)), (bind_throw _ _ _ _ _ (Hneg2 Hq)).
    reflexivity. }
  destruct (Z.lt_ge_cases (Reader.len r1) q) as [Hq'|Hq'].
  { rewrite (bind_throw _ _ _ _ _ (Hbig1 Hq')), (bind_throw _ _ _ _ _ (Hbig2 Hq')).
    reflexivity. }
  rewrite (bind_then _ _ _ _ _ (Hok1 ltac:(lia))), (bind_then _ _ _ _ _ (Hok2 ltac:(lia))).
  replace (Reader.set_pos r2 q) with (Reader.set_pos r1 q); [reflexivity|].
  apply reader_eq; simpl; auto.
Qed.

Lemma view_after_opens cdes : forall r,
  Reader.view (after_opens decode cdes r) = Reader.view r.
Proof.
  induction cdes as [|cde cdes IH]; intros r; [reflexivity|].
  change (after_opens decode (cde :: cdes) r)
    with (after_opens decode cdes (snd (open decode cde r))).
  rewrite IH. apply keeps_view_open.
Qed.

(** [open] with the local file header and the bytes in place: the bytes
    behind the header, dispatched on the method of the directory entry. *)
Lemma open_at buf cde nlen xlen p0 :
  local_file_at buf cde nlen xlen ->
  let off := relativeOffsetOfLocalHeader cde in
  let bytes := payload buf off nlen xlen (compressedSize cde) in
  open decode cde (Reader.mk buf p0)
  = ((if compressionMethod cde =? 0 then Ok (RawStream bytes)
      else if compressionMethod cde =? 8 then Ok (DeflateRawStream bytes)
      else Throw (NotSupported (compressionMethod cde))),
     Reader.mk buf (off + 30 + nlen + xlen + compressedSize cde)).
Proof.
  intros (Hsig & Hn & Hx & Hsize & Hfit) off bytes. fold off in Hsig, Hn, Hx, Hfit.
  destruct (getUint32_bounds _ _ _ Hsig) as (Hoff & _ & _).
  destruct (getUint16_bounds _ _ _ Hn) as (_ & _ & Hnu).
  destruct (getUint16_bounds _ _ _ Hx) as (_ & _ & Hxu).
  unfold u16 in Hnu, Hxu.
  unfold open. fold off.
  destruct (seek_spec off (Reader.mk buf p0)) as (_ & _ & Hok).
  destruct (Z.ltb_spec off 0) as [Hneg|_]; [lia|].
  rewrite (bind_then _ _ _ _ _ (Hok ltac:(unfold Reader.len; simpl; lia))).
  cbn [Reader.set_pos Reader.view].
  destruct (readLocalFileHeader_at decode buf off nlen xlen Hsig Hn Hx ltac:(lia))
    as (hdr & Hhdr).
  rewrite (bind_then _ _ _ _ _ Hhdr).
  rewrite step_bytes by lia.
  fold (payload buf off nlen xlen (compressedSize cde)). fold bytes.
  destruct (compressionMethod cde =? 0); [reflexivity|].
  destruct (compressionMethod cde =? 8); reflexivity.
Qed.

Lemma payload_length buf off nlen xlen size :
  0 <= off + 30 + nlen + xlen -> 0 <= size ->
  off + 30 + nlen + xlen + size <= byteLength buf ->
  byteLength (payload buf off nlen xlen size) = size.
Proof.
  intros H0 Hs Hfit. unfold payload, byteLength in *.
  rewrite length_take, length_drop. lia.
Qed.

(** C2: for an entry whose directory record has method 0 (store), with
    its local file header and bytes in place, [open] gives the stream of
    exactly [compressedSize] bytes that lie in the buffer right behind
    the local file header, as they are. *)
Theorem open_stored_gives_the_bytes_behind_the_header buf cde nlen xlen p0 :
  compressionMethod cde = 0 ->
  local_file_at buf cde nlen xlen ->
  let bytes :=
    take (Z.to_nat (compressedSize cde))
      (drop (Z.to_nat (relativeOffsetOfLocalHeader cde + 30 + nlen + xlen)) buf) in
  fst (open decode cde (Reader.mk buf p0)) = Ok (RawStream bytes)
  /\ byteLength bytes = compressedSize cde
  /\ Reader.view (snd (open decode cde (Reader.mk buf p0))) = buf.
Proof.
  intros Hm Hat bytes. rewrite (open_at _ _ _ _ p0 Hat). rewrite Hm. simpl.
  repeat split.
  destruct Hat as (Hsig & Hn & Hx & Hsize & Hfit).
  destruct (getUint32_bounds _ _ _ Hsig) as (Hoff & _ & _).
  destruct (getUint16_bounds _ _ _ Hn) as (_ & _ & Hnu).
  destruct (getUint16_bounds _ _ _ Hx) as (_ & _ & Hxu).
  unfold u16 in Hnu, Hxu.
  apply payload_length; lia.
Qed.

(** C5: [open] is repeatable and leaves the archive alone: what it gives
    depends on the directory entry and the buffer only, not on where the
    shared reader stands; it never changes the buffer; and after any
    sequence of earlier [open]s, of this or other entries, it gives what
    it gives on the untouched reader. *)
Theorem open_is_repeatable cde :
  (forall r1 r2,
      Reader.view r1 = Reader.view r2 ->
      fst (open decode cde r1) = fst (open decode cde r2))
  /\ (forall r, Reader.view (snd (open decode cde r)) = Reader.view r)
  /\ (forall cdes r,
        Reader.view (after_opens decode cdes r) = Reader.view r
        /\ fst (open decode cde (after_opens decode cdes r))
           = fst (open decode cde r)).
Proof.
  repeat split.
  - apply open_from_any_position.
  - apply keeps_view_open.
  - apply view_after_opens.
  - apply open_from_any_position. apply view_after_opens.
Qed.

End Open.

(** ** Unsupported methods *)

Section Unsupported.

Variable decode : list byte -> string.





End Unsupported.

(** ** The sample archive *)

Example sample_unzips :
  unzip Sample.ascii_decode Sample.archive = (Ok Sample.catalog, Sample.reader).
Proof. vm_compute. reflexivity. Qed.

Example sample_catalog :
  get Sample.catalog "a" = Some (entry_of Sample.deflated_entry)
  /\ get Sample.catalog "b" = Some (entry_of Sample.unsupported_entry)
  /\ own Sample.catalog !! "c" = None.
Proof. vm_compute. auto. Qed.

Example sample_opens :
  fst (open Sample.ascii_decode Sample.stored_entry Sample.reader)
  = Ok (RawStream (Sample.ascii "hi"))
  /\ fst (open Sample.ascii_decode Sample.unsupported_entry Sample.reader)
     = Throw (NotSupported 99)
  /\ fst (open Sample.ascii_decode Sample.deflated_entry
            (snd (open Sample.ascii_decode Sample.unsupported_entry Sample.reader)))
     = Ok (DeflateRawStream (Sample.ascii "zz")).
Proof. vm_compute. auto. Qed.

Example sample_truncated :
  fst (unzip Sample.ascii_decode Sample.truncated) = Throw SignatureMismatch.
Proof. vm_compute. reflexivity. Qed.

(** C9 as stated fails in its example: the trailer of this archive of 102
    bytes claims a directory of 4000000 bytes, far more than the bytes
    available, and [unzip] returns all the same, with the entry [a],
    which opens to its two bytes. *)
Lemma unzip_opens_an_archive_whose_trailer_claims_too_large_a_directory :
  byteLength Sample.overstated = 102
  /\ sizeOfTheCentralDirectory (trailer_at Sample.overstated (102 - 22)) = 4000000
  /\ fst (readEndOfCentralDirectoryRecord (Reader.mk Sample.overstated (102 - 22)))
     = Ok (trailer_at Sample.overstated (102 - 22))
  /\ exists records r,
       unzip Sample.ascii_decode Sample.overstated = (Ok records, r)
       /\ get records "a" = Some (entry_of Sample.stored_entry)
       /\ fst (open Sample.ascii_decode Sample.stored_entry r)
          = Ok (RawStream (Sample.ascii "hi")).
Proof.
  split; [reflexivity|]. split; [reflexivity|]. split; [reflexivity|].
  destruct (unzip Sample.ascii_decode Sample.overstated) as [res r] eqn:Hu.
  vm_compute in Hu. injection Hu as <- <-.
  eexists. eexists. split; [reflexivity|]. split; reflexivity.
Qed.

(** The stored entry of the sample archive has its local file header and
    its two bytes in place. *)
Lemma sample_stored_in_place :
  local_file_at Sample.archive Sample.stored_entry 1 0.
Proof.
  unfold local_file_at. repeat split; try (vm_compute; reflexivity);
    vm_compute; discriminate.
Qed.

(** C2 at the sample archive: the stored entry [a] opens to its two
    bytes, from a reader left at position 7. *)
Lemma open_stored_witness :
  fst (open Sample.ascii_decode Sample.stored_entry (Reader.mk Sample.archive 7))
  = Ok (RawStream (Sample.ascii "hi"))
  /\ byteLength (Sample.ascii "hi") = 2
  /\ Reader.view
       (snd (open Sample.ascii_decode Sample.stored_entry
               (Reader.mk Sample.archive 7)))
     = Sample.archive.
Proof.
  exact (open_stored_gives_the_bytes_behind_the_header Sample.ascii_decode
           Sample.archive Sample.stored_entry 1 0 7
           eq_refl sample_stored_in_place).
Defined.

(** C4 at the sample archive, whose directory has two entries named
    [a]. *)
Lemma catalog_keeps_last_witness :
  exists eocd es,
    central_directory Sample.ascii_decode Sample.archive eocd es Sample.reader
    /\ forall pre cde post,
         es = pre ++ cde :: post ->
         Forall (fun e => fileName e <> fileName cde) post ->
         get Sample.catalog (fileName cde) = Some (entry_of cde).
Proof.
  apply (catalog_keeps_last_of_a_name Sample.ascii_decode Sample.archive).
  vm_compute. reflexivity.
Defined.

(** ** The linear memory *)

Lemma u8_byte_of_Z z : u8 (byte_of_Z z) = z mod 256.
Proof.
  unfold u8, byte_of_Z.
  assert (Hr : 0 <= z mod 256 < 256) by (apply Z.mod_pos_bound; lia).
  destruct (Byte.of_N (Z.to_N (z mod 256))) as [b|] eqn:Hb.
  - apply Byte.to_of_N in Hb. rewrite Hb. lia.
  - apply Byte.of_N_None_iff in Hb. lia.
Qed.

Lemma store_length data off bytes :
  in_bounds data off (byteLength bytes) = true ->
  length (store data off bytes) = length data.
Proof.
  intros Hb. apply in_bounds_iff in Hb. unfold store, byteLength in *.
  rewrite !length_app, length_take, length_drop. lia.
Qed.

Lemma store_lookup_outside data off bytes (a : nat) :
  in_bounds data off (byteLength bytes) = true ->
  ~ (off <= Z.of_nat a < off + byteLength bytes) ->
  store data off bytes !! a = data !! a.
Proof.
  intros Hb Ha. apply in_bounds_iff in Hb. unfold store, byteLength in *.
  destruct (Z.lt_ge_cases (Z.of_nat a) off) as [Hlt|Hge].
  - rewrite lookup_app_l by (rewrite length_take; lia).
    apply lookup_take_lt. lia.
  - rewrite lookup_app_r by (rewrite length_take; lia).
    rewrite lookup_app_r by (rewrite length_take; lia).
    rewrite lookup_drop. f_equal. rewrite length_take. lia.
Qed.

Lemma store_lookup_inside data off bytes (a : nat) :
  in_bounds data off (byteLength bytes) = true ->
  off <= Z.of_nat a < off + byteLength bytes ->
  store data off bytes !! a = bytes !! (a - Z.to_nat off)%nat.
Proof.
  intros Hb Ha. apply in_bounds_iff in Hb. unfold store, byteLength in *.
  rewrite lookup_app_r by (rewrite length_take; lia).
  rewrite length_take.
  replace (Z.to_nat off `min` length data)%nat with (Z.to_nat off) by lia.
  apply lookup_app_l. lia.
Qed.

Lemma store_at_index_inside data off bytes i :
  in_bounds data off (byteLength bytes) = true ->
  0 <= i < byteLength bytes ->
  at_index (store data off bytes) (off + i) = u8 (nth (Z.to_nat i) bytes x00).
Proof.
  intros Hb Hi. apply in_bounds_iff in Hb. unfold at_index, store, byteLength in *.
  f_equal.
  rewrite app_nth2 by (rewrite length_take; lia).
  rewrite length_take.
  rewrite app_nth1 by lia.
  f_equal. lia.
Qed.

Lemma le32_value v :
  let w := v mod 4294967296 in
  w mod 256 + 256 * ((w / 256) mod 256) + 65536 * ((w / 65536) mod 256)
  + 16777216 * ((w / 16777216) mod 256) = w.
Proof.
  intros w. assert (Hw : 0 <= w < 4294967296) by (apply Z.mod_pos_bound; lia).
  clearbody w.
  Z.to_euclidean_division_equations. lia.
Qed.

(** What [setUint32] stored is what [getUint32] reads back. *)
Lemma getUint32_store_le32 data off v :
  in_bounds data off 4 = true ->
  getUint32 (store data off (le32 v)) off = Ok (v mod 4294967296).
Proof.
  intros Hb. unfold getUint32.
  assert (Hb' : in_bounds data off (byteLength (le32 v)) = true) by exact Hb.
  replace (in_bounds (store data off (le32 v)) off 4) with true.
  2:{ symmetry. apply in_bounds_iff. apply in_bounds_iff in Hb.
      unfold byteLength in *. rewrite (store_length _ _ _ Hb'). exact Hb. }
  f_equal. unfold uint32_at.
  pose proof (store_at_index_inside data off (le32 v) 0 Hb') as H0.
  rewrite Z.add_0_r in H0. rewrite H0 by (unfold byteLength; simpl; lia).
  rewrite !store_at_index_inside by (auto; unfold byteLength; simpl; lia).
  change (Z.to_nat 0) with 0%nat. change (Z.to_nat 1) with 1%nat.
  change (Z.to_nat 2) with 2%nat. change (Z.to_nat 3) with 3%nat.
  cbn [nth le32].
  rewrite !u8_byte_of_Z. apply le32_value.
Qed.

Lemma apply_stores_length stores : forall b,
  length (apply_stores b stores) = length b.
Proof.
  induction stores as [|s stores IH]; intros b; [reflexivity|].
  change (apply_stores b (s :: stores))
    with (apply_stores (<[fst s := snd s]> b) stores).
  rewrite IH. apply length_insert.
Qed.

(** ** Sequential read *)

Section Bridge_read.

Context {Env : Type}.
Implicit Types w : Wasi Env.

Lemma assertsItIsMemory_set w mem :
  memory w = Some mem -> assertsItIsMemory Env w = (Ok mem, w).
Proof. unfold assertsItIsMemory. intros ->. reflexivity. Qed.

Lemma view_setUint32_set w mem off v :
  memory w = Some mem -> in_bounds mem off 4 = true ->
  view_setUint32 Env off v w = (Ok tt, set_memory Env w (store mem off (le32 v))).
Proof.
  intros Hm Hb. unfold view_setUint32, setUint32. rewrite Hm, Hb. reflexivity.
Qed.

(** C8: with the memory bound, [fd_read] on a descriptor other than 0 and
    [fd_write] on a descriptor other than 1 and 2 return 8 and leave
    everything as it was: the memory (no result length is written), the
    state of the bound callbacks and the log of their invocations. *)
Theorem bad_descriptor_returns_8_and_touches_nothing
    w mem fd ptr count resultptr :
  memory w = Some mem ->
  (fd <> 0 -> fd_read fd ptr count resultptr w = (Ok 8, w))
  /\ (fd <> 1 -> fd <> 2 ->
      forall fuel, fd_write fuel fd ptr count resultptr w = Some (Ok 8, w)).
Proof.
  intros Hm. split.
  - intros Hfd. unfold fd_read.
    rewrite (bind_then _ _ _ _ _ (assertsItIsMemory_set w mem Hm)).
    destruct (Z.eqb_spec fd 0); [contradiction | reflexivity].
  - intros H1 H2 fuel. unfold fd_write.
    rewrite (assertsItIsMemory_set w mem Hm).
    destruct (Z.eqb_spec fd 1); [contradiction|].
    destruct (Z.eqb_spec fd 2); [contradiction | reflexivity].
Qed.

(** C10: [fd_read] on descriptor 0 with no vector returns 0 after writing
    the count 0 to the result location, and never invokes the provider:
    the callbacks' state and the log of invocations are as before. *)
Theorem fd_read_without_vectors_writes_zero w mem iovsptr readptr :
  memory w = Some mem ->
  in_bounds mem readptr 4 = true ->
  exists w',
    fd_read 0 iovsptr 0 readptr w = (Ok 0, w')
    /\ memory w' = Some (store mem readptr (le32 0))
    /\ getUint32 (store mem readptr (le32 0)) readptr = Ok 0
    /\ env w' = env w /\ calls w' = calls w
    /\ stdin w' = stdin w /\ stdout w' = stdout w /\ stderr w' = stderr w.
Proof.
  intros Hm Hb. eexists. split.
  - unfold fd_read.
    rewrite (bind_then _ _ _ _ _ (assertsItIsMemory_set w mem Hm)).
    cbn [Z.eqb negb Z.ltb Z.compare].
    unfold bind at 1. unfold ret at 1.
    rewrite (bind_then _ _ _ _ _ (view_setUint32_set w mem readptr 0 Hm Hb)).
    reflexivity.
  - simpl. repeat split. apply (getUint32_store_le32 mem readptr 0 Hb).
Qed.

Lemma view_getUint32_set w mem off v :
  memory w = Some mem -> getUint32 mem off = Ok v ->
  view_getUint32 Env off w = (Ok v, w).
Proof. intros Hm Hv. unfold view_getUint32, lift. rewrite Hm, Hv. reflexivity. Qed.

Lemma new_Uint8Array_set w mem buf len :
  memory w = Some mem -> in_bounds mem buf len = true ->
  new_Uint8Array Env buf len w = (Ok (window mem (buf, len)), w).
Proof.
  intros Hm Hb. unfold new_Uint8Array, lift, subarray. rewrite Hm, Hb. reflexivity.
Qed.

Lemma window_length mem buf len :
  in_bounds mem buf len = true -> byteLength (window mem (buf, len)) = len.
Proof.
  intros Hb. apply in_bounds_iff in Hb. unfold window, byteLength in *. simpl.
  rewrite length_take, length_drop. lia.
Qed.

(** C6: [fd_read] on descriptor 0 with one vector or more services the
    first vector only.  The provider is invoked once, on the window the
    first vector describes, and what it stores lands in that window of
    the memory; the count it returns is written (as 32 bits) to the
    result location and the call returns 0; and outside that window and
    the result location the memory, the other vectors and their windows
    with it, is as it was. *)
Theorem fd_read_services_the_first_vector_only
    w mem iovsptr iovslen readptr buf len n stores e' :
  memory w = Some mem ->
  0 < iovslen ->
  getUint32 mem iovsptr = Ok buf ->
  getUint32 mem (iovsptr + 4) = Ok len ->
  in_bounds mem buf len = true ->
  in_bounds mem readptr 4 = true ->
  stdin w (window mem (buf, len)) (env w) = (Ok (n, stores), e') ->
  exists w' mem',
    fd_read 0 iovsptr iovslen readptr w = (Ok 0, w')
    /\ calls w'
       = calls w ++ [{| channel := 0; offered := window mem (buf, len);
                        returned := n |}]
    /\ byteLength (window mem (buf, len)) = len
    /\ env w' = e'
    /\ memory w' = Some mem'
    /\ getUint32 mem' readptr = Ok (n mod 4294967296)
    /\ length mem' = length mem
    /\ (forall a : nat,
          ~ (buf <= Z.of_nat a < buf + len) ->
          ~ (readptr <= Z.of_nat a < readptr + 4) ->
          mem' !! a = mem !! a)
    /\ stdin w' = stdin w /\ stdout w' = stdout w /\ stderr w' = stderr w
    /\ mem'
       = store (store mem buf (apply_stores (window mem (buf, len)) stores))
           readptr (le32 n)
    /\ (forall a : nat,
          buf <= Z.of_nat a < buf + len ->
          ~ (readptr <= Z.of_nat a < readptr + 4) ->
          mem' !! a
          = apply_stores (window mem (buf, len)) stores
              !! (a - Z.to_nat buf)%nat).
Proof.
  intros Hm Hn Hbuf Hlen Hwin Hres Hin.
  set (b := window mem (buf, len)) in *.
  set (mem1 := store mem buf (apply_stores b stores)).
  assert (Hb : byteLength b = len) by (apply window_length; exact Hwin).
  assert (Hwin1 : in_bounds mem buf (byteLength (apply_stores b stores)) = true).
  { unfold byteLength. rewrite apply_stores_length. fold (byteLength b).
    rewrite Hb. exact Hwin. }
  assert (Hlen1 : length mem1 = length mem) by (apply store_length; exact Hwin1).
  assert (Hres1 : in_bounds mem1 readptr 4 = true).
  { apply in_bounds_iff. apply in_bounds_iff in Hres.
    unfold byteLength in *. rewrite Hlen1. exact Hres. }
  assert (Hres1' : in_bounds mem1 readptr (byteLength (le32 n)) = true) by exact Hres1.
  eexists. exists (store mem1 readptr (le32 n)). split.
  - unfold fd_read.
    rewrite (bind_then _ _ _ _ _ (assertsItIsMemory_set w mem Hm)).
    cbn [Z.eqb negb].
    destruct (Z.ltb_spec 0 iovslen) as [_|]; [|lia].
    replace (iovsptr + 0 * 8 + 0) with iovsptr by lia.
    replace (iovsptr + 0 * 8 + 4) with (iovsptr + 4) by lia.
    unfold bind at 1. unfold bind at 1.
    rewrite (view_getUint32_set w mem _ _ Hm Hbuf).
    unfold bind at 1.
    rewrite (view_getUint32_set w mem _ _ Hm Hlen).
    unfold bind at 1.
    rewrite (new_Uint8Array_set w mem _ _ Hm Hwin). fold b.
    unfold bind at 1. unfold call_stdin at 1. rewrite Hin, Hm.
    unfold ret at 1. fold mem1.
    erewrite bind_then
      by (apply (view_setUint32_set _ mem1); [reflexivity | exact Hres1]).
    reflexivity.
  - simpl. repeat split; auto.
    + apply (getUint32_store_le32 mem1 readptr n Hres1).
    + rewrite (store_length _ _ _ Hres1'). exact Hlen1.
    + intros a Ha1 Ha2.
      rewrite (store_lookup_outside _ _ _ a Hres1') by (unfold byteLength; simpl; lia).
      apply (store_lookup_outside _ _ _ a Hwin1).
      unfold byteLength. rewrite apply_stores_length. fold (byteLength b). lia.
    + intros a Ha1 Ha2.
      rewrite (store_lookup_outside _ _ _ a Hres1') by (unfold byteLength; simpl; lia).
      apply (store_lookup_inside _ _ _ a Hwin1).
      unfold byteLength. rewrite apply_stores_length. fold (byteLength b). lia.
Qed.

End Bridge_read.

(** ** Sequential write *)

Section Bridge_write.

Context {Env : Type}.
Implicit Types w : Wasi Env.

Lemma reached_refl fd w : reached fd w [] w.
Proof. unfold reached. rewrite app_nil_r. repeat split. constructor. Qed.

Lemma reached_trans fd w cs w1 cs' w2 :
  reached fd w cs w1 -> reached fd w1 cs' w2 -> reached fd w (cs ++ cs') w2.
Proof.
  intros (Hm & Hi & Ho & He & Hc & Hf) (Hm' & Hi' & Ho' & He' & Hc' & Hf').
  unfold reached. repeat split; try congruence.
  - rewrite Hc', Hc. symmetry. apply app_assoc.
  - apply Forall_app. auto.
Qed.

Lemma slice_drop (b : list byte) n :
  0 <= n <= byteLength b -> slice b n = drop (Z.to_nat n) b.
Proof.
  intros Hn. unfold slice.
  destruct (Z.ltb_spec n 0); [lia|]. rewrite Z.min_l by lia. reflexivity.
Qed.

(** The [while] loop returns once the consumer has taken the whole
    array, within as many iterations as the array has bytes. *)
Lemma write_all_takes fd (wr : Write Env) (Hwr : takes_some wr) fuel :
  forall b written w,
    (length b < fuel)%nat ->
    exists w' cs,
      write_all fuel fd wr b written w = Some (Ok (written + byteLength b), w')
      /\ reached fd w cs w'
      /\ concat (map accepted cs) = b.
Proof.
  induction fuel as [|fuel IH]; intros b written w Hfuel; [lia|].
  simpl. destruct b as [|x b'] eqn:Hb.
  - exists w, []. simpl. split; [|split; [apply reached_refl | reflexivity]].
    do 3 f_equal. unfold byteLength. simpl. lia.
  - rewrite <- Hb in *.
    destruct (Z.gtb_spec (byteLength b) 0) as [_|Hlen];
      [|unfold byteLength in Hlen; rewrite Hb in Hlen; simpl in Hlen; lia].
    destruct (Hwr b (env w)) as (n & e' & Hcall & Hn); [rewrite Hb; discriminate|].
    unfold call_write. rewrite Hcall.
    set (c := {| channel := fd; offered := b; returned := n |}).
    set (w1 := after_call Env w e' c).
    rewrite (slice_drop b n) by lia.
    destruct (IH (drop (Z.to_nat n) b) (written + n) w1) as (w2 & cs & Hrun & Hreach & Hcat).
    { rewrite length_drop. unfold byteLength in Hn. lia. }
    exists w2, (c :: cs). split; [|split].
    + rewrite Hrun. do 3 f_equal. unfold byteLength in *. rewrite length_drop. lia.
    + apply (reached_trans fd w [c] w1 cs w2); [|exact Hreach].
      unfold reached, w1; simpl. repeat split. repeat constructor.
    + simpl. rewrite Hcat. unfold accepted, c; simpl. apply take_drop.
Qed.

Lemma iovecs_cons mem ptr i n :
  iovecs mem ptr i (S n) = iovec mem ptr i :: iovecs mem ptr (S i) n.
Proof. reflexivity. Qed.

(** The [for] loop returns once every vector was taken whole. *)
Lemma write_vectors_takes fd (wr : Write Env) (Hwr : takes_some wr) mem ptr fuel :
  (length mem < fuel)%nat ->
  forall left i written w,
    memory w = Some mem ->
    0 <= ptr -> ptr + 8 * Z.of_nat (i + left) <= byteLength mem ->
    Forall (fun v => in_bounds mem (fst v) (snd v) = true) (iovecs mem ptr i left) ->
    exists w' cs,
      write_vectors fuel fd wr ptr left (Z.of_nat i) written w
      = Some (Ok (written + total_length (iovecs mem ptr i left)), w')
      /\ reached fd w cs w'
      /\ concat (map accepted cs) = concat (map (window mem) (iovecs mem ptr i left)).
Proof.
  intros Hfuel. induction left as [|left IH]; intros i written w Hm Hp Hfit Hall.
  - exists w, []. simpl. split; [|split; [apply reached_refl | reflexivity]].
    do 3 f_equal. lia.
  - rewrite iovecs_cons in *. inversion Hall as [|v vs Hv Hvs]; subst.
    cbn [write_vectors].
    assert (Hd0 : getUint32 mem (ptr + Z.of_nat i * 8 + 0)
                  = Ok (fst (iovec mem ptr i))).
    { unfold getUint32. replace (in_bounds _ _ _) with true; [reflexivity|].
      symmetry. apply in_bounds_iff. lia. }
    assert (Hd1 : getUint32 mem (ptr + Z.of_nat i * 8 + 4)
                  = Ok (snd (iovec mem ptr i))).
    { unfold getUint32. replace (in_bounds _ _ _) with true; [reflexivity|].
      symmetry. apply in_bounds_iff. lia. }
    unfold bind at 1. rewrite (view_getUint32_set w mem _ _ Hm Hd0).
    unfold bind at 1. rewrite (view_getUint32_set w mem _ _ Hm Hd1).
    rewrite (new_Uint8Array_set w mem _ _ Hm Hv).
    rewrite <- surjective_pairing.
    set (b := window mem (iovec mem ptr i)).
    assert (Hb : byteLength b = snd (iovec mem ptr i)).
    { unfold b. rewrite (surjective_pairing (iovec mem ptr i)).
      apply window_length. exact Hv. }
    destruct (write_all_takes fd wr Hwr fuel b written w) as (w1 & cs1 & Hrun1 & Hr1 & Hc1).
    { apply in_bounds_iff in Hv. unfold byteLength in *. lia. }
    rewrite Hrun1.
    replace (Z.of_nat i + 1) with (Z.of_nat (S i)) by lia.
    destruct (IH (S i) (written + byteLength b) w1) as (w2 & cs2 & Hrun2 & Hr2 & Hc2); auto.
    { destruct Hr1 as (Hm1 & _). congruence. }
    { lia. }
    exists w2, (cs1 ++ cs2). split; [|split].
    + rewrite Hrun2. do 3 f_equal.
      change (total_length (iovec mem ptr i :: iovecs mem ptr (S i) left))
        with (snd (iovec mem ptr i) + total_length (iovecs mem ptr (S i) left)).
      rewrite Hb. lia.
    + apply (reached_trans fd w cs1 w1 cs2 w2); assumption.
    + rewrite map_app, concat_app, Hc1, Hc2. reflexivity.
Qed.

(** C7, amended: with the memory bound, the vectors and the result
    location inside it, and a consumer that takes at least one and at
    most all of the bytes offered, [fd_write] on descriptor 1 or 2
    returns: every vector is taken whole by invocations of the consumer
    on what is left of it, the sum of the vectors' lengths is written
    (as 32 bits) to the result location, and the call returns 0. *)
Theorem fd_write_takes_every_vector_whole
    w mem fd ciovsptr ciovslen writtenptr :
  memory w = Some mem ->
  fd = 1 \/ fd = 2 ->
  takes_some (if fd =? 1 then stdout w else stderr w) ->
  0 <= ciovslen ->
  in_bounds mem ciovsptr (8 * ciovslen) = true ->
  Forall (fun v => in_bounds mem (fst v) (snd v) = true)
    (iovecs mem ciovsptr 0 (Z.to_nat ciovslen)) ->
  in_bounds mem writtenptr 4 = true ->
  forall fuel, (length mem < fuel)%nat ->
    let vs := iovecs mem ciovsptr 0 (Z.to_nat ciovslen) in
    exists w' cs,
      fd_write fuel fd ciovsptr ciovslen writtenptr w = Some (Ok 0, w')
      /\ calls w' = calls w ++ cs
      /\ Forall (fun c => channel c = fd) cs
      /\ concat (map accepted cs) = concat (map (window mem) vs)
      /\ memory w' = Some (store mem writtenptr (le32 (total_length vs)))
      /\ getUint32 (store mem writtenptr (le32 (total_length vs))) writtenptr
         = Ok (total_length vs mod 4294967296).
Proof.
  intros Hm Hfd Hwr Hn Hvec Hall Hres fuel Hfuel vs.
  apply in_bounds_iff in Hvec.
  set (wr := if fd =? 1 then stdout w else stderr w) in *.
  destruct (write_vectors_takes fd wr Hwr mem ciovsptr fuel Hfuel
              (Z.to_nat ciovslen) 0%nat 0 w Hm) as (w1 & cs & Hrun & Hreach & Hcat);
    [lia | lia | exact Hall |].
  fold vs in Hrun, Hcat.
  destruct Hreach as (Hm1 & Hi1 & Ho1 & He1 & Hc1 & Hf1).
  eexists. exists cs. split.
  - unfold fd_write. rewrite (assertsItIsMemory_set w mem Hm).
    assert (Hsel : (if fd =? 1 then Some (stdout w)
                    else if fd =? 2 then Some (stderr w) else None) = Some wr).
    { unfold wr. destruct Hfd as [-> | ->]; reflexivity. }
    rewrite Hsel. change (Z.of_nat 0) with 0 in Hrun. rewrite Hrun.
    erewrite bind_then
      by (apply (view_setUint32_set w1 mem); [congruence | exact Hres]).
    reflexivity.
  - simpl. repeat split; auto.
    apply (getUint32_store_le32 mem writtenptr _ Hres).
Qed.

End Bridge_write.

(** ** The sample session *)

Lemma parse_stdout_takes_some : takes_some parse_stdout.
Proof.
  intros b e Hb. exists (byteLength b), {| input := input e; output := output e ++ [b] |}.
  split; [reflexivity|]. destruct b; [contradiction|].
  unfold byteLength. simpl. lia.
Qed.

(** A consumer that takes nothing keeps the [while] loop of [fd_write]
    running: no amount of fuel lets it return. *)
Lemma write_all_refused {Env} fd (b : list byte) fuel :
  b <> [] ->
  forall written (w : Wasi Env),
    write_all fuel fd (fun _ e => (Ok 0, e)) b written w = None.
Proof.
  intros Hb. induction fuel as [|fuel IH]; intros written w; [reflexivity|].
  simpl. destruct b as [|x b']; [contradiction|].
  destruct (Z.gtb_spec (byteLength (x :: b')) 0) as [_|Hlen];
    [|unfold byteLength in Hlen; simpl in Hlen; lia].
  unfold call_write.
  replace (slice (x :: b') 0) with (x :: b')
    by (unfold slice; destruct (Z.ltb_spec 0 0); [lia|];
        rewrite Z.min_l by (unfold byteLength; lia); reflexivity).
  apply IH.
Qed.

(** C7 as stated fails: on descriptor 1, with the two vectors of the
    sample memory and a consumer that returns 0, a count the claim allows,
    [fd_write] does not return, however many iterations it is given. *)
Lemma fd_write_never_returns_when_the_consumer_takes_nothing :
  ~ (exists fuel outcome, fd_write fuel 1 0 2 28 Sample.stuck = Some outcome).
Proof.
  intros (fuel & outcome & H).
  unfold fd_write in H.
  rewrite (assertsItIsMemory_set Sample.stuck Sample.memory32 eq_refl) in H.
  change (Z.to_nat 2) with 2%nat in H.
  cbn [Z.eqb Pos.eqb write_vectors] in H.
  unfold bind at 1 in H.
  rewrite (view_getUint32_set Sample.stuck Sample.memory32 (0 + 0 * 8 + 0) 16
             eq_refl eq_refl) in H.
  unfold bind at 1 in H.
  rewrite (view_getUint32_set Sample.stuck Sample.memory32 (0 + 0 * 8 + 4) 4
             eq_refl eq_refl) in H.
  rewrite (new_Uint8Array_set Sample.stuck Sample.memory32 16 4 eq_refl eq_refl) in H.
  change (stdout Sample.stuck) with (fun (_ : list byte) (e : ParseEnv) => (Ok 0, e)) in H.
  rewrite (write_all_refused 1 _ fuel) in H by discriminate.
  discriminate.
Qed.

(** C8 at the sample session: descriptor 3 read, descriptor 0 written. *)
Lemma bad_descriptor_witness :
  fd_read 3 0 2 28 Sample.session = (Ok 8, Sample.session)
  /\ fd_write 5 0 0 2 28 Sample.session = Some (Ok 8, Sample.session).
Proof.
  split.
  - apply (proj1 (bad_descriptor_returns_8_and_touches_nothing
                    Sample.session Sample.memory32 3 0 2 28 eq_refl)).
    discriminate.
  - apply (proj2 (bad_descriptor_returns_8_and_touches_nothing
                    Sample.session Sample.memory32 0 0 2 28 eq_refl));
      discriminate.
Defined.

(** C10 at the sample session. *)
Lemma fd_read_without_vectors_witness :
  fst (fd_read 0 0 0 28 Sample.session) = Ok 0.
Proof.
  destruct (fd_read_without_vectors_writes_zero
              Sample.session Sample.memory32 0 28 eq_refl eq_refl)
    as (w' & Hrun & _).
  rewrite Hrun. reflexivity.
Defined.

(** C6 at the sample session: two vectors passed, one invocation, and
    the four bytes the provider stored are in the first window. *)
Lemma fd_read_first_vector_witness :
  fst (fd_read 0 0 2 28 Sample.session) = Ok 0
  /\ length (calls (snd (fd_read 0 0 2 28 Sample.session))) = 1%nat
  /\ option_map (fun m => window m (16, 4))
       (memory (snd (fd_read 0 0 2 28 Sample.session)))
     = Some (Sample.ascii "abcd").
Proof.
  destruct (fd_read_services_the_first_vector_only
              Sample.session Sample.memory32 0 2 28 16 4 4
              (indexed (Sample.ascii "abcd"))
              {| input := Sample.ascii "ef"; output := [] |}
              eq_refl eq_refl eq_refl eq_refl eq_refl eq_refl eq_refl)
    as (w' & mem' & Hrun & Hcalls & _ & _ & Hmem & _ & _ & _ & _ & _ & _ & Hexact & _).
  rewrite Hrun. simpl. rewrite Hcalls, Hmem, Hexact. repeat split; reflexivity.
Defined.

(** C7, amended, at the sample session, whose [stdout] takes all it is
    offered. *)
Lemma fd_write_witness :
  exists w', fd_write 100 1 0 2 28 Sample.session = Some (Ok 0, w').
Proof.
  destruct (fd_write_takes_every_vector_whole
              Sample.session Sample.memory32 1 0 2 28
              eq_refl (or_introl eq_refl) parse_stdout_takes_some
              ltac:(lia) eq_refl ltac:(repeat constructor) eq_refl
              100%nat ltac:(vm_compute; lia))
    as (w' & cs & Hrun & _).
  exists w'. exact Hrun.
Defined.

Example sample_fd_read :
  let w' := snd (fd_read 0 0 2 28 Sample.session) in
  option_map (fun m => window m (16, 4)) (memory w') = Some (Sample.ascii "abcd")
  /\ option_map (fun m => window m (20, 4)) (memory w') = Some (Sample.ascii "WXYZ")
  /\ option_map (fun m => uint32_at m 28) (memory w') = Some 4
  /\ input (env w') = Sample.ascii "ef".
Proof. vm_compute. auto. Qed.

Example sample_fd_write :
  option_map (fun r => output (env (snd r)))
    (fd_write 100 1 0 2 28 Sample.session)
  = Some [Sample.ascii "wxyz"; Sample.ascii "WXYZ"].
Proof. vm_compute. reflexivity. Qed.

Example sample_memory_not_set :
  fst (fd_read 3 0 0 0 (wasip1 tt)) = Throw MemoryNotSet.
Proof. reflexivity. Qed.

(** ** The layout the decoders read *)

Lemma uint16_at_range data off : u16 (uint16_at data off).
Proof.
  pose proof (at_index_range data off).
  pose proof (at_index_range data (off + 1)).
  unfold u16, uint16_at. lia.
Qed.

Lemma uint32_at_range data off : u32 (uint32_at data off).
Proof.
  pose proof (at_index_range data off).
  pose proof (at_index_range data (off + 1)).
  pose proof (at_index_range data (off + 2)).
  pose proof (at_index_range data (off + 3)).
  unfold u32, uint32_at. lia.
Qed.

Lemma getUint16_inside data off :
  0 <= off -> off + 2 <= byteLength data ->
  getUint16 data off = Ok (uint16_at data off).
Proof.
  intros H0 H2. unfold getUint16.
  replace (in_bounds data off 2) with true; [reflexivity|].
  symmetry. apply in_bounds_iff. lia.
Qed.

Lemma getUint32_inside data off :
  0 <= off -> off + 4 <= byteLength data ->
  getUint32 data off = Ok (uint32_at data off).
Proof.
  intros H0 H4. unfold getUint32.
  replace (in_bounds data off 4) with true; [reflexivity|].
  symmetry. apply in_bounds_iff. lia.
Qed.

Lemma getUint32_value data off v :
  getUint32 data off = Ok v ->
  0 <= off /\ off + 4 <= byteLength data /\ v = uint32_at data off.
Proof.
  intros H. destruct (getUint32_bounds _ _ _ H) as (H0 & H4 & _).
  rewrite (getUint32_inside _ _ H0 H4) in H. injection H as <-. auto.
Qed.

Lemma getUint16_value data off v :
  getUint16 data off = Ok v ->
  0 <= off /\ off + 2 <= byteLength data /\ v = uint16_at data off.
Proof.
  intros H. destruct (getUint16_bounds _ _ _ H) as (H0 & H2 & _).
  rewrite (getUint16_inside _ _ H0 H2) in H. injection H as <-. auto.
Qed.

(** A read runs exactly when its bytes are inside the buffer, and then
    gives the value laid out at the position and moves behind it. *)
Lemma run_U4 {B} buf p (k : Z -> M Reader.t B) :
  0 <= p -> p + 4 <= byteLength buf ->
  bind Reader.readU4 k (Reader.mk buf p)
  = k (uint32_at buf p) (Reader.mk buf (p + 4)).
Proof.
  intros H0 H4. destruct (step_U4 buf p k H0 H4) as (v & Hv & _ & ->).
  apply getUint32_value in Hv as (_ & _ & ->). reflexivity.
Qed.

Lemma run_U2 {B} buf p (k : Z -> M Reader.t B) :
  0 <= p -> p + 2 <= byteLength buf ->
  bind Reader.readU2 k (Reader.mk buf p)
  = k (uint16_at buf p) (Reader.mk buf (p + 2)).
Proof.
  intros H0 H2. destruct (step_U2 buf p k H0 H2) as (v & Hv & _ & ->).
  apply getUint16_value in Hv as (_ & _ & ->). reflexivity.
Qed.

Lemma ran_U4 {B} buf p (k : Z -> M Reader.t B) b r' :
  bind Reader.readU4 k (Reader.mk buf p) = (Ok b, r') ->
  0 <= p /\ p + 4 <= byteLength buf
  /\ k (uint32_at buf p) (Reader.mk buf (p + 4)) = (Ok b, r').
Proof.
  intros H. apply bind_ok in H as (v & r1 & Hrd & H).
  apply readU4_ok in Hrd as (Hv & ->).
  apply getUint32_value in Hv as (H0 & H4 & ->). auto.
Qed.

Lemma ran_U2 {B} buf p (k : Z -> M Reader.t B) b r' :
  bind Reader.readU2 k (Reader.mk buf p) = (Ok b, r') ->
  0 <= p /\ p + 2 <= byteLength buf
  /\ k (uint16_at buf p) (Reader.mk buf (p + 2)) = (Ok b, r').
Proof.
  intros H. apply bind_ok in H as (v & r1 & Hrd & H).
  unfold Reader.readU2 in Hrd. simpl in Hrd.
  destruct (_ >? _); [discriminate|].
  destruct (getUint16 buf p) as [v'|] eqn:Hv; [|discriminate].
  injection Hrd as <- <-.
  apply getUint16_value in Hv as (H0 & H2 & ->). auto.
Qed.

Lemma ran_bytes {B} buf p n (k : list byte -> M Reader.t B) b r' :
  bind (Reader.readBytes n) k (Reader.mk buf p) = (Ok b, r') ->
  0 <= p /\ 0 <= n /\ p + n <= byteLength buf
  /\ k (bytes_at buf p n) (Reader.mk buf (p + n)) = (Ok b, r').
Proof.
  intros H. apply bind_ok in H as (v & r1 & Hrd & H).
  unfold Reader.readBytes, subarray in Hrd. simpl in Hrd.
  destruct (_ >? _); [discriminate|].
  destruct (in_bounds buf p n) eqn:Hb; [|discriminate].
  injection Hrd as <- <-. apply in_bounds_iff in Hb.
  repeat split; try apply Hb. exact H.
Qed.

Lemma ran_string {B} decode buf p n (k : string -> M Reader.t B) b r' :
  bind (readString decode n) k (Reader.mk buf p) = (Ok b, r') ->
  0 <= p /\ 0 <= n /\ p + n <= byteLength buf
  /\ k (decode (bytes_at buf p n)) (Reader.mk buf (p + n)) = (Ok b, r').
Proof.
  intros H. apply bind_ok in H as (v & r1 & Hrd & H).
  unfold readString in Hrd.
  apply ran_bytes in Hrd as (H0 & Hn & Hb & Hret).
  injection Hret as <- <-. auto.
Qed.

Ltac tidy_position_in H :=
  repeat match type of H with
    | context [?x + Zpos ?a + Zpos ?s] =>
        let c := eval compute in (Zpos a + Zpos s) in
        replace (x + Zpos a + Zpos s) with (x + c) in H by lia
    end.

(** Undo the next read of a decoder that returned. *)
Ltac unread H :=
  let Hb := fresh "Hb" in
  first
    [ apply ran_U4 in H as (_ & Hb & H)
    | apply ran_U2 in H as (_ & Hb & H)
    | apply ran_string in H as (_ & _ & Hb & H)
    | apply ran_bytes in H as (_ & _ & Hb & H) ];
  tidy_position_in H.

(** Run the next read of a decoder whose bytes fit. *)
Ltac reread :=
  first
    [ rewrite run_U4 by lia
    | rewrite run_U2 by lia
    | rewrite step_string by lia
    | rewrite step_bytes by lia ];
  tidy_position.

Section Layout.

Variable decode : list byte -> string.

Lemma readEndOfCentralDirectoryRecord_ran buf p eocd r' :
  readEndOfCentralDirectoryRecord (Reader.mk buf p) = (Ok eocd, r') ->
  getUint32 buf p = Ok 0x06054b50
  /\ p + 22 <= byteLength buf
  /\ uint16_at buf (p + 20) = 0
  /\ eocd = trailer_at buf p
  /\ r' = Reader.mk buf (p + 22).
Proof.
  intros H. unfold readEndOfCentralDirectoryRecord in H.
  apply ran_U4 in H as (H0 & H4 & H).
  destruct (Z.eqb_spec (uint32_at buf p) 0x06054b50) as [Hsig|];
    cbn [negb] in H; [|discriminate].
  do 7 unread H.
  destruct (Z.eqb_spec (uint16_at buf (p + 20)) 0) as [Hc|];
    cbn [negb] in H; [|discriminate].
  injection H as <- <-.
  rewrite <- Hsig. rewrite (getUint32_inside _ _ H0 H4).
  repeat split; auto. lia.
Qed.

Lemma readEndOfCentralDirectoryRecord_runs buf p :
  getUint32 buf p = Ok 0x06054b50 ->
  p + 22 <= byteLength buf ->
  uint16_at buf (p + 20) = 0 ->
  readEndOfCentralDirectoryRecord (Reader.mk buf p)
  = (Ok (trailer_at buf p), Reader.mk buf (p + 22)).
Proof.
  intros Hsig Hfit Hc.
  apply getUint32_value in Hsig as (H0 & _ & Hsig).
  unfold readEndOfCentralDirectoryRecord.
  reread. rewrite <- Hsig. cbn [Z.eqb Pos.eqb negb].
  do 7 reread.
  unfold trailer_at. rewrite Hc. reflexivity.
Qed.

Lemma readCentralDirectoryEntry_ran buf p cde r' :
  readCentralDirectoryEntry decode (Reader.mk buf p) = (Ok cde, r') ->
  getUint32 buf p = Ok 0x02014b50
  /\ p + central_entry_size buf p <= byteLength buf
  /\ cde = central_entry_at decode buf p
  /\ r' = Reader.mk buf (p + central_entry_size buf p).
Proof.
  unfold central_entry_size.
  intros H. unfold readCentralDirectoryEntry in H.
  apply ran_U4 in H as (H0 & H4 & H).
  destruct (Z.eqb_spec (uint32_at buf p) 0x02014b50) as [Hsig|];
    cbn [negb] in H; [|discriminate].
  do 19 unread H.
  injection H as <- <-.
  rewrite <- Hsig. rewrite (getUint32_inside _ _ H0 H4).
  repeat split; auto; try lia. f_equal. lia.
Qed.

Lemma readCentralDirectoryEntry_runs buf p :
  getUint32 buf p = Ok 0x02014b50 ->
  p + central_entry_size buf p <= byteLength buf ->
  readCentralDirectoryEntry decode (Reader.mk buf p)
  = (Ok (central_entry_at decode buf p),
     Reader.mk buf (p + central_entry_size buf p)).
Proof.
  unfold central_entry_size.
  intros Hsig Hfit. rewrite !Z.add_assoc in *.
  apply getUint32_value in Hsig as (H0 & _ & Hsig).
  pose proof (uint16_at_range buf (p + 28)) as Hn.
  pose proof (uint16_at_range buf (p + 30)) as Hx.
  pose proof (uint16_at_range buf (p + 32)) as Hc.
  unfold u16 in Hn, Hx, Hc.
  unfold readCentralDirectoryEntry.
  reread. rewrite <- Hsig. cbn [Z.eqb Pos.eqb negb].
  do 19 reread.
  reflexivity.
Qed.

Lemma readLocalFileHeader_ran buf p hdr r' :
  readLocalFileHeader decode (Reader.mk buf p) = (Ok hdr, r') ->
  getUint32 buf p = Ok 0x04034b50
  /\ p + local_header_size buf p <= byteLength buf
  /\ hdr = local_header_at decode buf p
  /\ r' = Reader.mk buf (p + local_header_size buf p).
Proof.
  unfold local_header_size.
  intros H. unfold readLocalFileHeader in H.
  apply ran_U4 in H as (H0 & H4 & H).
  destruct (Z.eqb_spec (uint32_at buf p) 0x04034b50) as [Hsig|];
    cbn [negb] in H; [|discriminate].
  do 12 unread H.
  injection H as <- <-.
  rewrite <- Hsig. rewrite (getUint32_inside _ _ H0 H4).
  repeat split; auto; try lia. f_equal. lia.
Qed.

Lemma readLocalFileHeader_runs buf p :
  getUint32 buf p = Ok 0x04034b50 ->
  p + local_header_size buf p <= byteLength buf ->
  readLocalFileHeader decode (Reader.mk buf p)
  = (Ok (local_header_at decode buf p),
     Reader.mk buf (p + local_header_size buf p)).
Proof.
  unfold local_header_size.
  intros Hsig Hfit. rewrite !Z.add_assoc in *.
  apply getUint32_value in Hsig as (H0 & _ & Hsig).
  pose proof (uint16_at_range buf (p + 26)) as Hn.
  pose proof (uint16_at_range buf (p + 28)) as Hx.
  unfold u16 in Hn, Hx.
  unfold readLocalFileHeader.
  reread. rewrite <- Hsig. cbn [Z.eqb Pos.eqb negb].
  do 12 reread.
  reflexivity.
Qed.

(** X1: [readEndOfCentralDirectoryRecord] returns exactly when the
    signature is at the position, the 22 bytes of the record fit and its
    comment length is 0; it then gives the fields laid out at the
    documented offsets and leaves the reader 22 bytes further. *)
Theorem readEndOfCentralDirectoryRecord_layout buf p eocd r' :
  readEndOfCentralDirectoryRecord (Reader.mk buf p) = (Ok eocd, r') <->
  getUint32 buf p = Ok 0x06054b50
  /\ p + 22 <= byteLength buf
  /\ uint16_at buf (p + 20) = 0
  /\ eocd = trailer_at buf p
  /\ r' = Reader.mk buf (p + 22).
Proof.
  split.
  - apply readEndOfCentralDirectoryRecord_ran.
  - intros (Hsig & Hfit & Hc & -> & ->).
    apply readEndOfCentralDirectoryRecord_runs; assumption.
Qed.

(** X2: [readCentralDirectoryEntry] returns exactly when the signature
    is at the position and the 46 fixed bytes with the name, extra field
    and comment fit; it then gives the fields laid out at the documented
    offsets and leaves the reader right behind the comment. *)
Theorem readCentralDirectoryEntry_layout buf p cde r' :
  readCentralDirectoryEntry decode (Reader.mk buf p) = (Ok cde, r') <->
  getUint32 buf p = Ok 0x02014b50
  /\ p + central_entry_size buf p <= byteLength buf
  /\ cde = central_entry_at decode buf p
  /\ r' = Reader.mk buf (p + central_entry_size buf p).
Proof.
  split.
  - apply readCentralDirectoryEntry_ran.
  - intros (Hsig & Hfit & -> & ->).
    apply readCentralDirectoryEntry_runs; assumption.
Qed.

(** X3: [readLocalFileHeader] returns exactly when its own signature is
    at the position and the 30 fixed bytes with the name and the extra
    field fit; it then gives the fields laid out at the documented
    offsets and leaves the reader at the first byte of the entry. *)
Theorem readLocalFileHeader_layout buf p hdr r' :
  readLocalFileHeader decode (Reader.mk buf p) = (Ok hdr, r') <->
  getUint32 buf p = Ok 0x04034b50
  /\ p + local_header_size buf p <= byteLength buf
  /\ hdr = local_header_at decode buf p
  /\ r' = Reader.mk buf (p + local_header_size buf p).
Proof.
  split.
  - apply readLocalFileHeader_ran.
  - intros (Hsig & Hfit & -> & ->).
    apply readLocalFileHeader_runs; assumption.
Qed.

End Layout.

(** ** More on opening an archive *)

Section Unzip_more.

Variable decode : list byte -> string.

(** X4: a trailer in the last 22 bytes whose comment length is not 0
    makes [unzip] throw [NotImplemented], after the whole trailer was
    read: archives with a comment are not supported. *)
Theorem unzip_rejects_a_comment_length buf :
  22 <= byteLength buf ->
  getUint32 buf (byteLength buf - 22) = Ok 0x06054b50 ->
  uint16_at buf (byteLength buf - 2) <> 0 ->
  unzip decode buf = (Throw NotImplemented, Reader.mk buf (byteLength buf)).
Proof.
  intros Hn Hsig Hc. set (n := byteLength buf) in *.
  apply getUint32_value in Hsig as (H0 & _ & Hsig).
  unfold unzip. rewrite (bind_then _ _ _ _ _ (seek_trailer buf Hn)).
  apply bind_throw. fold n. unfold Reader.new, Reader.set_pos; simpl.
  unfold readEndOfCentralDirectoryRecord.
  reread. rewrite <- Hsig. cbn [Z.eqb Pos.eqb negb].
  do 7 reread.
  replace (n - 22 + 20) with (n - 2) by lia.
  destruct (Z.eqb_spec (uint16_at buf (n - 2)) 0) as [|_]; [contradiction|].
  cbn [negb]. unfold throw. do 2 f_equal. lia.
Qed.

Lemma get_empty_object k : get empty_object k = None.
Proof. unfold get, empty_object. destruct (is_proto_key k); reflexivity. Qed.

Lemma get_assign_all_absent es k :
  Forall (fun e => fileName e <> k) es ->
  get (assign_all empty_object es) k = None.
Proof.
  intros H. rewrite get_assign_all_other by exact H. apply get_empty_object.
Qed.

Lemma get_assign_all_present es k :
  Exists (fun e => fileName e = k) es ->
  exists cde, In cde es /\ fileName cde = k
              /\ get (assign_all empty_object es) k = Some (entry_of cde).
Proof.
  intros Hex.
  destruct (last_of_name es k Hex) as (pre & cde & post & -> & Hk & Hpost).
  exists cde. repeat split; auto.
  - apply in_or_app. right. left. reflexivity.
  - rewrite <- Hk. apply get_assign_all_last. rewrite Hk. exact Hpost.
Qed.

Lemma own_assign_all es : forall records k,
  own (assign_all records es) !! k
  = if is_proto_key k then own records !! k
    else get (assign_all records es) k.
Proof.
  induction es as [|cde es IH]; intros records k.
  - unfold get. simpl. destruct (is_proto_key k); reflexivity.
  - change (assign_all records (cde :: es))
      with (assign_all (assign records (fileName cde) (entry_of cde)) es).
    rewrite IH. destruct (is_proto_key k) eqn:Hk; [|reflexivity].
    unfold assign. destruct (is_proto_key (fileName cde)) eqn:Hc; simpl;
      [reflexivity|].
    apply lookup_insert_ne. intros Heq. congruence.
Qed.

Lemma is_proto_key_iff k : is_proto_key k = true <-> k = "__proto__".
Proof. unfold is_proto_key. apply String.eqb_eq. Qed.

(** X5: the properties the catalog [unzip] returns has of its own (what
    [Object.keys], [Object.values] and [hasOwnProperty] see) are the
    names of the central directory other than [__proto__]; a read of an
    own property gives its entry; and a read at any name of the
    directory, [__proto__] too, gives an entry under that name that was
    made from a directory entry of that name. *)
Theorem catalog_has_the_names_of_the_directory buf records r :
  unzip decode buf = (Ok records, r) ->
  exists eocd es,
    central_directory decode buf eocd es r
    /\ forall k,
         (own records !! k = None
          <-> k = "__proto__" \/ Forall (fun e => fileName e <> k) es)
         /\ (forall e, own records !! k = Some e -> get records k = Some e)
         /\ (Exists (fun e => fileName e = k) es ->
             exists e, get records k = Some e /\ name e = k
                       /\ In (captured e) es /\ fileName (captured e) = k).
Proof.
  intros H. apply unzip_ok_iff in H as (eocd & es & Hdir & ->).
  exists eocd, es. split; [exact Hdir|]. intros k.
  assert (Hdec : forall x : CentralDirectoryEntry,
             {fileName x = k} + {fileName x <> k})
    by (intros x; apply String.string_dec).
  rewrite own_assign_all.
  split; [|split].
  - destruct (is_proto_key k) eqn:Hk.
    + apply is_proto_key_iff in Hk. simpl. rewrite lookup_empty. tauto.
    + assert (Hne : k <> "__proto__")
        by (intros Heq; apply is_proto_key_iff in Heq; congruence).
      destruct (List.Exists_dec (fun e => fileName e = k) es Hdec) as [Hex|Hno].
      * destruct (get_assign_all_present es k Hex) as (cde & Hin & Hn & Hget).
        rewrite Hget. split; [discriminate|]. intros [Heq|Hall]; [contradiction|].
        exfalso. rewrite List.Forall_forall in Hall. exact (Hall cde Hin Hn).
      * apply Forall_Exists_neg in Hno.
        rewrite (get_assign_all_absent es k Hno). split; auto.
  - destruct (is_proto_key k); [|auto].
    simpl. rewrite lookup_empty. discriminate.
  - intros Hex.
    destruct (get_assign_all_present es k Hex) as (cde & Hin & Hn & Hget).
    exists (entry_of cde). simpl. auto.
Qed.

End Unzip_more.

(** X4 at a trailer with comment length 1. *)
Lemma unzip_rejects_a_comment_length_witness :
  unzip Sample.ascii_decode Sample.commented
  = (Throw NotImplemented, Reader.mk Sample.commented 22).
Proof.
  apply (unzip_rejects_a_comment_length Sample.ascii_decode Sample.commented).
  - vm_compute. discriminate.
  - reflexivity.
  - vm_compute. discriminate.
Defined.

(** X5 at the sample archive. *)
Lemma catalog_has_the_names_witness :
  exists eocd es,
    central_directory Sample.ascii_decode Sample.archive eocd es Sample.reader
    /\ forall k,
         (own Sample.catalog !! k = None
          <-> k = "__proto__" \/ Forall (fun e => fileName e <> k) es)
         /\ (forall e, own Sample.catalog !! k = Some e ->
               get Sample.catalog k = Some e)
         /\ (Exists (fun e => fileName e = k) es ->
             exists e, get Sample.catalog k = Some e /\ name e = k
                       /\ In (captured e) es /\ fileName (captured e) = k).
Proof.
  apply (catalog_has_the_names_of_the_directory
           Sample.ascii_decode Sample.archive).
  vm_compute. reflexivity.
Defined.

(** ** The bytes [unzip] goes by *)

Section Unzip_layout.

Variable decode : list byte -> string.

Lemma length_directory_at buf n : forall p,
  length (directory_at decode buf p n) = n.
Proof. induction n as [|n IH]; intros p; simpl; [|rewrite IH]; reflexivity. Qed.

Lemma iterates_laid_out buf es : forall p r',
  iterates decode (Reader.mk buf p) es r' ->
  directory_fits buf p (length es)
  /\ es = directory_at decode buf p (length es)
  /\ r' = Reader.mk buf (directory_end buf p (length es)).
Proof.
  induction es as [|cde es IH]; intros p r' Hit; inversion Hit; subst.
  - simpl. auto.
  - match goal with
    | H : readCentralDirectoryEntry _ _ = _ |- _ =>
        apply readCentralDirectoryEntry_ran in H as (Hsig & Hfit & -> & ->)
    end.
    match goal with
    | H : iterates _ _ es _ |- _ => apply IH in H as (Hfits & Hes & ->)
    end.
    simpl. repeat split; auto. f_equal. exact Hes.
Qed.

Lemma laid_out_iterates buf n : forall p,
  directory_fits buf p n ->
  iterates decode (Reader.mk buf p) (directory_at decode buf p n)
    (Reader.mk buf (directory_end buf p n)).
Proof.
  induction n as [|n IH]; intros p Hfits; simpl.
  - constructor.
  - destruct Hfits as (Hsig & Hfit & Hfits).
    econstructor; [exact Hsig | | apply IH; exact Hfits].
    apply readCentralDirectoryEntry_runs; assumption.
Qed.

(** X16: [unzip] goes by three fields of the last 22 bytes and by the
    entries they point at, and by nothing else in the buffer.  It returns
    exactly when the last 22 bytes start with the trailer's signature and
    end in a comment length of 0, the offset at their byte 16 is not
    beyond the buffer, and from that offset as many entries as the
    this-disk count at their byte 8 are laid out one behind the other,
    each with its signature and inside the buffer; the catalog is then
    the in-order assignment of exactly these entries and the reader is
    left behind the last of them.  The other counts and the size of the
    directory the trailer states are not looked at. *)
Theorem unzip_goes_by_the_trailer_and_the_entries_it_points_at buf records r :
  let n := byteLength buf in
  let count := Z.to_nat (uint16_at buf (n - 14)) in
  let off := uint32_at buf (n - 6) in
  unzip decode buf = (Ok records, r) <->
  22 <= n
  /\ getUint32 buf (n - 22) = Ok 0x06054b50
  /\ uint16_at buf (n - 2) = 0
  /\ off <= n
  /\ directory_fits buf off count
  /\ records = assign_all empty_object (directory_at decode buf off count)
  /\ r = Reader.mk buf (directory_end buf off count).
Proof.
  intros n count off.
  assert (Hfields :
            totalNumberOfEntriesInTheCentralDirectoryOnThisDisk
              (trailer_at buf (n - 22)) = uint16_at buf (n - 14)
            /\ offsetOfStartOfCentralDirectoryWithRespectToTheStartingDiskNumber
                 (trailer_at buf (n - 22)) = off
            /\ dotZipFileCommentLength (trailer_at buf (n - 22))
               = uint16_at buf (n - 2)).
  { unfold trailer_at, off; simpl. repeat split; f_equal; lia. }
  destruct Hfields as (Hcount & Hoff & Hcomment).
  rewrite unzip_ok_iff. split.
  - intros (eocd & es & (Hn & He & Hle & Hit & Hlen) & ->). fold n in Hn, He, Hle.
    apply readEndOfCentralDirectoryRecord_ran in He as (Hsig & _ & Hc & -> & _).
    change (Reader.view (Reader.new buf)) with buf in *.
    rewrite Hcount in Hlen. rewrite Hoff in Hle, Hit.
    change (Reader.set_pos (Reader.new buf) off) with (Reader.mk buf off) in Hit.
    assert (Hes : length es = count) by (unfold count; lia).
    apply iterates_laid_out in Hit as (Hfits & Hes' & ->).
    rewrite Hes in *.
    replace (n - 22 + 20) with (n - 2) in Hc by lia.
    repeat split; auto. f_equal. exact Hes'.
  - intros (Hn & Hsig & Hc & Hle & Hfits & -> & ->).
    exists (trailer_at buf (n - 22)), (directory_at decode buf off count).
    split; [|reflexivity].
    unfold central_directory. fold n. rewrite Hoff.
    split; [exact Hn|]. split.
    { unfold Reader.new, Reader.set_pos; simpl.
      rewrite readEndOfCentralDirectoryRecord_runs;
        [do 2 f_equal; lia | exact Hsig | fold n; lia |].
      replace (n - 22 + 20) with (n - 2) by lia. exact Hc. }
    split; [exact Hle|]. split.
    { apply laid_out_iterates. exact Hfits. }
    rewrite length_directory_at, Hcount. unfold count.
    pose proof (uint16_at_range buf (n - 14)) as Hu. unfold u16 in Hu. lia.
Qed.

End Unzip_layout.

(** The sample archive has its three entries laid out from byte 98, and
    an archive that is a trailer alone opens to the empty catalog. *)
Example sample_unzip_layout :
  uint32_at Sample.archive (byteLength Sample.archive - 6) = 98
  /\ directory_at Sample.ascii_decode Sample.archive 98 3
     = [Sample.stored_entry; Sample.unsupported_entry; Sample.deflated_entry]
  /\ unzip Sample.ascii_decode Sample.empty_archive
     = (Ok empty_object, Reader.mk Sample.empty_archive 0).
Proof. vm_compute. auto. Qed.

(** ** More on opening an entry *)

Section Open_more.

Variable decode : list byte -> string.

Lemma get_assign_all_from es k e :
  get (assign_all empty_object es) k = Some e ->
  exists cde, In cde es /\ e = entry_of cde.
Proof.
  intros Hget.
  assert (Hdec : forall x : CentralDirectoryEntry,
             {fileName x = k} + {fileName x <> k})
    by (intros x; apply String.string_dec).
  destruct (List.Exists_dec (fun e => fileName e = k) es Hdec) as [Hex|Hno].
  - destruct (get_assign_all_present es k Hex) as (cde & Hin & _ & Hget').
    exists cde. split; [exact Hin | congruence].
  - apply Forall_Exists_neg in Hno.
    rewrite (get_assign_all_absent es k Hno) in Hget. discriminate.
Qed.

(** [open] of an entry whose numbers are unsigned never addresses the
    buffer outside its bounds, wherever the reader stands. *)
Lemma open_in_bounds cde r1 :
  cde_ranges cde ->
  match open decode cde r1 with
  | (Ok _, r2) => wf r2 /\ Reader.view r2 = Reader.view r1
  | (Throw err, r2) =>
      (parse_error err \/ err = NotSupported (compressionMethod cde))
      /\ err <> RangeError /\ Reader.view r2 = Reader.view r1
  end.
Proof.
  intros (_ & Hsize & Hoff). unfold u32 in Hsize, Hoff. unfold open.
  set (off := relativeOffsetOfLocalHeader cde) in *.
  destruct (seek_spec off r1) as (_ & Hbig & Hok).
  destruct (Z.ltb_spec off 0) as [Hneg|_]; [lia|].
  destruct (Z.lt_ge_cases (Reader.len r1) off) as [Hq|Hq].
  { rewrite (bind_throw _ _ _ _ _ (Hbig Hq)). simpl. repeat split; auto; discriminate. }
  rewrite (bind_then _ _ _ _ _ (Hok ltac:(lia))).
  assert (Hw : wf (Reader.set_pos r1 off)) by (unfold wf, Reader.len in *; simpl; lia).
  assert (Hs : safe
                 (readLocalFileHeader decode ;;;
                  Reader.readBytes (compressedSize cde))
                 (fun _ => True)).
  { eapply safe_bind;
      [apply (advances_safe _ _ _ (advances_readLocalFileHeader decode))|].
    intros _ _.
    eapply advances_safe, advances_weaken;
      [| |apply (advances_readBytes _ (proj1 Hsize))]; [reflexivity | auto]. }
  specialize (Hs _ Hw). unfold bind in Hs |- *.
  destruct (readLocalFileHeader decode (Reader.set_pos r1 off)) as [[hdr|e] r2].
  - destruct (Reader.readBytes (compressedSize cde) r2) as [[bytes|e] r3].
    + destruct Hs as (_ & Hw3 & Hv3). simpl in Hv3.
      destruct (compressionMethod cde =? 0); [simpl; auto|].
      destruct (compressionMethod cde =? 8); [simpl; auto|].
      simpl. repeat split; auto; discriminate.
    + destruct Hs as (He & _ & Hv3). simpl in Hv3.
      repeat split; auto; intros ->; exact He.
  - destruct Hs as (He & _ & Hv2). simpl in Hv2.
    repeat split; auto; intros ->; exact He.
Qed.

(** X6: [open] on an entry of the catalog [unzip] returned, from any
    position of the shared reader, either returns or throws one of the
    cursor's and decoders' own exceptions or [NotSupported] for the
    entry's method: it never addresses the buffer outside its bounds,
    and it leaves the buffer as it is. *)
Theorem open_of_a_catalog_entry_stays_in_bounds buf records r k e r1 :
  unzip decode buf = (Ok records, r) ->
  get records k = Some e ->
  Reader.view r1 = buf ->
  match open decode (captured e) r1 with
  | (Ok _, r2) => wf r2 /\ Reader.view r2 = buf
  | (Throw err, r2) =>
      (parse_error err \/ err = NotSupported (compressionMethod (captured e)))
      /\ err <> RangeError /\ Reader.view r2 = buf
  end.
Proof.
  intros H Hget Hv.
  apply unzip_ok_iff in H as (eocd & es & (Hn & He & Hoff & Hit & Hes) & ->).
  apply get_assign_all_from in Hget as (cde & Hin & ->). simpl.
  pose proof (advances_readEndOfCentralDirectoryRecord _ (wf_at_trailer buf Hn)) as Hadv.
  rewrite He in Hadv. destruct Hadv as ((_ & Hoff') & _). unfold u32 in Hoff'.
  apply iterates_advances in Hit as (_ & _ & _ & Hall);
    [|unfold wf, Reader.len; simpl; lia].
  rewrite List.Forall_forall in Hall.
  pose proof (open_in_bounds cde r1 (Hall cde Hin)) as Hopen.
  rewrite Hv in Hopen. exact Hopen.
Qed.

(** X7: what [open] throws when the entry's bytes are not in place,
    whatever the method of the entry: [SeekPastEnd] for an offset beyond
    the buffer, [SignatureMismatch] when the four bytes at the offset are
    not the local file header's signature, and [ReadPastEnd] when the
    header is there and the compressed size runs over the end. *)
Theorem open_failure_modes cde buf p0 :
  let off := relativeOffsetOfLocalHeader cde in
  let data := off + local_header_size buf off in
  (byteLength buf < off ->
   open decode cde (Reader.mk buf p0)
   = (Throw (SeekPastEnd off), Reader.mk buf p0))
  /\ (0 <= off -> off + 4 <= byteLength buf ->
      uint32_at buf off <> 0x04034b50 ->
      open decode cde (Reader.mk buf p0)
      = (Throw SignatureMismatch, Reader.mk buf (off + 4)))
  /\ (getUint32 buf off = Ok 0x04034b50 ->
      data <= byteLength buf ->
      byteLength buf < data + compressedSize cde ->
      open decode cde (Reader.mk buf p0)
      = (Throw (ReadPastEnd data (compressedSize cde) (byteLength buf)),
         Reader.mk buf data)).
Proof.
  intros off data.
  assert (Hseek : 0 <= off <= byteLength buf ->
                  Reader.seek off (Reader.mk buf p0) = (Ok tt, Reader.mk buf off)).
  { intros Hq. destruct (seek_spec off (Reader.mk buf p0)) as (_ & _ & Hok).
    destruct (Z.ltb_spec off 0) as [Hneg|_]; [lia|]. apply Hok. exact Hq. }
  repeat split.
  - intros Hbig. unfold open. fold off. apply bind_throw.
    pose proof (byteLength_nonneg buf).
    destruct (seek_spec off (Reader.mk buf p0)) as (_ & Hpast & _).
    destruct (Z.ltb_spec off 0) as [Hneg|_]; [lia|]. apply Hpast. exact Hbig.
  - intros H0 H4 Hsig. unfold open. fold off.
    rewrite (bind_then _ _ _ _ _ (Hseek ltac:(lia))).
    apply bind_throw. unfold readLocalFileHeader.
    reread.
    destruct (Z.eqb_spec (uint32_at buf off) 0x04034b50) as [|_]; [contradiction|].
    reflexivity.
  - intros Hsig Hfit Hover. unfold open. fold off.
    destruct (getUint32_value _ _ _ Hsig) as (H0 & H4 & _).
    pose proof (uint16_at_range buf (off + 26)) as Hn.
    pose proof (uint16_at_range buf (off + 28)) as Hx.
    unfold u16 in Hn, Hx. unfold data, local_header_size in *.
    rewrite (bind_then _ _ _ _ _ (Hseek ltac:(lia))).
    assert (Hhdr : readLocalFileHeader decode (Reader.mk buf off)
                   = (Ok (local_header_at decode buf off),
                      Reader.mk buf (off + local_header_size buf off))).
    { apply readLocalFileHeader_runs; [exact Hsig|]. unfold local_header_size. exact Hfit. }
    rewrite (bind_then _ _ _ _ _ Hhdr).
    apply bind_throw. unfold local_header_size.
    destruct (readBytes_spec (compressedSize cde)
                (Reader.mk buf
                   (off + (30 + uint16_at buf (off + 26) + uint16_at buf (off + 28)))))
      as [Hfail _].
    apply Hfail. unfold Reader.len; simpl. lia.
Qed.

(** X8: for an entry whose directory record has method 8 (deflate), with
    its local file header and bytes in place, [open] gives the
    [DecompressionStream("deflate-raw")] fed with exactly the
    [compressedSize] bytes behind the local file header. *)
Theorem open_deflated_pipes_the_bytes_behind_the_header buf cde nlen xlen p0 :
  compressionMethod cde = 8 ->
  local_file_at buf cde nlen xlen ->
  let bytes :=
    bytes_at buf (relativeOffsetOfLocalHeader cde + 30 + nlen + xlen)
      (compressedSize cde) in
  fst (open decode cde (Reader.mk buf p0)) = Ok (DeflateRawStream bytes)
  /\ byteLength bytes = compressedSize cde.
Proof.
  intros Hm Hat bytes. rewrite (open_at decode _ _ _ _ p0 Hat). rewrite Hm. simpl.
  split; [reflexivity|].
  destruct Hat as (Hsig & Hn & Hx & Hsize & Hfit).
  destruct (getUint32_bounds _ _ _ Hsig) as (Hoff & _ & _).
  destruct (getUint16_bounds _ _ _ Hn) as (_ & _ & Hnu).
  destruct (getUint16_bounds _ _ _ Hx) as (_ & _ & Hxu).
  unfold u16 in Hnu, Hxu.
  apply payload_length; lia.
Qed.

End Open_more.

(** X6 at the sample archive: the unsupported entry [b], from the
    reader [unzip] left. *)
Lemma open_of_a_catalog_entry_witness :
  match open Sample.ascii_decode Sample.unsupported_entry Sample.reader with
  | (Ok _, r2) => wf r2 /\ Reader.view r2 = Sample.archive
  | (Throw err, r2) =>
      (parse_error err \/ err = NotSupported 99)
      /\ err <> RangeError /\ Reader.view r2 = Sample.archive
  end.
Proof.
  exact (open_of_a_catalog_entry_stays_in_bounds Sample.ascii_decode
           Sample.archive Sample.catalog Sample.reader "b"
           (entry_of Sample.unsupported_entry) Sample.reader
           eq_refl eq_refl eq_refl).
Defined.

Lemma sample_deflated_in_place :
  local_file_at Sample.archive Sample.deflated_entry 1 0.
Proof.
  unfold local_file_at. repeat split; try (vm_compute; reflexivity);
    vm_compute; discriminate.
Qed.

(** X8 at the sample archive: the deflated entry [a]. *)
Lemma open_deflated_witness :
  fst (open Sample.ascii_decode Sample.deflated_entry (Reader.mk Sample.archive 0))
  = Ok (DeflateRawStream (Sample.ascii "zz"))
  /\ byteLength (Sample.ascii "zz") = 2.
Proof.
  exact (open_deflated_pipes_the_bytes_behind_the_header Sample.ascii_decode
           Sample.archive Sample.deflated_entry 1 0 0
           eq_refl sample_deflated_in_place).
Defined.

Example sample_open_failures :
  fst (open Sample.ascii_decode (Sample.entry 0 "a" 2 1000) Sample.reader)
  = Throw (SeekPastEnd 1000)
  /\ fst (open Sample.ascii_decode (Sample.entry 99 "a" 2 1) Sample.reader)
     = Throw SignatureMismatch
  /\ fst (open Sample.ascii_decode (Sample.entry 0 "a" 1000 0) Sample.reader)
     = Throw (ReadPastEnd 31 1000 261).
Proof. vm_compute. auto. Qed.

(** ** The environment query *)

Lemma at_index_store data off bytes a :
  in_bounds data off (byteLength bytes) = true -> 0 <= a ->
  at_index (store data off bytes) a
  = if (off <=? a) && (a <? off + byteLength bytes)
    then u8 (nth (Z.to_nat (a - off)) bytes x00)
    else at_index data a.
Proof.
  intros Hb Ha.
  destruct (Z.leb_spec off a) as [Hlo|Hlo]; simpl.
  - destruct (Z.ltb_spec a (off + byteLength bytes)) as [Hhi|Hhi].
    + replace a with (off + (a - off)) at 1 by lia.
      apply store_at_index_inside; [exact Hb | lia].
    + unfold at_index. f_equal. rewrite !nth_lookup. f_equal.
      replace a with (Z.of_nat (Z.to_nat a)) in Hhi by lia.
      apply (store_lookup_outside _ _ _ _ Hb). lia.
  - unfold at_index. f_equal. rewrite !nth_lookup. f_equal.
    replace a with (Z.of_nat (Z.to_nat a)) in Hlo by lia.
    apply (store_lookup_outside _ _ _ _ Hb). lia.
Qed.

Lemma le32_zero : le32 0 = [x00; x00; x00; x00].
Proof. reflexivity. Qed.

Lemma nth_zeros (k : nat) : u8 (nth k [x00; x00; x00; x00] x00) = 0.
Proof. do 5 (destruct k as [|k]; [reflexivity|]). reflexivity. Qed.

Section Bridge_environ.

Context {Env : Type}.
Implicit Types w : Wasi Env.

(** X9: with the memory bound, [environ_sizes_get] writes the count 0 to
    both locations and returns 0, changing nothing else and invoking no
    callback; both locations read 0 afterwards, also when they overlap.
    When the second location is outside the memory, the platform's
    [RangeError] comes after the first location was already written. *)
Theorem environ_sizes_get_reports_nothing w mem environcptr environbufptr :
  memory w = Some mem ->
  in_bounds mem environcptr 4 = true ->
  (in_bounds mem environbufptr 4 = true ->
   exists w' mem',
     environ_sizes_get environcptr environbufptr w = (Ok 0, w')
     /\ memory w' = Some mem'
     /\ getUint32 mem' environcptr = Ok 0
     /\ getUint32 mem' environbufptr = Ok 0
     /\ length mem' = length mem
     /\ (forall a : nat,
           ~ (environcptr <= Z.of_nat a < environcptr + 4) ->
           ~ (environbufptr <= Z.of_nat a < environbufptr + 4) ->
           mem' !! a = mem !! a)
     /\ env w' = env w /\ calls w' = calls w
     /\ stdin w' = stdin w /\ stdout w' = stdout w /\ stderr w' = stderr w)
  /\ (in_bounds mem environbufptr 4 = false ->
      environ_sizes_get environcptr environbufptr w
      = (Throw RangeError, set_memory Env w (store mem environcptr (le32 0)))).
Proof.
  intros Hm Hc.
  set (mem1 := store mem environcptr (le32 0)).
  assert (Hc' : in_bounds mem environcptr (byteLength (le32 0)) = true) by exact Hc.
  assert (Hlen1 : length mem1 = length mem) by (apply store_length; exact Hc').
  assert (Hrun1 : forall k : unit -> M (Wasi Env) Z,
             (assertsItIsMemory Env ;;; let* u := view_setUint32 Env environcptr 0 in k u) w
             = k tt (set_memory Env w mem1)).
  { intros k. rewrite (bind_then _ _ _ _ _ (assertsItIsMemory_set w mem Hm)).
    rewrite (bind_then _ _ _ _ _ (view_setUint32_set w mem environcptr 0 Hm Hc)).
    reflexivity. }
  split.
  - intros Hb.
    assert (Hb1 : in_bounds mem1 environbufptr 4 = true).
    { apply in_bounds_iff. apply in_bounds_iff in Hb.
      unfold byteLength in *. rewrite Hlen1. exact Hb. }
    assert (Hb1' : in_bounds mem1 environbufptr (byteLength (le32 0)) = true) by exact Hb1.
    eexists. exists (store mem1 environbufptr (le32 0)). split.
    + unfold environ_sizes_get. rewrite Hrun1.
      erewrite bind_then
        by (apply (view_setUint32_set _ mem1); [reflexivity | exact Hb1]).
      reflexivity.
    + simpl. repeat split; auto.
      * apply in_bounds_iff in Hc. apply in_bounds_iff in Hb.
        rewrite getUint32_inside
          by (unfold byteLength in *; rewrite ?(store_length _ _ _ Hb1'); lia).
        f_equal. unfold uint32_at.
        rewrite !(at_index_store mem1 _ _ _ Hb1') by lia.
        unfold mem1. rewrite !(at_index_store mem _ _ _ Hc') by lia.
        rewrite le32_zero. change (byteLength [x00; x00; x00; x00]) with 4.
        repeat match goal with
               | |- context [(?a <=? ?b) && (?c <? ?d)] =>
                   destruct ((a <=? b) && (c <? d)) eqn:?
               end;
          rewrite ?nth_zeros; try reflexivity;
          repeat match goal with
                 | H : _ && _ = false |- _ => apply andb_false_iff in H
                 end; lia.
      * apply (getUint32_store_le32 mem1 environbufptr 0 Hb1).
      * rewrite (store_length _ _ _ Hb1'). exact Hlen1.
      * intros a Ha1 Ha2.
        rewrite (store_lookup_outside _ _ _ a Hb1') by (unfold byteLength; simpl; lia).
        apply (store_lookup_outside _ _ _ a Hc'). unfold byteLength; simpl; lia.
  - intros Hb. unfold environ_sizes_get. rewrite Hrun1.
    apply bind_throw. unfold view_setUint32, setUint32. simpl.
    replace (in_bounds mem1 environbufptr 4) with false; [reflexivity|].
    rewrite <- Hb. unfold in_bounds, byteLength. rewrite Hlen1. reflexivity.
Qed.

End Bridge_environ.

(** X9 at the sample session, with overlapping locations. *)
Lemma environ_sizes_get_witness :
  fst (environ_sizes_get 16 18 Sample.session) = Ok 0
  /\ fst (environ_sizes_get 16 30 Sample.session) = Throw RangeError.
Proof.
  destruct (environ_sizes_get_reports_nothing
              Sample.session Sample.memory32 16 18 eq_refl eq_refl)
    as [Hok _].
  destruct (Hok eq_refl) as (w' & mem' & Hrun & _).
  destruct (environ_sizes_get_reports_nothing
              Sample.session Sample.memory32 16 30 eq_refl eq_refl)
    as [_ Hfail].
  rewrite Hrun, (Hfail eq_refl). split; reflexivity.
Defined.

(** ** A sequential read that cannot report *)

Section Bridge_read_more.

Context {Env : Type}.
Implicit Types w : Wasi Env.

(** X17: [fd_read] writes the count last, so a result location outside
    the memory makes the platform throw [RangeError] only after the
    provider was invoked: the bytes it supplied are in the first window
    and its state has moved on, while the count is never reported and
    the call returns no status. *)
Theorem fd_read_throws_after_the_provider_ran
    w mem iovsptr iovslen readptr buf len n stores e' :
  memory w = Some mem ->
  0 < iovslen ->
  getUint32 mem iovsptr = Ok buf ->
  getUint32 mem (iovsptr + 4) = Ok len ->
  in_bounds mem buf len = true ->
  stdin w (window mem (buf, len)) (env w) = (Ok (n, stores), e') ->
  in_bounds mem readptr 4 = false ->
  exists w',
    fd_read 0 iovsptr iovslen readptr w = (Throw RangeError, w')
    /\ memory w'
       = Some (store mem buf (apply_stores (window mem (buf, len)) stores))
    /\ env w' = e'
    /\ calls w'
       = calls w ++ [{| channel := 0; offered := window mem (buf, len);
                        returned := n |}].
Proof.
  intros Hm Hn Hbuf Hlen Hwin Hin Hres.
  set (b := window mem (buf, len)) in *.
  set (mem1 := store mem buf (apply_stores b stores)).
  assert (Hb : byteLength b = len) by (apply window_length; exact Hwin).
  assert (Hwin1 : in_bounds mem buf (byteLength (apply_stores b stores)) = true).
  { unfold byteLength. rewrite apply_stores_length. fold (byteLength b).
    rewrite Hb. exact Hwin. }
  assert (Hlen1 : length mem1 = length mem) by (apply store_length; exact Hwin1).
  assert (Hres1 : in_bounds mem1 readptr 4 = false).
  { rewrite <- Hres. unfold in_bounds, byteLength. rewrite Hlen1. reflexivity. }
  eexists. split.
  - unfold fd_read.
    rewrite (bind_then _ _ _ _ _ (assertsItIsMemory_set w mem Hm)).
    cbn [Z.eqb negb].
    destruct (Z.ltb_spec 0 iovslen) as [_|]; [|lia].
    replace (iovsptr + 0 * 8 + 0) with iovsptr by lia.
    replace (iovsptr + 0 * 8 + 4) with (iovsptr + 4) by lia.
    unfold bind at 1. unfold bind at 1.
    rewrite (view_getUint32_set w mem _ _ Hm Hbuf).
    unfold bind at 1.
    rewrite (view_getUint32_set w mem _ _ Hm Hlen).
    unfold bind at 1.
    rewrite (new_Uint8Array_set w mem _ _ Hm Hwin). fold b.
    unfold bind at 1. unfold call_stdin at 1. rewrite Hin, Hm.
    unfold ret at 1. fold mem1.
    apply bind_throw. unfold view_setUint32, setUint32. simpl.
    rewrite Hres1. reflexivity.
  - simpl. auto.
Qed.

End Bridge_read_more.

(** X17 at the sample session, with the result location at the last two
    bytes of the memory: four bytes of the input are gone. *)
Lemma fd_read_throws_witness :
  exists w',
    fd_read 0 0 2 30 Sample.session = (Throw RangeError, w')
    /\ input (env w') = Sample.ascii "ef".
Proof.
  destruct (fd_read_throws_after_the_provider_ran
              Sample.session Sample.memory32 0 2 30 16 4 _ _ _
              eq_refl eq_refl eq_refl eq_refl eq_refl eq_refl eq_refl)
    as (w' & Hrun & _ & Henv & _).
  exists w'. split; [exact Hrun | rewrite Henv; reflexivity].
Defined.

(** ** What a sequential write leaves behind *)

Section Bridge_write_more.

Context {Env : Type}.
Implicit Types w : Wasi Env.

Lemma sum_returned_app cs cs' :
  sum_returned (cs ++ cs') = sum_returned cs + sum_returned cs'.
Proof.
  induction cs as [|c cs IH]; simpl; [reflexivity|].
  unfold sum_returned in *. simpl. rewrite IH. lia.
Qed.

(** Whatever the consumer does, when the [while] loop ends, in a count
    or in what the consumer threw, the memory and the bindings are as
    before, and a count is the sum of what the consumer returned. *)
Lemma write_all_outcome fd (wr : Write Env) fuel :
  forall b written w res w',
    write_all fuel fd wr b written w = Some (res, w') ->
    exists cs,
      reached fd w cs w'
      /\ forall v, res = Ok v -> v = written + sum_returned cs.
Proof.
  induction fuel as [|fuel IH]; intros b written w res w' H; [discriminate|].
  simpl in H. destruct (byteLength b >? 0).
  - unfold call_write in H.
    destruct (wr b (env w)) as [[n|err] e'] eqn:Hcall.
    + set (c := {| channel := fd; offered := b; returned := n |}) in *.
      apply IH in H as (cs & Hreach & Hsum).
      exists (c :: cs). split.
      * apply (reached_trans fd w [c] (after_call Env w e' c) cs w');
          [|exact Hreach].
        unfold reached; simpl. repeat split. repeat constructor.
      * intros v Hv. rewrite (Hsum v Hv).
        change (sum_returned (c :: cs)) with (n + sum_returned cs). lia.
    + injection H as <- <-. exists []. split.
      * unfold reached; simpl. rewrite app_nil_r. repeat split. constructor.
      * intros v Hv. discriminate.
  - injection H as <- <-. exists []. split; [apply reached_refl|].
    intros v [= <-]. simpl. lia.
Qed.

Lemma read_descriptor_keeps w ptr i :
  exists res,
    (let* buf := view_getUint32 Env (ptr + (i * 8) + 0) in
     let* len := view_getUint32 Env (ptr + (i * 8) + 4) in
     new_Uint8Array Env buf len) w = (res, w).
Proof.
  unfold bind, view_getUint32, new_Uint8Array, lift.
  destruct (memory w) as [m|] eqn:Hm; [|eauto].
  destruct (getUint32 m (ptr + i * 8 + 0)); [|eauto].
  rewrite Hm.
  destruct (getUint32 m (ptr + i * 8 + 4)); [|eauto].
  rewrite Hm. eauto.
Qed.

Lemma write_vectors_outcome fd (wr : Write Env) ptr fuel left :
  forall i written w res w',
    write_vectors fuel fd wr ptr left i written w = Some (res, w') ->
    exists cs,
      reached fd w cs w'
      /\ forall v, res = Ok v -> v = written + sum_returned cs.
Proof.
  induction left as [|left IH]; intros i written w res w' H.
  - injection H as <- <-. exists []. split; [apply reached_refl|].
    intros v [= <-]. simpl. lia.
  - cbn [write_vectors] in H.
    destruct (read_descriptor_keeps w ptr i) as (rd & Hrd). rewrite Hrd in H.
    destruct rd as [b|err].
    + destruct (write_all fuel fd wr b written w) as [[[written'|err] w1]|] eqn:Hall;
        [| |discriminate].
      * apply write_all_outcome in Hall as (cs1 & Hr1 & Hs1).
        apply IH in H as (cs2 & Hr2 & Hs2).
        exists (cs1 ++ cs2). split.
        -- apply (reached_trans fd w cs1 w1 cs2 w'); assumption.
        -- intros v Hv. rewrite (Hs2 v Hv), (Hs1 written' eq_refl).
           rewrite sum_returned_app. lia.
      * injection H as <- <-.
        apply write_all_outcome in Hall as (cs1 & Hr1 & _).
        exists cs1. split; [exact Hr1|]. intros v Hv. discriminate.
    + injection H as <- <-. exists []. split; [apply reached_refl|].
      intros v Hv. discriminate.
Qed.

(** Every outcome of [fd_write]: the log grows by calls of the consumer
    of the descriptor, and either the memory is as before and the
    outcome is not the return of 0, or the call returns 0 and the memory
    differs by the sum of the returned counts stored at the result
    location. *)
Lemma fd_write_outcome fuel fd ptr count writtenptr w res w' :
  fd_write fuel fd ptr count writtenptr w = Some (res, w') ->
  exists cs,
    calls w' = calls w ++ cs
    /\ Forall (fun c => channel c = fd) cs
    /\ ((res <> Ok 0 /\ memory w' = memory w)
        \/ (res = Ok 0
            /\ exists mem,
                 memory w = Some mem
                 /\ in_bounds mem writtenptr 4 = true
                 /\ memory w'
                    = Some (store mem writtenptr (le32 (sum_returned cs))))).
Proof.
  intros H. unfold fd_write in H.
  unfold assertsItIsMemory in H.
  destruct (memory w) as [mem|] eqn:Hm.
  2:{ injection H as <- <-. exists []. rewrite app_nil_r.
      repeat split; [constructor|]. left. split; [discriminate | exact Hm]. }
  destruct (if fd =? 1 then Some (stdout w)
            else if fd =? 2 then Some (stderr w) else None) as [wr|].
  2:{ injection H as <- <-. exists []. rewrite app_nil_r.
      repeat split; [constructor|]. left. split; [discriminate | exact Hm]. }
  destruct (write_vectors fuel fd wr ptr (Z.to_nat count) 0 0 w)
    as [[[written|err] w1]|] eqn:Hvec; [| |discriminate].
  - apply write_vectors_outcome in Hvec
      as (cs & (Hm1 & _ & _ & _ & Hc1 & Hf1) & Hsum).
    rewrite (Hsum written eq_refl) in H.
    change (0 + sum_returned cs) with (sum_returned cs) in H.
    unfold bind, view_setUint32, setUint32 in H. rewrite Hm1, Hm in H.
    exists cs.
    destruct (in_bounds mem writtenptr 4) eqn:Hb; simpl in H;
      injection H as <- <-; simpl; (split; [exact Hc1|split; [exact Hf1|]]).
    + right. split; [reflexivity|]. exists mem. auto.
    + left. split; [discriminate | congruence].
  - injection H as <- <-.
    apply write_vectors_outcome in Hvec as (cs & (Hm1 & _ & _ & _ & Hc1 & Hf1) & _).
    exists cs. repeat split; auto. left. split; [discriminate | congruence].
Qed.


(** X11: when [fd_write] ends in anything but the return of 0 (the
    return of 8 for a bad descriptor, or an exception: of the consumer,
    or the platform's for a vector or a result location outside the
    memory), the memory is exactly as before: no result length is
    written.  (A consumer reads the array it is offered; see [Write].) *)
Theorem fd_write_that_fails_leaves_the_memory
    fuel fd ptr count writtenptr w res w' :
  fd_write fuel fd ptr count writtenptr w = Some (res, w') ->
  res <> Ok 0 ->
  memory w' = memory w.
Proof.
  intros H Hres. apply fd_write_outcome in H as (cs & _ & _ & [[_ Hm]|[Heq _]]);
    [exact Hm | contradiction].
Qed.

End Bridge_write_more.



Example sample_unwritten :
  fd_write 100 1 0 2 40 Sample.session
  = Some (Throw RangeError, Sample.unwritten)
  /\ output (env Sample.unwritten) = [Sample.ascii "wxyz"; Sample.ascii "WXYZ"].
Proof. vm_compute. split; reflexivity. Qed.

(** X11 at the sample session with the result location 40, outside the
    32 bytes of the memory: the consumer has taken both vectors when the
    platform throws. *)
Lemma fd_write_fails_witness :
  memory Sample.unwritten = memory Sample.session.
Proof.
  exact (fd_write_that_fails_leaves_the_memory
           100 1 0 2 40 Sample.session (Throw RangeError) Sample.unwritten
           (proj1 sample_unwritten) ltac:(discriminate)).
Defined.

(** ** The bridge before it is bound *)

Section Bridge_unbound.

Context {Env : Type}.
Implicit Types w : Wasi Env.

(** X18: until [initialize] has bound the memory, the three imports that
    use it throw "Memory not set." before they look at anything else:
    whatever the descriptor (also one for which they would return 8),
    the pointers and the callbacks; nothing is invoked and nothing
    changes. *)
Theorem memory_is_asserted_first w fd ptr count resultptr fuel :
  memory w = None ->
  fd_read fd ptr count resultptr w = (Throw MemoryNotSet, w)
  /\ fd_write fuel fd ptr count resultptr w = Some (Throw MemoryNotSet, w)
  /\ environ_sizes_get ptr resultptr w = (Throw MemoryNotSet, w).
Proof.
  intros Hm.
  assert (Ha : assertsItIsMemory Env w = (Throw MemoryNotSet, w))
    by (unfold assertsItIsMemory; rewrite Hm; reflexivity).
  split; [|split].
  - unfold fd_read. apply bind_throw. exact Ha.
  - unfold fd_write. rewrite Ha. reflexivity.
  - unfold environ_sizes_get. apply bind_throw. exact Ha.
Qed.

(** X19: with the memory bound and no callbacks set up, a call throws
    "Not set: ..." when it reaches a callback, and leaves everything as
    it was.  [fd_read] reaches [stdin] for any first vector, also an
    empty one; [fd_write] reaches its consumer only for a vector with
    bytes, and with one empty vector returns 0 and stores the count 0. *)
Theorem unset_callbacks_throw_when_reached
    (e : Env) mem ptr count resultptr buf len :
  let w := initialize mem (wasip1 e) in
  0 < count ->
  getUint32 mem ptr = Ok buf ->
  getUint32 mem (ptr + 4) = Ok len ->
  in_bounds mem buf len = true ->
  fd_read 0 ptr count resultptr w = (Throw (NotSet "stdin"), w)
  /\ (0 < len -> forall fuel,
        fd_write (S fuel) 1 ptr count resultptr w
        = Some (Throw (NotSet "stdout"), w)
        /\ fd_write (S fuel) 2 ptr count resultptr w
           = Some (Throw (NotSet "stderr"), w))
  /\ (len = 0 -> count = 1 -> in_bounds mem resultptr 4 = true ->
      forall fuel,
        fd_write (S fuel) 1 ptr count resultptr w
        = Some (Ok 0, set_memory Env w (store mem resultptr (le32 0)))).
Proof.
  intros w Hcount Hbuf Hlen Hwin.
  assert (Hm : memory w = Some mem) by reflexivity.
  assert (Hb : byteLength (window mem (buf, len)) = len)
    by (apply window_length; exact Hwin).
  assert (Hvec : (let* buf := view_getUint32 Env (ptr + 0 * 8 + 0) in
                  let* len := view_getUint32 Env (ptr + 0 * 8 + 4) in
                  new_Uint8Array Env buf len) w
                 = (Ok (window mem (buf, len)), w)).
  { replace (ptr + 0 * 8 + 0) with ptr by lia.
    replace (ptr + 0 * 8 + 4) with (ptr + 4) by lia.
    unfold bind at 1. rewrite (view_getUint32_set w mem _ _ Hm Hbuf).
    unfold bind at 1. rewrite (view_getUint32_set w mem _ _ Hm Hlen).
    apply (new_Uint8Array_set w mem _ _ Hm Hwin). }
  assert (Hleft : exists k, Z.to_nat count = S k)
    by (exists (Z.to_nat (count - 1)); lia).
  destruct Hleft as [k Hk].
  split; [|split].
  - unfold fd_read.
    rewrite (bind_then _ _ _ _ _ (assertsItIsMemory_set w mem Hm)).
    cbn [Z.eqb negb].
    destruct (Z.ltb_spec 0 count) as [_|]; [|lia].
    replace (ptr + 0 * 8 + 0) with ptr by lia.
    replace (ptr + 0 * 8 + 4) with (ptr + 4) by lia.
    unfold bind at 1. unfold bind at 1.
    rewrite (view_getUint32_set w mem _ _ Hm Hbuf).
    unfold bind at 1.
    rewrite (view_getUint32_set w mem _ _ Hm Hlen).
    unfold bind at 1.
    rewrite (new_Uint8Array_set w mem _ _ Hm Hwin).
    reflexivity.
  - intros Hpos fuel.
    split; unfold fd_write; rewrite (assertsItIsMemory_set w mem Hm);
      cbn [Z.eqb Pos.eqb]; rewrite Hk; cbn [write_vectors]; rewrite Hvec;
      cbn [write_all]; rewrite Hb;
      (destruct (Z.gtb_spec len 0) as [_|]; [|lia]); reflexivity.
  - intros -> -> Hres fuel.
    unfold fd_write. rewrite (assertsItIsMemory_set w mem Hm).
    cbn [Z.eqb Pos.eqb]. change (Z.to_nat 1) with 1%nat. cbn [write_vectors].
    rewrite Hvec. cbn [write_all]. rewrite Hb. cbn [Z.gtb Z.compare].
    rewrite (bind_then _ _ _ _ _ (view_setUint32_set w mem resultptr 0 Hm Hres)).
    reflexivity.
Qed.

End Bridge_unbound.

(** X18 at the state [wasip1] starts from, for a descriptor that is not
    served. *)
Lemma memory_is_asserted_first_witness :
  fd_read 3 0 0 0 (wasip1 tt) = (Throw MemoryNotSet, wasip1 tt)
  /\ fd_write 0 3 0 0 0 (wasip1 tt) = Some (Throw MemoryNotSet, wasip1 tt)
  /\ environ_sizes_get 0 0 (wasip1 tt) = (Throw MemoryNotSet, wasip1 tt).
Proof.
  apply (memory_is_asserted_first (wasip1 tt) 3 0 0 0 0). reflexivity.
Defined.

(** X19 at the sample memory, whose first vector has four bytes. *)
Lemma unset_callbacks_witness :
  fd_read 0 0 2 28 (initialize Sample.memory32 (wasip1 tt))
  = (Throw (NotSet "stdin"), initialize Sample.memory32 (wasip1 tt)).
Proof.
  apply (unset_callbacks_throw_when_reached tt Sample.memory32 0 2 28 16 4);
    reflexivity.
Defined.

(** ** The bridge with the callbacks of [parse] *)

Lemma apply_stores_run (xs : list byte) : forall (i : nat) (b : list byte),
  (i + length xs <= length b)%nat ->
  apply_stores b (combine (seq i (length xs)) xs)
  = take i b ++ xs ++ drop (i + length xs) b.
Proof.
  induction xs as [|x xs IH]; intros i b Hfit.
  - simpl. rewrite Nat.add_0_r. symmetry. apply take_drop.
  - simpl in Hfit.
    change (apply_stores b (combine (seq i (length (x :: xs))) (x :: xs)))
      with (apply_stores (<[i:=x]> b) (combine (seq (S i) (length xs)) xs)).
    rewrite IH by (rewrite length_insert; lia).
    rewrite drop_insert_lt by lia.
    rewrite take_insert_lt by lia.
    destruct (lookup_lt_is_Some_2 b i ltac:(lia)) as [y Hy].
    rewrite (take_S_r _ _ _ Hy).
    rewrite insert_app_r_alt by (rewrite length_take; lia).
    rewrite length_take. replace (i - i `min` length b)%nat with 0%nat by lia.
    simpl. rewrite <- app_assoc. simpl.
    replace (S (i + length xs)) with (i + S (length xs))%nat by lia.
    reflexivity.
Qed.

Lemma apply_stores_indexed (xs b : list byte) :
  (length xs <= length b)%nat ->
  apply_stores b (indexed xs) = xs ++ drop (length xs) b.
Proof.
  intros Hfit. unfold indexed. rewrite (apply_stores_run xs 0 b) by lia.
  reflexivity.
Qed.

Lemma window_store mem buf bytes :
  in_bounds mem buf (byteLength bytes) = true ->
  window (store mem buf bytes) (buf, byteLength bytes) = bytes.
Proof.
  intros Hb. apply in_bounds_iff in Hb. unfold window, store, byteLength in *.
  simpl. rewrite Nat2Z.id.
  rewrite drop_app_length' by (rewrite length_take; lia).
  apply take_app_length.
Qed.

Lemma store_window mem buf len :
  in_bounds mem buf len = true -> store mem buf (window mem (buf, len)) = mem.
Proof.
  intros Hb. pose proof (window_length mem buf len Hb) as Hlen.
  apply in_bounds_iff in Hb. unfold window, store, byteLength in *. simpl in *.
  rewrite length_take, length_drop.
  replace (Z.to_nat buf + Z.to_nat len `min` (length mem - Z.to_nat buf))%nat
    with (Z.to_nat buf + Z.to_nat len)%nat by lia.
  rewrite <- drop_drop, take_drop. apply take_drop.
Qed.

Section Bridge_parse.

Implicit Types w : Wasi ParseEnv.

(** What [fd_read] on descriptor 0 comes to when its first vector and
    result location are inside the memory and the provider returns. *)
Lemma fd_read_runs w mem iovsptr iovslen readptr buf len n stores e' :
  memory w = Some mem ->
  0 < iovslen ->
  getUint32 mem iovsptr = Ok buf ->
  getUint32 mem (iovsptr + 4) = Ok len ->
  in_bounds mem buf len = true ->
  in_bounds mem readptr 4 = true ->
  stdin w (window mem (buf, len)) (env w) = (Ok (n, stores), e') ->
  fd_read 0 iovsptr iovslen readptr w
  = (Ok 0,
     set_memory ParseEnv
       (after_call ParseEnv w e'
          {| channel := 0; offered := window mem (buf, len); returned := n |})
       (store (store mem buf (apply_stores (window mem (buf, len)) stores))
          readptr (le32 n))).
Proof.
  intros Hm Hn Hbuf Hlen Hwin Hres Hin.
  set (b := window mem (buf, len)) in *.
  set (mem1 := store mem buf (apply_stores b stores)).
  assert (Hb : byteLength b = len) by (apply window_length; exact Hwin).
  assert (Hwin1 : in_bounds mem buf (byteLength (apply_stores b stores)) = true).
  { unfold byteLength. rewrite apply_stores_length. fold (byteLength b).
    rewrite Hb. exact Hwin. }
  assert (Hres1 : in_bounds mem1 readptr 4 = true).
  { apply in_bounds_iff. apply in_bounds_iff in Hres.
    unfold byteLength in *. unfold mem1. rewrite (store_length _ _ _ Hwin1). exact Hres. }
  unfold fd_read.
  rewrite (bind_then _ _ _ _ _ (assertsItIsMemory_set w mem Hm)).
  cbn [Z.eqb negb].
  destruct (Z.ltb_spec 0 iovslen) as [_|]; [|lia].
  replace (iovsptr + 0 * 8 + 0) with iovsptr by lia.
  replace (iovsptr + 0 * 8 + 4) with (iovsptr + 4) by lia.
  unfold bind at 1. unfold bind at 1.
  rewrite (view_getUint32_set w mem _ _ Hm Hbuf).
  unfold bind at 1.
  rewrite (view_getUint32_set w mem _ _ Hm Hlen).
  unfold bind at 1.
  rewrite (new_Uint8Array_set w mem _ _ Hm Hwin). fold b.
  unfold bind at 1. unfold call_stdin at 1. rewrite Hin, Hm.
  unfold ret at 1. fold mem1.
  erewrite bind_then
    by (apply (view_setUint32_set _ mem1); [reflexivity | exact Hres1]).
  reflexivity.
Qed.

(** X12: [fd_read] with the [stdin] that [parse] binds moves the next
    bytes of the input into the first window, as many as the window
    takes or as are left, and says how many: the bytes moved followed by
    the input left are the input before, so no byte is lost or repeated
    across calls.  At the end of the input the count is 0 and the window
    is left as it was. *)
Theorem fd_read_moves_the_next_bytes_of_the_input
    w mem iovsptr iovslen readptr buf len :
  memory w = Some mem ->
  stdin w = parse_stdin ->
  0 < iovslen ->
  getUint32 mem iovsptr = Ok buf ->
  getUint32 mem (iovsptr + 4) = Ok len ->
  in_bounds mem buf len = true ->
  in_bounds mem readptr 4 = true ->
  let n := Z.min len (byteLength (input (env w))) in
  let moved := take (Z.to_nat n) (input (env w)) in
  let mem1 := store mem buf (moved ++ drop (Z.to_nat n) (window mem (buf, len))) in
  exists w',
    fd_read 0 iovsptr iovslen readptr w = (Ok 0, w')
    /\ memory w' = Some (store mem1 readptr (le32 n))
    /\ window mem1 (buf, len) = moved ++ drop (Z.to_nat n) (window mem (buf, len))
    /\ input (env w') = drop (Z.to_nat n) (input (env w))
    /\ moved ++ input (env w') = input (env w)
    /\ output (env w') = output (env w)
    /\ (input (env w) = [] -> n = 0 /\ mem1 = mem).
Proof.
  intros Hm Hin Hn Hbuf Hlen Hwin Hres n moved mem1.
  set (b := window mem (buf, len)).
  assert (Hb : byteLength b = len) by (apply window_length; exact Hwin).
  pose proof (byteLength_nonneg (input (env w))) as Hin0.
  assert (Hlen0 : 0 <= len) by (apply in_bounds_iff in Hwin; lia).
  assert (Hn0 : 0 <= n <= byteLength (input (env w))) by (unfold n; lia).
  assert (Hmoved : length moved = Z.to_nat n).
  { unfold moved. rewrite length_take. unfold byteLength in *. lia. }
  assert (Hcall : stdin w b (env w)
                  = (Ok (n, indexed moved),
                     {| input := drop (Z.to_nat n) (input (env w));
                        output := output (env w) |})).
  { rewrite Hin. unfold parse_stdin. rewrite Hb. fold n.
    rewrite (slice_drop _ n Hn0). reflexivity. }
  assert (Hstores : apply_stores b (indexed moved) = moved ++ drop (Z.to_nat n) b).
  { rewrite apply_stores_indexed by (unfold byteLength in *; lia).
    rewrite Hmoved. reflexivity. }
  eexists. split.
  { apply (fd_read_runs w mem iovsptr iovslen readptr buf len n _ _
             Hm Hn Hbuf Hlen Hwin Hres Hcall). }
  fold b. rewrite Hstores. fold mem1. simpl.
  assert (Hsize : byteLength (moved ++ drop (Z.to_nat n) b) = len).
  { unfold byteLength in *. rewrite length_app, length_drop. lia. }
  split; [reflexivity|].
  split.
  { rewrite <- Hsize at 1. apply window_store. rewrite Hsize. exact Hwin. }
  split; [reflexivity|].
  split; [apply take_drop|].
  split; [reflexivity|].
  intros Hnil.
  assert (Hz : n = 0) by (unfold n; rewrite Hnil; unfold byteLength; simpl; lia).
  split; [exact Hz|].
  unfold mem1, moved. rewrite Hz. simpl. apply store_window. exact Hwin.
Qed.

End Bridge_parse.

(** X12 at the sample session: four of the six bytes of input move. *)
Lemma fd_read_moves_witness :
  exists w',
    fd_read 0 0 2 28 Sample.session = (Ok 0, w')
    /\ input (env w') = Sample.ascii "ef".
Proof.
  destruct (fd_read_moves_the_next_bytes_of_the_input
              Sample.session Sample.memory32 0 2 28 16 4
              eq_refl eq_refl eq_refl eq_refl eq_refl eq_refl eq_refl)
    as (w' & Hrun & _ & _ & Hleft & _).
  exists w'. split; [exact Hrun | exact Hleft].
Defined.

Lemma concat_chunks bs : concat (chunks bs) = concat bs.
Proof.
  induction bs as [|b bs IH]; [reflexivity|].
  unfold chunks in *. simpl.
  destruct (Z.eqb_spec (byteLength b) 0) as [Hz|Hz]; simpl.
  - destruct b; [exact IH | unfold byteLength in Hz; simpl in Hz; lia].
  - rewrite IH. reflexivity.
Qed.

Section Bridge_parse_write.

Implicit Types w : Wasi ParseEnv.

(** A consumer that takes all it is offered is invoked once for a window
    with bytes and not at all for an empty one. *)
Lemma write_all_at_once fd (wr : Write ParseEnv) step fuel b written w :
  (forall b e, wr b e = (Ok (byteLength b), step b e)) ->
  exists w',
    write_all (S (S fuel)) fd wr b written w = Some (Ok (written + byteLength b), w')
    /\ memory w' = memory w /\ stdin w' = stdin w /\ stdout w' = stdout w
    /\ stderr w' = stderr w
    /\ env w' = offered_all step [b] (env w).
Proof.
  intros Hwr. pose proof (byteLength_nonneg b) as Hb0.
  unfold offered_all, chunks. cbn [write_all List.filter].
  destruct (Z.gtb_spec (byteLength b) 0) as [Hpos|Hzero].
  - unfold call_write. rewrite Hwr.
    rewrite (slice_drop b (byteLength b)) by lia.
    unfold byteLength at 2. rewrite Nat2Z.id, drop_all.
    change (byteLength [] >? 0) with false. cbv iota.
    destruct (Z.eqb_spec (byteLength b) 0) as [|_]; [lia|].
    eexists. split; [reflexivity|]. simpl. repeat split.
  - assert (Hz : byteLength b = 0) by lia. rewrite Hz. simpl.
    exists w. rewrite Z.add_0_r. repeat split.
Qed.

Lemma offered_all_cons step b bs e :
  offered_all step (b :: bs) e = offered_all step bs (offered_all step [b] e).
Proof.
  unfold offered_all, chunks. simpl.
  destruct (negb (byteLength b =? 0)); reflexivity.
Qed.

Lemma write_vectors_at_once fd (wr : Write ParseEnv) step mem ptr fuel :
  (forall b e, wr b e = (Ok (byteLength b), step b e)) ->
  forall left i written w,
    memory w = Some mem ->
    0 <= ptr -> ptr + 8 * Z.of_nat (i + left) <= byteLength mem ->
    Forall (fun v => in_bounds mem (fst v) (snd v) = true) (iovecs mem ptr i left) ->
    exists w',
      write_vectors (S (S fuel)) fd wr ptr left (Z.of_nat i) written w
      = Some (Ok (written + total_length (iovecs mem ptr i left)), w')
      /\ memory w' = Some mem
      /\ env w' = offered_all step (map (window mem) (iovecs mem ptr i left)) (env w).
Proof.
  intros Hwr. induction left as [|left IH]; intros i written w Hm Hp Hfit Hall.
  - exists w. simpl. split; [|auto]. do 3 f_equal. lia.
  - rewrite iovecs_cons in *. inversion Hall as [|v vs Hv Hvs]; subst.
    cbn [write_vectors].
    assert (Hd0 : getUint32 mem (ptr + Z.of_nat i * 8 + 0)
                  = Ok (fst (iovec mem ptr i)))
      by (apply getUint32_inside; lia).
    assert (Hd1 : getUint32 mem (ptr + Z.of_nat i * 8 + 4)
                  = Ok (snd (iovec mem ptr i)))
      by (apply getUint32_inside; lia).
    unfold bind at 1. rewrite (view_getUint32_set w mem _ _ Hm Hd0).
    unfold bind at 1. rewrite (view_getUint32_set w mem _ _ Hm Hd1).
    rewrite (new_Uint8Array_set w mem _ _ Hm Hv).
    rewrite <- surjective_pairing.
    set (b := window mem (iovec mem ptr i)).
    assert (Hb : byteLength b = snd (iovec mem ptr i)).
    { unfold b. rewrite (surjective_pairing (iovec mem ptr i)).
      apply window_length. exact Hv. }
    destruct (write_all_at_once fd wr step fuel b written w Hwr)
      as (w1 & Hrun1 & Hm1 & _ & _ & _ & He1).
    rewrite Hrun1.
    replace (Z.of_nat i + 1) with (Z.of_nat (S i)) by lia.
    destruct (IH (S i) (written + byteLength b) w1) as (w2 & Hrun2 & Hm2 & He2);
      auto; [congruence | lia |].
    exists w2. split; [|split; [exact Hm2|]].
    + rewrite Hrun2. do 3 f_equal.
      change (total_length (iovec mem ptr i :: iovecs mem ptr (S i) left))
        with (snd (iovec mem ptr i) + total_length (iovecs mem ptr (S i) left)).
      rewrite Hb. lia.
    + rewrite He2, He1. simpl map. fold b. symmetry. apply offered_all_cons.
Qed.

Lemma offered_all_stdout bs e :
  offered_all (fun b e => {| input := input e; output := output e ++ [b] |}) bs e
  = {| input := input e; output := output e ++ chunks bs |}.
Proof.
  unfold offered_all. generalize (chunks bs) as cs. intros cs. revert e.
  induction cs as [|c cs IH]; intros e; simpl.
  - rewrite app_nil_r. destruct e; reflexivity.
  - rewrite IH. simpl. rewrite <- app_assoc. reflexivity.
Qed.

Lemma offered_all_stderr bs e : offered_all (fun _ e => e) bs e = e.
Proof.
  unfold offered_all. induction (chunks bs) as [|c cs IH]; simpl; auto.
Qed.

(** X13: [fd_write] with the consumers that [parse] binds returns after
    one invocation per vector that has bytes, so two iterations of fuel
    are enough.  On descriptor 1 the collected output grows by exactly
    those vectors' bytes, in order; on descriptor 2 nothing is kept.  In
    both cases the input left is untouched and the sum of the vectors'
    lengths is stored at the result location. *)
Theorem fd_write_with_the_consumers_of_parse
    w mem ciovsptr ciovslen writtenptr fuel :
  memory w = Some mem ->
  0 <= ciovslen ->
  in_bounds mem ciovsptr (8 * ciovslen) = true ->
  Forall (fun v => in_bounds mem (fst v) (snd v) = true)
    (iovecs mem ciovsptr 0 (Z.to_nat ciovslen)) ->
  in_bounds mem writtenptr 4 = true ->
  let vs := iovecs mem ciovsptr 0 (Z.to_nat ciovslen) in
  let bs := map (window mem) vs in
  (stdout w = parse_stdout ->
   exists w',
     fd_write (S (S fuel)) 1 ciovsptr ciovslen writtenptr w = Some (Ok 0, w')
     /\ output (env w') = output (env w) ++ chunks bs
     /\ concat (output (env w')) = concat (output (env w)) ++ concat bs
     /\ input (env w') = input (env w)
     /\ memory w' = Some (store mem writtenptr (le32 (total_length vs))))
  /\ (stderr w = parse_stderr ->
      exists w',
        fd_write (S (S fuel)) 2 ciovsptr ciovslen writtenptr w = Some (Ok 0, w')
        /\ env w' = env w
        /\ memory w' = Some (store mem writtenptr (le32 (total_length vs)))).
Proof.
  intros Hm Hn Hvec Hall Hres vs bs.
  apply in_bounds_iff in Hvec.
  assert (Hrun : forall fd wr step,
             (forall b e, wr b e = (Ok (byteLength b), step b e)) ->
             (if fd =? 1 then Some (stdout w)
              else if fd =? 2 then Some (stderr w) else None) = Some wr ->
             exists w',
               fd_write (S (S fuel)) fd ciovsptr ciovslen writtenptr w
               = Some (Ok 0, w')
               /\ env w' = offered_all step bs (env w)
               /\ memory w' = Some (store mem writtenptr (le32 (total_length vs)))).
  { intros fd wr step Hwr Hsel.
    destruct (write_vectors_at_once fd wr step mem ciovsptr fuel Hwr
                (Z.to_nat ciovslen) 0%nat 0 w Hm) as (w1 & Hrun1 & Hm1 & He1);
      [lia | lia | exact Hall |].
    fold vs in Hrun1, He1. fold bs in He1.
    eexists. split; [|split].
    - unfold fd_write. rewrite (assertsItIsMemory_set w mem Hm), Hsel.
      change (Z.of_nat 0) with 0 in Hrun1. rewrite Hrun1.
      erewrite bind_then
        by (apply (view_setUint32_set w1 mem); [exact Hm1 | exact Hres]).
      reflexivity.
    - simpl. exact He1.
    - reflexivity. }
  split.
  - intros Hout.
    destruct (Hrun 1 parse_stdout
                (fun b e => {| input := input e; output := output e ++ [b] |}))
      as (w' & Hw & He & Hmem); [reflexivity | simpl; rewrite Hout; reflexivity |].
    rewrite offered_all_stdout in He.
    exists w'. rewrite He. simpl. repeat split; auto.
    rewrite concat_app, concat_chunks. reflexivity.
  - intros Herr.
    destruct (Hrun 2 parse_stderr (fun _ e => e))
      as (w' & Hw & He & Hmem); [reflexivity | simpl; rewrite Herr; reflexivity |].
    rewrite offered_all_stderr in He.
    exists w'. auto.
Qed.

End Bridge_parse_write.

(** X13 at the sample session. *)
Lemma fd_write_with_parse_witness :
  (exists w',
      fd_write 2 1 0 2 28 Sample.session = Some (Ok 0, w')
      /\ output (env w') = [Sample.ascii "wxyz"; Sample.ascii "WXYZ"])
  /\ (exists w',
         fd_write 2 2 0 2 28 Sample.session = Some (Ok 0, w')
         /\ env w' = env Sample.session).
Proof.
  destruct (fd_write_with_the_consumers_of_parse
              Sample.session Sample.memory32 0 2 28 0
              eq_refl ltac:(lia) eq_refl ltac:(repeat constructor) eq_refl)
    as [Hout Herr].
  split.
  - destruct (Hout eq_refl) as (w' & Hrun & Ho & _). exists w'. auto.
  - destruct (Herr eq_refl) as (w' & Hrun & He & _). exists w'. auto.
Defined.

(** ** Strings *)

Lemma length_append a b :
  String.length (String.append a b) = (String.length a + String.length b)%nat.
Proof. induction a as [|c a IH]; simpl; [reflexivity | rewrite IH; reflexivity]. Qed.

Lemma substring_all s : String.substring 0 (String.length s) s = s.
Proof. induction s as [|c s IH]; simpl; [reflexivity | rewrite IH; reflexivity]. Qed.

Lemma substring_append_l a b :
  String.substring 0 (String.length a) (String.append a b) = a.
Proof.
  induction a as [|c a IH]; simpl.
  - destruct b; reflexivity.
  - rewrite IH. reflexivity.
Qed.

Lemma substring_append_r a b :
  String.substring (String.length a) (String.length b) (String.append a b) = b.
Proof.
  induction a as [|c a IH]; simpl; [apply substring_all | exact IH].
Qed.

Lemma substring_split s : forall n,
  (n <= String.length s)%nat ->
  s = String.append (String.substring 0 n s)
        (String.substring n (String.length s - n) s).
Proof.
  induction s as [|c s IH]; intros n Hn.
  - destruct n; reflexivity.
  - destruct n as [|n]; simpl.
    + rewrite substring_all. reflexivity.
    + simpl in Hn.
      transitivity
        (String c (String.append (String.substring 0 n s)
                     (String.substring n (String.length s - n) s)));
        [f_equal; apply IH; lia | reflexivity].
Qed.

Lemma endsWith_append n suffix : endsWith (String.append n suffix) suffix = true.
Proof.
  unfold endsWith. rewrite length_append.
  destruct (Z.ltb_spec (Z.of_nat (String.length n + String.length suffix)
                        - Z.of_nat (String.length suffix)) 0); [lia|].
  replace (Z.to_nat _) with (String.length n) by lia.
  rewrite substring_append_r. apply String.eqb_refl.
Qed.

(** With a suffix that is not empty: [s.slice(0, -0)] is the empty
    string. *)
Lemma string_slice_append n suffix :
  (0 < String.length suffix)%nat ->
  string_slice (String.append n suffix) 0 (- Z.of_nat (String.length suffix)) = n.
Proof.
  intros Hpos. unfold string_slice. rewrite length_append. cbn [Z.ltb Z.compare].
  destruct (Z.ltb_spec (- Z.of_nat (String.length suffix)) 0) as [_|H]; [|lia].
  rewrite Z.min_l by lia. change (Z.to_nat 0) with 0%nat.
  replace (Z.to_nat _) with (String.length n) by lia.
  apply substring_append_l.
Qed.

Lemma endsWith_split s suffix :
  (0 < String.length suffix)%nat ->
  endsWith s suffix = true ->
  s = String.append (string_slice s 0 (- Z.of_nat (String.length suffix))) suffix.
Proof.
  unfold endsWith. intros Hpos H.
  destruct (Z.ltb_spec (Z.of_nat (String.length s)
                        - Z.of_nat (String.length suffix)) 0) as [|Hlen];
    [discriminate|].
  apply String.eqb_eq in H.
  set (k := (String.length s - String.length suffix)%nat).
  replace (Z.to_nat _) with k in H by lia.
  assert (Hs : s = String.append (String.substring 0 k s) suffix).
  { rewrite (substring_split s k) at 1 by lia.
    replace (String.length s - k)%nat with (String.length suffix) by lia.
    rewrite H. reflexivity. }
  pose proof (string_slice_append (String.substring 0 k s) suffix Hpos) as Hsl.
  rewrite <- Hs in Hsl. rewrite Hsl. exact Hs.
Qed.

Lemma class_file_inj n n' : class_file n = class_file n' -> n = n'.
Proof.
  unfold class_file. intros H.
  rewrite <- (string_slice_append n ".class"), <- (string_slice_append n' ".class")
    by (simpl; lia).
  rewrite H. reflexivity.
Qed.

Lemma class_file_not_proto n : is_proto_key (class_file n) = false.
Proof.
  unfold is_proto_key. apply String.eqb_neq. intros H.
  pose proof (endsWith_append n ".class") as He.
  fold (class_file n) in He. rewrite H in He. discriminate.
Qed.

(** ** The class files of a jar *)

Lemma jar_get_assign_eq result k v : jar_get (jar_assign result k v) k = Some v.
Proof.
  unfold jar_get, jar_assign. destruct (is_proto_key k) eqn:Hk; simpl.
  - reflexivity.
  - apply lookup_insert_eq.
Qed.

Lemma jar_get_assign_ne result k k' v :
  k <> k' -> jar_get (jar_assign result k v) k' = jar_get result k'.
Proof.
  intros Hne. unfold jar_get, jar_assign, is_proto_key.
  destruct (String.eqb_spec k "__proto__") as [Hk|Hk];
    destruct (String.eqb_spec k' "__proto__") as [Hk'|Hk']; simpl; try reflexivity.
  - congruence.
  - apply lookup_insert_ne. exact Hne.
Qed.

Lemma jar_get_empty k : jar_get empty_jar k = None.
Proof. unfold jar_get, empty_jar. destruct (is_proto_key k); reflexivity. Qed.

Lemma unjar_step_other result e n :
  name e <> class_file n ->
  jar_get (unjar_step result e) n = jar_get result n.
Proof.
  intros Hne. unfold unjar_step.
  destruct (endsWith (name e) ".class") eqn:Hends; simpl; [|reflexivity].
  apply endsWith_split in Hends; [|simpl; lia].
  apply jar_get_assign_ne. intros Hk. apply Hne.
  transitivity
    (String.append
       (string_slice (name e) 0 (- Z.of_nat (String.length ".class"))) ".class");
    [exact Hends|].
  unfold class_file. f_equal. exact Hk.
Qed.

Lemma unjar_step_this result e n :
  name e = class_file n ->
  jar_get (unjar_step result e) n = Some {| jar_name := n; opens := e |}.
Proof.
  intros Hn. unfold unjar_step. rewrite Hn. unfold class_file.
  rewrite endsWith_append. simpl negb. cbv iota.
  rewrite string_slice_append by (simpl; lia).
  apply jar_get_assign_eq.
Qed.

Lemma unjar_fold_other values : forall result n,
  Forall (fun e => name e <> class_file n) values ->
  jar_get (fold_left unjar_step values result) n = jar_get result n.
Proof.
  induction values as [|e values IH]; intros result n Hall; [reflexivity|].
  inversion Hall as [|? ? Hne Hrest]; subst. simpl.
  rewrite IH by assumption. apply unjar_step_other. exact Hne.
Qed.

Lemma unjar_fold_this (values : list ZipEntry) e n :
  NoDup (name <$> values) -> e ∈ values -> name e = class_file n ->
  jar_get (fold_left unjar_step values empty_jar) n
  = Some {| jar_name := n; opens := e |}.
Proof.
  intros Hnodup Hin Hn.
  apply list_elem_of_split in Hin as (pre & post & ->).
  rewrite fold_left_app. simpl.
  rewrite unjar_fold_other; [apply unjar_step_this; exact Hn|].
  rewrite fmap_app, fmap_cons in Hnodup.
  apply NoDup_app in Hnodup as (_ & _ & Hpost).
  apply NoDup_cons in Hpost as (Hnotin & _).
  apply List.Forall_forall. intros e' Hin' Heq. apply Hnotin.
  rewrite Hn, <- Heq. apply list_elem_of_fmap_2. apply list_elem_of_In. exact Hin'.
Qed.

Lemma jar_own_step_proto result e k :
  is_proto_key k = true ->
  jar_own (unjar_step result e) !! k = jar_own result !! k.
Proof.
  intros Hk. unfold unjar_step.
  set (nm := string_slice (name e) 0 (- Z.of_nat (String.length ".class"))).
  destruct (endsWith (name e) ".class"); cbn [negb]; [|reflexivity].
  unfold jar_assign.
  destruct (is_proto_key nm) eqn:Hn; cbn [jar_own]; [reflexivity|].
  apply lookup_insert_ne. intros Heq. congruence.
Qed.

Lemma jar_own_fold_proto values : forall result k,
  is_proto_key k = true ->
  jar_own (fold_left unjar_step values result) !! k = jar_own result !! k.
Proof.
  induction values as [|e values IH]; intros result k Hk; [reflexivity|].
  simpl. rewrite IH by exact Hk. apply jar_own_step_proto. exact Hk.
Qed.

(** The own properties of the result of the loop. *)
Lemma unjar_fold_own (values : list ZipEntry) n j :
  NoDup (name <$> values) ->
  jar_own (fold_left unjar_step values empty_jar) !! n = Some j <->
  n <> "__proto__"
  /\ exists e, e ∈ values /\ name e = class_file n
               /\ j = {| jar_name := n; opens := e |}.
Proof.
  intros Hnodup.
  destruct (is_proto_key n) eqn:Hk.
  - rewrite jar_own_fold_proto by exact Hk. simpl. rewrite lookup_empty.
    apply is_proto_key_iff in Hk. split; [discriminate | tauto].
  - assert (Hne : n <> "__proto__")
      by (intros Heq; apply is_proto_key_iff in Heq; congruence).
    assert (Hget : jar_own (fold_left unjar_step values empty_jar) !! n
                   = jar_get (fold_left unjar_step values empty_jar) n)
      by (unfold jar_get; rewrite Hk; reflexivity).
    rewrite Hget.
    assert (Hdec : forall x : ZipEntry,
               {name x = class_file n} + {name x <> class_file n})
      by (intros x; apply String.string_dec).
    destruct (List.Exists_dec (fun e => name e = class_file n) values Hdec)
      as [Hex|Hno].
    + apply List.Exists_exists in Hex as (e & Hin & Hn).
      apply list_elem_of_In in Hin. split.
      * intros Hj. split; [exact Hne|]. exists e.
        rewrite (unjar_fold_this values e n Hnodup Hin Hn) in Hj.
        injection Hj as <-. auto.
      * intros (_ & e' & Hin' & Hn' & ->). apply unjar_fold_this; assumption.
    + apply Forall_Exists_neg in Hno.
      rewrite (unjar_fold_other values empty_jar n Hno), jar_get_empty. split.
      * discriminate.
      * intros (_ & e & Hin & Hn & _). exfalso.
        rewrite List.Forall_forall in Hno.
        apply list_elem_of_In in Hin. exact (Hno e Hin Hn).
Qed.

(** X14: the loop of [unjar] over entries of pairwise different names
    keeps exactly the class files.  A read at the logical name [n] of an
    entry named [n.class] gives that entry under the name [n]; and the
    properties the result has of its own are these and no others: one
    for each such [n] other than [__proto__], so an entry whose name does
    not end in [.class] is under no name. *)
Theorem unjar_keeps_exactly_the_class_files (values : list ZipEntry) n :
  NoDup (name <$> values) ->
  (forall e, e ∈ values -> name e = class_file n ->
     jar_get (fold_left unjar_step values empty_jar) n
     = Some {| jar_name := n; opens := e |})
  /\ (forall j,
        jar_own (fold_left unjar_step values empty_jar) !! n = Some j <->
        n <> "__proto__"
        /\ exists e, e ∈ values /\ name e = class_file n
                     /\ j = {| jar_name := n; opens := e |}).
Proof.
  intros Hnodup. split.
  - intros e Hin Hn. apply unjar_fold_this; assumption.
  - intros j. apply unjar_fold_own. exact Hnodup.
Qed.

Section Jar_of_archive.

Variable decode : list byte -> string.
Variable Object_values : Records -> list ZipEntry.
Hypothesis values_listed : lists_own_values Object_values.

(** Every own property of the catalog holds an entry of the key's name. *)
Lemma assign_all_names es : forall records,
  (forall k e, own records !! k = Some e -> name e = k) ->
  forall k e, own (assign_all records es) !! k = Some e -> name e = k.
Proof.
  induction es as [|cde es IH]; intros records Hinv; [exact Hinv|].
  change (assign_all records (cde :: es))
    with (assign_all (assign records (fileName cde) (entry_of cde)) es).
  apply IH. intros k e. unfold assign.
  destruct (is_proto_key (fileName cde)); simpl; [apply Hinv|].
  destruct (decide (fileName cde = k)) as [<-|Hne].
  - rewrite lookup_insert_eq. intros [= <-]. reflexivity.
  - rewrite lookup_insert_ne by exact Hne. apply Hinv.
Qed.

Lemma names_of_values (m : gmap string ZipEntry) :
  (forall k e, m !! k = Some e -> name e = k) ->
  name <$> (map_to_list m).*2 = (map_to_list m).*1.
Proof.
  intros Hinv.
  assert (Hall : Forall (fun ke => name (snd ke) = fst ke) (map_to_list m)).
  { apply List.Forall_forall. intros [k e] Hin. simpl.
    apply Hinv. apply elem_of_map_to_list. apply list_elem_of_In. exact Hin. }
  induction Hall as [|[k e] l Hke Hl IH]; [reflexivity|].
  rewrite !fmap_cons. simpl in Hke. simpl fst. simpl snd. rewrite Hke.
  f_equal. exact IH.
Qed.

(** X15: [unjar] fails as [unzip] does, and when [unzip] returns a
    catalog, [unjar] returns a jar made of the catalog's own properties
    whose name ends in [.class], in whatever order the platform lists
    the values of the catalog: a read at the logical name [n] of an own
    property [n.class] gives that entry under the name [n], and the
    properties the jar has of its own are these and no others, one for
    each such [n] other than [__proto__]. *)
Theorem unjar_reads_the_class_files_of_the_catalog buf :
  match unzip decode buf with
  | (Ok records, r) =>
      exists jar,
        unjar decode Object_values buf = (Ok jar, r)
        /\ (forall n e,
              own records !! class_file n = Some e ->
              jar_get jar n = Some {| jar_name := n; opens := e |})
        /\ (forall n j,
              jar_own jar !! n = Some j <->
              n <> "__proto__"
              /\ exists e, own records !! class_file n = Some e
                           /\ j = {| jar_name := n; opens := e |})
  | (Throw e, r) => unjar decode Object_values buf = (Throw e, r)
  end.
Proof.
  unfold unjar. destruct (unzip decode buf) as [[records|e] r] eqn:Hu; [|reflexivity].
  eexists. split; [reflexivity|].
  apply unzip_ok_iff in Hu as (eocd & es & _ & ->).
  set (records := assign_all empty_object es).
  assert (Hinv : forall k e, own records !! k = Some e -> name e = k).
  { apply assign_all_names. intros k e. simpl. rewrite lookup_empty. discriminate. }
  pose proof (values_listed records) as Hperm.
  assert (Hnodup : NoDup (name <$> Object_values records)).
  { rewrite Hperm. rewrite (names_of_values _ Hinv). apply NoDup_fst_map_to_list. }
  assert (Hin : forall e, e ∈ Object_values records <->
                          exists k, own records !! k = Some e).
  { intros e. rewrite Hperm. rewrite list_elem_of_fmap. split.
    - intros ([k e'] & -> & Hke). exists k. apply elem_of_map_to_list. exact Hke.
    - intros (k & Hk). exists (k, e). split; [reflexivity|].
      apply elem_of_map_to_list. exact Hk. }
  split.
  - intros n e He.
    apply unjar_fold_this;
      [exact Hnodup | apply Hin; eauto | apply Hinv; exact He].
  - intros n j. rewrite (unjar_fold_own _ n j Hnodup). split.
    + intros (Hne & e & Hine & Hn & ->). split; [exact Hne|].
      exists e. split; [|reflexivity].
      apply Hin in Hine as (k & Hk).
      rewrite <- (Hinv k e Hk), Hn in Hk. exact Hk.
    + intros (Hne & e & He & ->). split; [exact Hne|].
      exists e. split; [apply Hin; eauto|]. split; [|reflexivity].
      apply Hinv. exact He.
Qed.

End Jar_of_archive.

(** ** The sample jar *)

Lemma sample_values_listed : lists_own_values Sample.values.
Proof. intros records. reflexivity. Qed.

Example sample_unjar :
  match fst (unjar Sample.ascii_decode Sample.values Sample.jar) with
  | Ok jar =>
      option_map jar_name (jar_get jar "A") = Some "A"
      /\ option_map (fun j => name (opens j)) (jar_get jar "p/B") = Some "p/B.class"
      /\ jar_own jar !! "MANIFEST.MF" = None
      /\ jar_own jar !! "MANIFEST" = None
      /\ jar_own jar !! "A.class" = None
  | Throw _ => False
  end.
Proof. vm_compute. auto 10. Qed.

(** X14 at a class file and a manifest. *)
Lemma unjar_keeps_witness :
  let values :=
    [entry_of (Sample.entry 0 "A.class" 3 0);
     entry_of (Sample.entry 0 "MANIFEST.MF" 1 40)] in
  (forall e, e ∈ values -> name e = class_file "A" ->
     jar_get (fold_left unjar_step values empty_jar) "A"
     = Some {| jar_name := "A"; opens := e |})
  /\ (forall j,
        jar_own (fold_left unjar_step values empty_jar) !! "A" = Some j <->
        "A" <> "__proto__"
        /\ exists e, e ∈ values /\ name e = class_file "A"
                     /\ j = {| jar_name := "A"; opens := e |}).
Proof.
  intros values.
  apply (unjar_keeps_exactly_the_class_files values "A").
  unfold values. simpl. repeat constructor.
  - intros Hin. apply list_elem_of_In in Hin. simpl in Hin.
    destruct Hin as [H|[]]. discriminate H.
  - intros Hin. apply list_elem_of_In in Hin. destruct Hin.
Defined.

(** X15 at the sample jar. *)
Lemma unjar_reads_witness :
  match unzip Sample.ascii_decode Sample.jar with
  | (Ok records, r) =>
      exists jar,
        unjar Sample.ascii_decode Sample.values Sample.jar = (Ok jar, r)
        /\ (forall n e,
              own records !! class_file n = Some e ->
              jar_get jar n = Some {| jar_name := n; opens := e |})
        /\ (forall n j,
              jar_own jar !! n = Some j <->
              n <> "__proto__"
              /\ exists e, own records !! class_file n = Some e
                           /\ j = {| jar_name := n; opens := e |})
  | (Throw e, r) =>
      unjar Sample.ascii_decode Sample.values Sample.jar = (Throw e, r)
  end.
Proof.
  exact (unjar_reads_the_class_files_of_the_catalog
           Sample.ascii_decode Sample.values sample_values_listed Sample.jar).
Defined.
